(** * caddy-cache: the streaming recorder, the in-memory storage and the
    request handler, embedded from [handler.go], [streamed_recorder.go] and
    [storage.go].

    Go strings are byte strings ([string] of 8-bit [ascii]); a [[]string] is
    either the nil slice or a non-nil slice; an [http.Header] is a map from
    string to [[]string]. *)

From Stdlib Require Import ZArith Ascii String List Lia Bool.
From stdpp Require Import base option list gmap strings fin_maps.

(* ================================================================== *)
(** ** Go's [strings] package, as far as the handler uses it *)
(* ================================================================== *)

Module GoStrings.

Definition bytes_of (l : list nat) : list ascii := map ascii_of_nat l.

(** [strings.Split(s, sep)] for a one-byte separator: the pieces between
    the separators, one more piece than there are separators. *)
Fixpoint Split (s : string) (sep : ascii) : list string :=
  match s with
  | EmptyString => [EmptyString]
  | String c s' =>
      let rest := Split s' sep in
      if Ascii.eqb c sep then EmptyString :: rest
      else match rest with
           | piece :: pieces => String c piece :: pieces
           | [] => [String c EmptyString]
           end
  end.

(** The white space of [unicode.IsSpace], as UTF-8 byte sequences:
    the six ASCII characters of the fast path, U+0085, U+00A0, U+1680,
    U+2000 to U+200A, U+2028, U+2029, U+202F, U+205F and U+3000. *)
Definition spaceRunes : list (list ascii) :=
  map bytes_of
    ([[9]; [10]; [11]; [12]; [13]; [32];
      [194; 133]; [194; 160]; [225; 154; 128]]
     ++ map (fun b => [226; 128; b]) (seq 128 11)
     ++ [[226; 128; 168]; [226; 128; 169]; [226; 128; 175];
         [226; 129; 159]; [227; 128; 128]]).

Fixpoint stripPrefix (p s : list ascii) : option (list ascii) :=
  match p, s with
  | [], _ => Some s
  | a :: p', b :: s' => if Ascii.eqb a b then stripPrefix p' s' else None
  | _ :: _, [] => None
  end.

(** Remove one leading rune of [runes], if the input starts with one. *)
Fixpoint stripOne (runes : list (list ascii)) (s : list ascii)
  : option (list ascii) :=
  match runes with
  | [] => None
  | p :: runes' =>
      match stripPrefix p s with
      | Some r => Some r
      | None => stripOne runes' s
      end
  end.

Fixpoint trimLeftN (fuel : nat) (runes : list (list ascii))
         (s : list ascii) : list ascii :=
  match fuel with
  | O => s
  | S fuel' =>
      match stripOne runes s with
      | Some r => trimLeftN fuel' runes r
      | None => s
      end
  end.

(** Every rune is at least one byte long, so [length s] rounds suffice. *)
Definition trimLeft (runes : list (list ascii)) (s : list ascii) :=
  trimLeftN (length s) runes s.

Definition trimRight (runes : list (list ascii)) (s : list ascii) :=
  rev (trimLeft (map (@rev ascii) runes) (rev s)).

(** [strings.TrimSpace]: leading and trailing white space removed. *)
Definition TrimSpace (s : string) : string :=
  string_of_list_ascii
    (trimRight spaceRunes (trimLeft spaceRunes (list_ascii_of_string s))).

Definition isUpper (c : ascii) : bool :=
  (65 <=? nat_of_ascii c) && (nat_of_ascii c <=? 90).
Definition isLower (c : ascii) : bool :=
  (97 <=? nat_of_ascii c) && (nat_of_ascii c <=? 122).
Definition isDigit (c : ascii) : bool :=
  (48 <=? nat_of_ascii c) && (nat_of_ascii c <=? 57).

(** [textproto.validHeaderFieldByte]: the token characters of RFC 7230. *)
Definition validHeaderFieldByte (c : ascii) : bool :=
  isUpper c || isLower c || isDigit c
  || existsb (Ascii.eqb c)
       (list_ascii_of_string "!#$%&'*+-.^_`|~").

Definition toUpper (c : ascii) : ascii :=
  if isLower c then ascii_of_nat (nat_of_ascii c - 32) else c.
Definition toLower (c : ascii) : ascii :=
  if isUpper c then ascii_of_nat (nat_of_ascii c + 32) else c.

Fixpoint canonLoop (upper : bool) (s : string) : string :=
  match s with
  | EmptyString => EmptyString
  | String c s' =>
      let c' := if upper then toUpper c else toLower c in
      String c' (canonLoop (Ascii.eqb c' "-") s')
  end.

(** [textproto.CanonicalMIMEHeaderKey], which [http.Header.Set], [Add],
    [Get] and [Del] apply to their key: a key with a byte that is not a
    token character is returned as it is; otherwise the first letter and
    every letter after a dash become upper case, the others lower case. *)
Definition CanonicalMIMEHeaderKey (s : string) : string :=
  if forallb validHeaderFieldByte (list_ascii_of_string s)
  then canonLoop true s else s.

End GoStrings.

(* ================================================================== *)
(** ** The Go heap of header maps

    An [http.Header] is a reference to a map from string to [[]string]; a
    [[]string] is nil or a pointer to a backing array with a length (the
    slices of this program all start at index 0; the capacity is the length
    of the backing array).  Two map references may be the same map and two
    slices may share a backing array: that sharing is what [cloneHeader]
    is there to break. *)
(* ================================================================== *)

(** [runtime.growslice]: the capacity [append] asks for when the backing
    array is full, from the old capacity and the length needed.  The Go
    runtime chooses it; the model allocates at least the length needed and
    no statement below depends on how much more. *)
Class GrowthPolicy := growslice : nat -> nat -> nat.

Module Heap.

Definition loc := nat.

Inductive slice :=
| nilSlice
| Slice (arr : loc) (len : nat).

Record heap := mkHeap {
  arrays : list (list string);
  maps : list (gmap string slice)
}.

Definition empty : heap := mkHeap [] [].

Definition arrayAt (h : heap) (a : loc) : list string :=
  default [] (arrays h !! a).

Definition mapOf (h : heap) (l : loc) : gmap string slice :=
  default ∅ (maps h !! l).

Definition sliceLen (s : slice) : nat :=
  match s with nilSlice => 0 | Slice _ n => n end.

Definition sliceCap (h : heap) (s : slice) : nat :=
  match s with nilSlice => 0 | Slice a _ => length (arrayAt h a) end.

(** The elements of a slice, in order. *)
Definition sliceElems (h : heap) (s : slice) : list string :=
  match s with nilSlice => [] | Slice a n => take n (arrayAt h a) end.

(** What a [[]string] denotes: [None] is the nil slice. *)
Definition sliceValue (h : heap) (s : slice) : option (list string) :=
  match s with nilSlice => None | Slice _ _ => Some (sliceElems h s) end.

(** What an [http.Header] reference denotes at a given moment. *)
Definition headerValue (h : heap) (l : loc)
  : gmap string (option (list string)) :=
  sliceValue h <$> mapOf h l.

Definition allocArray (h : heap) (a : list string) : heap * loc :=
  (mkHeap (arrays h ++ [a]) (maps h), length (arrays h)).

(** [make(http.Header)] *)
Definition allocMap (h : heap) : heap * loc :=
  (mkHeap (arrays h) (maps h ++ [∅]), length (maps h)).

Definition setArray (h : heap) (a : loc) (v : list string) : heap :=
  mkHeap (<[a := v]> (arrays h)) (maps h).

Definition setMap (h : heap) (l : loc) (m : gmap string slice) : heap :=
  mkHeap (arrays h) (<[l := m]> (maps h)).

(** [m[k]]: the nil slice when the key is absent. *)
Definition mapIndex (h : heap) (l : loc) (k : string) : slice :=
  default nilSlice (mapOf h l !! k).

(** [m[k] = s] *)
Definition mapStore (h : heap) (l : loc) (k : string) (s : slice) : heap :=
  setMap h l (<[k := s]> (mapOf h l)).

(** [delete(m, k)] *)
Definition mapDelete (h : heap) (l : loc) (k : string) : heap :=
  setMap h l (delete k (mapOf h l)).

(** [make([]string, n)]: a fresh array of [n] empty strings. *)
Definition makeSlice (h : heap) (n : nat) : heap * slice :=
  let '(h', a) := allocArray h (replicate n EmptyString) in (h', Slice a n).

(** [[]string{v1, ..., vn}] *)
Definition sliceLit (h : heap) (vs : list string) : heap * slice :=
  let '(h', a) := allocArray h vs in (h', Slice a (length vs)).

(** [copy(dst, src)]: the first [min (len dst) (len src)] elements of
    [src] overwrite those of [dst], in [dst]'s backing array. *)
Definition copySlice (h : heap) (dst src : slice) : heap :=
  match dst with
  | nilSlice => h
  | Slice a n =>
      let k := min n (sliceLen src) in
      let old := arrayAt h a in
      setArray h a (take k (sliceElems h src) ++ drop k old)
  end.

(** [s[i] = v]; [None] is the run-time panic for an index out of range. *)
Definition sliceStore (h : heap) (s : slice) (i : nat) (v : string)
  : option heap :=
  match s with
  | nilSlice => None
  | Slice a n =>
      if decide (i < n)
      then Some (setArray h a (<[i := v]> (arrayAt h a)))
      else None
  end.

Section append.
Context `{GrowthPolicy}.

(** [append(s, v)]: in place when the backing array has room, else into
    a fresh, larger array. *)
Definition append (h : heap) (s : slice) (v : string) : heap * slice :=
  let n := sliceLen s in
  if decide (n < sliceCap h s)
  then match s with
       | Slice a _ =>
           (setArray h a (<[n := v]> (arrayAt h a)), Slice a (S n))
       | nilSlice => (h, nilSlice)
       end
  else
    let cap := max (S n) (growslice (sliceCap h s) (S n)) in
    let '(h', a) :=
      allocArray h (sliceElems h s ++ [v]
                    ++ replicate (cap - S n) EmptyString) in
    (h', Slice a (S n)).

(** [http.Header.Set]: [h[CanonicalMIMEHeaderKey(key)] = []string{value}] *)
Definition Set_ (h : heap) (l : loc) (key value : string) : heap :=
  let '(h', s) := sliceLit h [value] in
  mapStore h' l (GoStrings.CanonicalMIMEHeaderKey key) s.

(** [http.Header.Add]: [h[key] = append(h[key], value)] on the
    canonical key. *)
Definition Add (h : heap) (l : loc) (key value : string) : heap :=
  let key := GoStrings.CanonicalMIMEHeaderKey key in
  let '(h', s) := append h (mapIndex h l key) value in
  mapStore h' l key s.

(** [http.Header.Del] *)
Definition Del (h : heap) (l : loc) (key : string) : heap :=
  mapDelete h l (GoStrings.CanonicalMIMEHeaderKey key).
End append.

(** One iteration of the loop of [cloneHeader], writing into [h2]. *)
Definition cloneEntry (h2 : loc) (h : heap) (kv : string * slice) : heap :=
  let '(k, vv) := kv in
  let '(h', vv2) := makeSlice h (sliceLen vv) in
  let h'' := copySlice h' vv2 vv in
  mapStore h'' h2 k vv2.

(** [cloneHeader] of streamed_recorder.go: a fresh map whose every value
    is a fresh slice holding a copy of the elements.  Go ranges over the
    map in an unspecified order; the order only decides which fresh array
    receives which key. *)
Definition cloneHeader (h : heap) (hdr : loc) : heap * loc :=
  let '(h0, h2) := allocMap h in
  (foldl (cloneEntry h2) h0 (map_to_list (mapOf h hdr)), h2).


(** *** The vocabulary of the statements about the heap *)

(** The backing arrays a map refers to. *)
Definition refs (m : gmap string slice) (a : loc) : Prop :=
  exists k n, m !! k = Some (Slice a n).

(** The map at [l2] and the map at [hdr] are two maps and share no
    backing array. *)
Definition separated (h : heap) (hdr l2 : loc) : Prop :=
  hdr <> l2 /\
  forall a, refs (mapOf h l2) a ->
            a < length (arrays h) /\ ~ refs (mapOf h hdr) a.

(** [h'] is [h] as far as the map at [l2] can tell. *)
Definition same_at (l2 : loc) (h h' : heap) : Prop :=
  mapOf h' l2 = mapOf h l2 /\
  forall a, refs (mapOf h l2) a -> arrayAt h' a = arrayAt h a.

(** The map at [hdr] exists and its slices point to arrays that exist. *)
Definition wfHeader (h : heap) (hdr : loc) : Prop :=
  hdr < length (maps h) /\
  forall a, refs (mapOf h hdr) a -> a < length (arrays h).

(** The heap in the middle of the loop of [cloneHeader]: [h] with the new
    map [m2] behind its maps and new arrays behind its arrays; every value
    of [m2] is a slice of its own new array, with the elements the entry
    of [seen] it was copied from has in [h]. *)
Definition cloning (h : heap) (seen : list (string * slice)) (hc : heap)
  : Prop :=
  exists m2 news,
    maps hc = maps h ++ [m2]
    /\ arrays hc = arrays h ++ news
    /\ (forall k s2, m2 !! k = Some s2 ->
          exists vv a, (k, vv) ∈ seen /\ s2 = Slice a (sliceLen vv)
                       /\ length (arrays h) <= a < length (arrays hc)
                       /\ take (sliceLen vv) (arrayAt hc a) = sliceElems h vv)
    /\ (forall k vv, (k, vv) ∈ seen -> is_Some (m2 !! k)).

Definition allocated (h : heap) (s : slice) : Prop :=
  match s with nilSlice => True | Slice a _ => a < length (arrays h) end.

End Heap.

(* ================================================================== *)
(** ** storage.go: the storage backends *)
(* ================================================================== *)

Abbreviation bytes := (list Byte.byte).

(** A Go [error] value; [None] of [option error] is [nil]. *)
Definition error := string.

(** [bytes.Reader] of the Go library, with its [Read]: at the end of the
    data [(0, io.EOF)], else as many bytes as fit into the caller's buffer
    and no error.  The caller's buffer is given by its length; the result
    carries the bytes copied into it. *)
Module BytesReader.

Record t := mk { s : bytes; i : nat }.

Definition NewReader (b : bytes) : t := {| s := b; i := 0 |}.

Inductive result :=
| Ok (n : nat) (got : bytes)
| EOF.

Definition Read (r : t) (buflen : nat) : t * result :=
  if decide (length (s r) <= i r) then (r, EOF)
  else
    let got := take buflen (drop (i r) (s r)) in
    ({| s := s r; i := i r + length got |}, Ok (length got) got).

(** Read with a buffer of [buflen] bytes until [io.EOF]: the bytes read,
    and whether [io.EOF] was reached within [fuel] calls. *)
Fixpoint readLoop (fuel : nat) (r : t) (buflen : nat) : bytes * bool :=
  match fuel with
  | O => ([], false)
  | S fuel' =>
      match Read r buflen with
      | (_, EOF) => ([], true)
      | (r', Ok _ got) =>
          let '(rest, eof) := readLoop fuel' r' buflen in (got ++ rest, eof)
      end
  end.

End BytesReader.

Module Storage.

(** A subscriber of a [MemoryData]: its offset and its [moreContent]
    channel.  [Write] and [Close] do not touch the channel themselves: each
    starts one goroutine per subscriber that will send one signal, or close
    the channel; the record counts the goroutines started. *)
Record ContentReader := mkContentReader {
  offset : nat;
  signalling : nat;
  closing : nat
}.

(** The [DataContainer] is shared by the buffer and its subscribers, so its
    bytes live in the [MemoryData] and a subscriber is named by its
    position in [subscribers]. *)
Record MemoryData := mkMemoryData {
  data : bytes;
  subscribers : list ContentReader;
  isClosed : bool
}.

(** The [io.Reader] that [GetReader] hands out. *)
Inductive Reader :=
| SnapshotReader (r : BytesReader.t)
| Subscriber (idx : nat).

(** [MemoryStorage.NewContent] *)
Definition NewMemoryData : MemoryData :=
  {| data := []; subscribers := []; isClosed := false |}.

Definition signal (r : ContentReader) : ContentReader :=
  {| offset := offset r; signalling := S (signalling r);
     closing := closing r |}.

Definition closeSignal (r : ContentReader) : ContentReader :=
  {| offset := offset r; signalling := signalling r;
     closing := S (closing r) |}.

(** [MemoryData.Write] *)
Definition Write (buff : MemoryData) (p : bytes)
  : MemoryData * (nat * option error) :=
  ({| data := data buff ++ p;
      subscribers := map signal (subscribers buff);
      isClosed := isClosed buff |},
   (length p, None)).

(** [MemoryData.GetReader] *)
Definition GetReader (buff : MemoryData) : MemoryData * Reader :=
  if isClosed buff
  then (buff, SnapshotReader (BytesReader.NewReader (data buff)))
  else
    let reader := {| offset := 0; signalling := 0; closing := 0 |} in
    ({| data := data buff;
        subscribers := subscribers buff ++ [reader];
        isClosed := isClosed buff |},
     Subscriber (length (subscribers buff))).

(** [MemoryData.Close] *)
Definition Close (buff : MemoryData) : MemoryData * option error :=
  ({| data := data buff;
      subscribers := map closeSignal (subscribers buff);
      isClosed := true |},
   None).

(** [MemoryData.Clear] *)
Definition Clear (buff : MemoryData) : MemoryData * option error :=
  (buff, None).

(** A history of calls on one buffer. *)
Inductive call :=
| CallWrite (p : bytes)
| CallGetReader
| CallClose
| CallClear.

Definition isCallWrite (c : call) : bool :=
  match c with CallWrite _ => true | _ => false end.

Definition doCall (buff : MemoryData) (c : call) : MemoryData :=
  match c with
  | CallWrite p => fst (Write buff p)
  | CallGetReader => fst (GetReader buff)
  | CallClose => fst (Close buff)
  | CallClear => fst (Clear buff)
  end.

Definition doCalls (buff : MemoryData) (cs : list call) : MemoryData :=
  foldl doCall buff cs.

(** The bytes a history has written, in order. *)
Fixpoint writtenBy (cs : list call) : bytes :=
  match cs with
  | [] => []
  | CallWrite p :: cs' => p ++ writtenBy cs'
  | _ :: cs' => writtenBy cs'
  end.

(** The sentence of the specification on the readers handed out after
    [Close], in its words: whatever is called before the [Close] and
    after it, a later [GetReader] returns a snapshot reader, and reading
    it to the end yields the bytes written before the close and then the
    end of the stream. *)
Definition ReadsTheBytesWrittenBeforeClose : Prop :=
  forall (before after : list call) (buflen fuel : nat),
    0 < buflen ->
    length (writtenBy (before ++ after)) < fuel ->
    exists r,
      GetReader (doCalls NewMemoryData (before ++ CallClose :: after))
      = (doCalls NewMemoryData (before ++ CallClose :: after),
         SnapshotReader r)
      /\ BytesReader.readLoop fuel r buflen = (writtenBy before, true).

(** The file-backed content: the bytes written to the file so far and the
    mapping [Close] creates.  The failures of [Write], [Sync], [Stat] and
    [Mmap] belong to the operating system and are left out; the one of
    [os.OpenFile] is the [openFile] argument of [NewContent] below. *)
Record MMapContent := mkMMapContent {
  file : bytes;
  mapping : bytes
}.

Inductive Storage :=
| MemoryStorage
| MMapStorage (path : string).

(** A [StorageContent]: one of the two implementations of the interface. *)
Inductive StorageContent :=
| InMemory (m : MemoryData)
| OnDisk (m : MMapContent).

(** [Storage.NewContent]: the memory storage never fails; the file storage
    fails when [os.OpenFile] does ([openFile] is that call's error). *)
Definition NewContent (st : Storage) (openFile : option error)
           (key : string) : StorageContent + error :=
  match st with
  | MemoryStorage => inl (InMemory NewMemoryData)
  | MMapStorage _ =>
      match openFile with
      | Some err => inr err
      | None => inl (OnDisk {| file := []; mapping := [] |})
      end
  end.

Definition ContentWrite (c : StorageContent) (p : bytes) : StorageContent :=
  match c with
  | InMemory m => InMemory (fst (Write m p))
  | OnDisk m => OnDisk {| file := file m ++ p; mapping := mapping m |}
  end.

Definition ContentClose (c : StorageContent) : StorageContent :=
  match c with
  | InMemory m => InMemory (fst (Close m))
  | OnDisk m => OnDisk {| file := file m; mapping := file m |}
  end.

(** The bytes a content holds for its writer. *)
Definition contentData (c : StorageContent) : bytes :=
  match c with
  | InMemory m => data m
  | OnDisk m => file m
  end.

End Storage.

(* ================================================================== *)
(** ** net/http: headers, requests and the downstream writer *)
(* ================================================================== *)

Module Http.
Import Heap.

(** What a program holding an [http.Header] can do to it: the methods
    [Set], [Add] and [Del], and the map and slice operations of the
    language ([h[k] = []string{...}] or [h[k] = nil], [delete(h, k)],
    [h[k] = append(h[k], v)], [h[k][i] = v]). *)
Inductive mutation :=
| MSet (key value : string)
| MAdd (key value : string)
| MDel (key : string)
| MAssign (key : string) (values : option (list string))
| MDelete (key : string)
| MAppend (key : string) (value : string)
| MStore (key : string) (i : nat) (value : string).

Section mutate.
Context `{GrowthPolicy}.

(** [None] is a run-time panic (an index out of range). *)
Definition mutate (h : heap) (hdr : loc) (m : mutation) : option heap :=
  match m with
  | MSet k v => Some (Set_ h hdr k v)
  | MAdd k v => Some (Add h hdr k v)
  | MDel k => Some (Del h hdr k)
  | MAssign k None => Some (mapStore h hdr k nilSlice)
  | MAssign k (Some vs) =>
      let '(h', s) := sliceLit h vs in Some (mapStore h' hdr k s)
  | MDelete k => Some (mapDelete h hdr k)
  | MAppend k v =>
      let '(h', s) := append h (mapIndex h hdr k) v in
      Some (mapStore h' hdr k s)
  | MStore k i v => sliceStore h (mapIndex h hdr k) i v
  end.

(** A sequence of mutations, up to the first panic. *)
Fixpoint mutateAll (h : heap) (hdr : loc) (ms : list mutation) : heap :=
  match ms with
  | [] => h
  | m :: ms' =>
      match mutate h hdr m with
      | Some h' => mutateAll h' hdr ms'
      | None => h
      end
  end.
End mutate.

(** [reflect.DeepEqual] on two [[]string]: both nil, or both non-nil with
    the same elements; a nil and an empty non-nil slice differ. *)
Definition DeepEqual (h : heap) (a b : slice) : bool :=
  match a, b with
  | nilSlice, nilSlice => true
  | Slice _ _, Slice _ _ => bool_decide (sliceElems h a = sliceElems h b)
  | _, _ => false
  end.

(** The fields of [http.Request] the handler reads; [URLQuery] is
    [r.URL.Query().Encode()]. *)
Record Request := mkRequest {
  Method : string;
  Host : string;
  URLPath : string;
  URLQuery : string;
  Header : loc
}.

(** The downstream [http.ResponseWriter] (the [w] of [ServeHTTP]), with the
    behaviour net/http documents and [httptest.ResponseRecorder] has: the
    first [WriteHeader] fixes the status and the headers sent, later ones
    are ignored; a [Write] before any [WriteHeader] sends status 200. *)
Record ResponseWriter := mkWriter {
  wHeader : loc;
  wCode : option Z;
  wSent : gmap string (option (list string));
  wBody : bytes;
  wIsFlusher : bool;
  wFlushes : nat
}.

Definition NewWriter (hdr : loc) (flusher : bool) : ResponseWriter :=
  {| wHeader := hdr; wCode := None; wSent := ∅; wBody := [];
     wIsFlusher := flusher; wFlushes := 0 |}.

Definition Writer_WriteHeader (h : heap) (w : ResponseWriter) (code : Z)
  : ResponseWriter :=
  match wCode w with
  | Some _ => w
  | None =>
      {| wHeader := wHeader w; wCode := Some code;
         wSent := headerValue h (wHeader w);
         wBody := wBody w; wIsFlusher := wIsFlusher w;
         wFlushes := wFlushes w |}
  end.

Definition Writer_Write (h : heap) (w : ResponseWriter) (buf : bytes)
  : ResponseWriter :=
  let w' := Writer_WriteHeader h w 200 in
  {| wHeader := wHeader w'; wCode := wCode w'; wSent := wSent w';
     wBody := wBody w' ++ buf; wIsFlusher := wIsFlusher w';
     wFlushes := wFlushes w' |}.

Definition Writer_Flush (w : ResponseWriter) : ResponseWriter :=
  {| wHeader := wHeader w; wCode := wCode w; wSent := wSent w;
     wBody := wBody w; wIsFlusher := wIsFlusher w;
     wFlushes := S (wFlushes w) |}.

End Http.

(* ================================================================== *)
(** ** The cache entries and the index *)
(* ================================================================== *)

Module Request.
(** Modelled from the spec: the type [Request] of cache.go, which src/ does
    not hold; handler.go builds it as [&Request{HeaderMap: r.Header}]. *)
Record t := mk { HeaderMap : Heap.loc }.
End Request.

Module Response.
(** Modelled from the spec: the type [Response] of cache.go, which src/ does
    not hold; handler.go reads and writes its fields [HeaderMap], [Body]
    and [Code].  [Body] is a reference into the store of contents, [None]
    for a nil body. *)
Record t := mk { HeaderMap : Heap.loc; Body : option nat; Code : Z }.
End Response.

(** Modelled from the spec: the type [HttpCacheEntry] of cache.go, which
    src/ does not hold; the fields are those handler.go uses and section 3
    of the specification lists.  Times are seconds. *)
Record HttpCacheEntry := mkEntry {
  isPublic : bool;
  Expiration : Z;
  Request : Request.t;
  Response : Response.t
}.

(** Modelled from the spec: the cache rules of section 4.1, with the field
    names the tests of handler.go give them ([PathCacheRule{Path}],
    [HeaderCacheRule{Header, Value}]); their file is not in src/. *)
Inductive CacheRule :=
| PathCacheRule (Path : string)
| HeaderCacheRule (Header : string) (Value : list string).

(** Modelled from the spec: [Config] (not in src/), with the three fields
    handler.go and its tests use; [DefaultMaxAge] is in seconds. *)
Record Config := mkConfig {
  StatusHeader : string;
  DefaultMaxAge : Z;
  CacheRules : list CacheRule
}.

(** [getCacheableStatus] and [shouldUseCache] are called by handler.go and
    defined in a file src/ does not hold: they are parameters.  Both may
    read the headers of the request through the heap; [getCacheableStatus]
    also gets the clock, the status code, the cloned response headers and
    the configuration, and returns [(isCacheable, expirationTime, err)]. *)
Class Freshness := {
  getCacheableStatus :
    Heap.heap -> Z -> Http.Request -> Z -> Heap.loc -> Config ->
    bool * Z * option error;
  shouldUseCache : Heap.heap -> Http.Request -> bool
}.

(** Modelled from the spec: the freshness evaluator of section 4.1, for
    the runs below that need one.  A request is eligible when its method
    is GET or HEAD.  A response is cacheable when the directives of its
    [Cache-Control] header (split at commas and semicolons, trimmed, read
    without regard to case) hold none of [private], [no-store] and
    [no-cache], its [Vary] header is not [*], and an expiration is found:
    [max-age=N] gives now + N; else an [Expires] date in the future gives
    that date; else a rule that matches gives now + the default max-age.
    The parser of HTTP dates is an argument; a date it rejects counts as
    absent.  No error is ever returned. *)
Module SpecFreshness.

(** [http.Header.Get]: the first value of the canonical key, or [""]. *)
Definition Get (h : Heap.heap) (hdr : Heap.loc) (key : string) : string :=
  hd EmptyString
     (Heap.sliceElems h
        (Heap.mapIndex h hdr (GoStrings.CanonicalMIMEHeaderKey key))).

Fixpoint splitAny (seps : list ascii) (s : string) : list string :=
  match s with
  | EmptyString => [EmptyString]
  | String c s' =>
      let rest := splitAny seps s' in
      if existsb (Ascii.eqb c) seps then EmptyString :: rest
      else match rest with
           | piece :: pieces => String c piece :: pieces
           | [] => [String c EmptyString]
           end
  end.

Fixpoint lower (s : string) : string :=
  match s with
  | EmptyString => EmptyString
  | String c s' => String (GoStrings.toLower c) (lower s')
  end.

Definition directives (cacheControl : string) : list string :=
  map (fun d => lower (GoStrings.TrimSpace d))
      (splitAny ["," ; ";"]%char cacheControl).

Fixpoint digits (acc : Z) (s : string) : option Z :=
  match s with
  | EmptyString => Some acc
  | String c s' =>
      if GoStrings.isDigit c
      then digits (10 * acc + Z.of_nat (nat_of_ascii c - 48)) s'
      else None
  end.

Definition maxAge (directive : string) : option Z :=
  if String.prefix "max-age=" directive
  then match String.substring 8 (String.length directive - 8) directive with
       | EmptyString => None
       | n => digits 0 n
       end
  else None.

Definition forbids (directive : string) : bool :=
  bool_decide (directive = "private")
  || bool_decide (directive = "no-store")
  || bool_decide (directive = "no-cache").

Definition ruleMatches (h : Heap.heap) (r : Http.Request) (headers : Heap.loc)
           (rule : CacheRule) : bool :=
  match rule with
  | PathCacheRule path => String.prefix path (Http.URLPath r)
  | HeaderCacheRule header values =>
      existsb (fun v => bool_decide (v ∈ values))
              (Heap.sliceElems h
                 (Heap.mapIndex h headers
                    (GoStrings.CanonicalMIMEHeaderKey header)))
  end.

Definition expiration (parseDate : string -> option Z) (h : Heap.heap)
           (now : Z) (r : Http.Request) (headers : Heap.loc) (cfg : Config)
  : option Z :=
  match omap maxAge (directives (Get h headers "Cache-Control")) with
  | n :: _ => Some (now + n)%Z
  | [] =>
      match parseDate (Get h headers "Expires") with
      | Some date => if decide (now < date)%Z then Some date else None
      | None =>
          if existsb (ruleMatches h r headers) (CacheRules cfg)
          then Some (now + DefaultMaxAge cfg)%Z
          else None
      end
  end.

Definition getCacheableStatus_ (parseDate : string -> option Z)
           (h : Heap.heap) (now : Z) (r : Http.Request) (statusCode : Z)
           (headers : Heap.loc) (cfg : Config) : bool * Z * option error :=
  if existsb forbids (directives (Get h headers "Cache-Control"))
     || bool_decide (Get h headers "Vary" = "*")
  then (false, now, None)
  else match expiration parseDate h now r headers cfg with
       | Some t => (true, t, None)
       | None => (false, now, None)
       end.

Definition shouldUseCache_ (h : Heap.heap) (r : Http.Request) : bool :=
  bool_decide (Http.Method r = "GET") || bool_decide (Http.Method r = "HEAD").

Definition instance (parseDate : string -> option Z) : Freshness :=
  {| getCacheableStatus := getCacheableStatus_ parseDate;
     shouldUseCache := shouldUseCache_ |}.

End SpecFreshness.

(** A growth of slices: [append] doubles a full array. *)
Definition doubling : GrowthPolicy := fun cap _ => 2 * cap.

(* ================================================================== *)
(** ** streamed_recorder.go: the streamed recorder

    The recorder is the [http.ResponseWriter] the upstream handler writes
    to.  Its methods run in the goroutine of [handle]; what they do to the
    world outside the recorder (the downstream writer and the channels) is
    a sequence of effects, in program order, each of which the goroutine
    performs when the world lets it: a send on an unbuffered channel waits
    for its receiver. *)
(* ================================================================== *)

Module Recorder.

Inductive effect :=
| EHeader (m : Http.mutation)   (** the caller changes [rw.Header()], which is [rw.w.Header()] *)
| ECloneHeader (code : Z)       (** [&HttpHeader{code, cloneHeader(rw.w.Header())}] *)
| ESendHeader                   (** [rw.headerChannel <- ] that event *)
| EDownWriteHeader (code : Z)   (** [rw.w.WriteHeader(code)] *)
| ESendBody (buf : bytes)       (** [rw.bodyChannel <- buf] *)
| EDownWrite (buf : bytes)      (** [rw.w.Write(buf)] *)
| EDownFlush                    (** [rw.w.(http.Flusher).Flush()], when [rw.w] is one *)
| ECloseBody.                   (** [close(rw.bodyChannel)] *)

(** A method of the recorder: from the field [wroteHeader] to a result,
    the new [wroteHeader] and the effects. *)
Definition M (A : Type) : Type := bool -> A * bool * list effect.

#[export] Instance M_ret : MRet M := fun A a wrote => (a, wrote, []).

#[export] Instance M_bind : MBind M := fun A B f m wrote =>
  let '(a, wrote1, es1) := m wrote in
  let '(b, wrote2, es2) := f a wrote1 in
  (b, wrote2, es1 ++ es2).

Definition getWroteHeader : M bool := fun wrote => (wrote, wrote, []).
Definition setWroteHeader (b : bool) : M unit := fun _ => (tt, b, []).
Definition perform (e : effect) : M unit := fun wrote => (tt, wrote, [e]).

(** [StreamedRecorder.WriteHeader] *)
Definition WriteHeader (code : Z) : M unit :=
  wrote ← getWroteHeader;
  if (wrote : bool) then mret tt
  else
    setWroteHeader true;;
    perform (ECloneHeader code);;
    perform ESendHeader;;
    perform (EDownWriteHeader code).

(** [StreamedRecorder.Write]; its result is that of [rw.w.Write(buf)]. *)
Definition Write (buf : bytes) : M unit :=
  wrote ← getWroteHeader;
  (if negb wrote then WriteHeader 200 else mret tt);;
  perform (ESendBody buf);;
  perform (EDownWrite buf).

(** [StreamedRecorder.Flush] *)
Definition Flush : M unit := perform EDownFlush.

(** The upstream handler ([handler.Next]) is a black box that is given a
    response writer: one run of it is the sequence of calls it makes on
    that writer. *)
Inductive call :=
| CallHeader (m : Http.mutation)
| CallWriteHeader (code : Z)
| CallWrite (buf : bytes)
| CallFlush.

Definition doCall (c : call) : M unit :=
  match c with
  | CallHeader m => perform (EHeader m)
  | CallWriteHeader code => WriteHeader code
  | CallWrite buf => Write buf
  | CallFlush => Flush
  end.

(** [rw.handler.ServeHTTP(rw, rw.r)] *)
Fixpoint serve (next : list call) : M unit :=
  match next with
  | [] => mret tt
  | c :: next' => doCall c;; serve next'
  end.

(** [StreamedRecorder.handle] *)
Definition handle (next : list call) : M unit :=
  serve next;;
  perform ECloseBody.

(** The effects of a method started with [wroteHeader = wrote]. *)
Definition effects {A} (m : M A) (wrote : bool) : list effect := snd (m wrote).
Definition wroteAfter {A} (m : M A) (wrote : bool) : bool := snd (fst (m wrote)).

(** [PipeHandlerToChannels] creates the recorder with [wroteHeader: false];
    [go pipe.handle()] then has these effects to perform. *)
Definition program (next : list call) : list effect :=
  effects (handle next) false.

(** The event of the header channel. *)
Record HttpHeader := mkHttpHeader {
  StatusCode : Z;
  Header : Heap.loc
}.

(** The calls that deliver the headers when none was made before, and the
    status each delivers. *)
Definition isTrigger (c : call) : bool :=
  match c with
  | CallWriteHeader _ | CallWrite _ => true
  | CallHeader _ | CallFlush => false
  end.

Definition codeOf (c : call) : Z :=
  match c with
  | CallWriteHeader code => code
  | _ => 200
  end.

Definition triggered (next : list call) : bool := existsb isTrigger next.

(** What a call does once the headers are out of the way. *)
Definition afterHeaders (c : call) : list effect :=
  match c with
  | CallHeader m => [EHeader m]
  | CallWriteHeader _ => []
  | CallWrite buf => [ESendBody buf; EDownWrite buf]
  | CallFlush => [EDownFlush]
  end.

Definition isSendHeader (e : effect) : bool :=
  match e with ESendHeader => true | _ => false end.
Definition isCloneHeader (e : effect) : bool :=
  match e with ECloneHeader _ => true | _ => false end.
Definition isDownWriteHeader (e : effect) : bool :=
  match e with EDownWriteHeader _ => true | _ => false end.

Definition count (f : effect -> bool) (es : list effect) : nat :=
  length (List.filter f es).

(** Every write to the downstream client comes right after the send of the
    same bytes on the body channel. *)
Fixpoint paired (es : list effect) : Prop :=
  match es with
  | [] => True
  | ESendBody buf :: es' =>
      match es' with
      | EDownWrite buf' :: es'' => buf = buf' /\ paired es''
      | _ => False
      end
  | EDownWrite _ :: _ => False
  | _ :: es' => paired es'
  end.

End Recorder.

(* ================================================================== *)
(** ** handler.go *)
(* ================================================================== *)

Module Handler.
Import Heap.

(** [getKey] *)
Definition getKey (r : Http.Request) : string :=
  let key := Http.Method r +:+ " " +:+ Http.Host r +:+ Http.URLPath r in
  let q := Http.URLQuery r in
  if decide (0 < String.length q) then key +:+ "?" +:+ q else key.

(** The loop of [matchesRequest] over the pieces of [vary[0]]. *)
Fixpoint varyLoop (h : heap) (stored current : loc) (pieces : list string)
  : bool :=
  match pieces with
  | [] => true
  | searchedHeader :: pieces' =>
      let searchedHeader := GoStrings.TrimSpace searchedHeader in
      if negb (Http.DeepEqual h (mapIndex h stored searchedHeader)
                           (mapIndex h current searchedHeader))
      then false
      else varyLoop h stored current pieces'
  end.

(** [matchesRequest(r)(entry)]; [None] is the panic of [vary[0]] on a
    [Vary] key whose value has no element. *)
Definition matchesRequest (h : heap) (r : Http.Request) (entry : HttpCacheEntry)
  : option bool :=
  match mapOf h (Response.HeaderMap (Response entry)) !! "Vary" with
  | None => Some true
  | Some vary =>
      match sliceElems h vary with
      | [] => None
      | vary0 :: _ =>
          Some (varyLoop h (Request.HeaderMap (Request entry)) (Http.Header r)
                         (GoStrings.Split vary0 ","))
      end
  end.

Section handler.
Context `{GrowthPolicy}.

(** [CacheHandler.AddStatusHeaderIfConfigured] *)
Definition AddStatusHeaderIfConfigured (cfg : Config) (h : heap)
           (w : Http.ResponseWriter) (status : string) : heap :=
  if decide (StatusHeader cfg ≠ "")
  then Set_ h (Http.wHeader w) (StatusHeader cfg) status
  else h.

(** [CacheHandler.RemoveStatusHeaderIfConfigured]: it deletes from the map
    it is given and returns that same map.  handler.go defines it and
    never calls it. *)
Definition RemoveStatusHeaderIfConfigured (cfg : Config) (h : heap)
           (headers : loc) : heap * loc :=
  if decide (StatusHeader cfg ≠ "")
  then (mapDelete h headers (StatusHeader cfg), headers)
  else (h, headers).

(** The inner loop of [HandleCachedResponse]: [w.Header().Add(k, v)] for
    every [v] of [values]. *)
Definition addValues (w : Http.ResponseWriter) (h : heap) (kv : string * slice)
  : heap :=
  let '(k, values) := kv in
  foldl (fun h' v => Add h' (Http.wHeader w) k v) h (sliceElems h values).

(** [io.Copy(w, body.GetReader())]: the bytes the reader has at the call,
    and whether the copy is over with them.  A subscriber of a buffer that
    is still filling goes on as the buffer grows. *)
Definition copyBody (c : Storage.StorageContent)
  : Storage.StorageContent * bytes * bool :=
  match c with
  | Storage.InMemory m =>
      match Storage.GetReader m with
      | (m', Storage.SnapshotReader r) =>
          (Storage.InMemory m',
           drop (BytesReader.i r) (BytesReader.s r), true)
      | (m', Storage.Subscriber _) =>
          (Storage.InMemory m', Storage.data m', false)
      end
  | Storage.OnDisk m => (c, Storage.mapping m, true)
  end.

Record replay := mkReplay {
  rHeap : heap;
  rWriter : Http.ResponseWriter;
  rContents : list Storage.StorageContent;
  rCopied : bool;
  rCode : Z
}.

(** [CacheHandler.HandleCachedResponse] *)
Definition HandleCachedResponse (cfg : Config) (h : heap)
           (contents : list Storage.StorageContent)
           (w : Http.ResponseWriter) (previous : HttpCacheEntry) : replay :=
  let h1 := AddStatusHeaderIfConfigured cfg h w "hit" in
  let stored := Response.HeaderMap (Response previous) in
  let h2 := foldl (addValues w) h1 (map_to_list (mapOf h1 stored)) in
  let w1 := Http.Writer_WriteHeader h2 w (Response.Code (Response previous)) in
  match Response.Body (Response previous) with
  | None => mkReplay h2 w1 contents true (Response.Code (Response previous))
  | Some ref =>
      match contents !! ref with
      | None =>
          mkReplay h2 w1 contents true (Response.Code (Response previous))
      | Some c =>
          let '(c', body, over) := copyBody c in
          let w2 := match body with
                    | [] => w1
                    | _ => Http.Writer_Write h2 w1 body
                    end in
          mkReplay h2 w2 (<[ref := c']> contents) over
                   (Response.Code (Response previous))
      end
  end.

End handler.

(** The test of the closure [ServeHTTP] passes to [GetOrSet]:
    [previous == nil || !previous.isPublic] sends the request upstream. *)
Definition fetchesUpstream (previous : option HttpCacheEntry) : bool :=
  match previous with
  | None => true
  | Some p => negb (isPublic p)
  end.

(** The entry [HandleNonCachedResponse] starts from: private, one hour. *)
Definition defaultEntry (now : Z) (r : Http.Request) (headers : Recorder.HttpHeader)
  : HttpCacheEntry :=
  {| isPublic := false;
     Expiration := now + 3600;
     Request := Request.mk (Http.Header r);
     Response := Response.mk (Recorder.Header headers) None
                             (Recorder.StatusCode headers) |}.

(** The entry of a cacheable response. *)
Definition publicEntry (r : Http.Request) (headers : Recorder.HttpHeader)
           (expirationTime : Z) (bodyWriter : nat) : HttpCacheEntry :=
  {| isPublic := true;
     Expiration := expirationTime;
     Request := Request.mk (Http.Header r);
     Response := Response.mk (Recorder.Header headers) (Some bodyWriter)
                             (Recorder.StatusCode headers) |}.

(** *** The vocabulary of the statements about [matchesRequest] *)

(** The value list a header map has for a name: [None] when the name is
    absent or its value is the nil slice. *)
Definition valuesOf (h : heap) (hdr : loc) (name : string)
  : option (list string) :=
  sliceValue h (mapIndex h hdr name).

(** The header names a [Vary] value lists. *)
Definition varyNames (vary0 : string) : list string :=
  map GoStrings.TrimSpace (GoStrings.Split vary0 ",").





End Handler.

(* ================================================================== *)
(** ** The cache index *)
(* ================================================================== *)

Module Cache.

Inductive found :=
| Panics
| NotFound
| Found (entry : HttpCacheEntry).

(** Modelled from the spec: the scan of [Cache.GetOrSet] (cache.go, not in
    src/), step 2 of section 4.2: the entries whose expiration is at or
    before now are dropped, and the first entry that satisfies the
    predicate and is public is selected. *)
Definition fresh (now : Z) (entries : list HttpCacheEntry)
  : list HttpCacheEntry :=
  filter (fun e => (now < Expiration e)%Z) entries.

Fixpoint select (matches : HttpCacheEntry -> option bool)
         (entries : list HttpCacheEntry) : found :=
  match entries with
  | [] => NotFound
  | e :: entries' =>
      match matches e with
      | None => Panics
      | Some true => if isPublic e then Found e else select matches entries'
      | Some false => select matches entries'
      end
  end.

(** Modelled from the spec: the end of [Cache.GetOrSet], steps 3 and 4 of
    section 4.2: an entry the function returns is chained under the key;
    an error, or no entry, stores nothing. *)
Definition store (key : string) (result : option HttpCacheEntry)
           (index : gmap string (list HttpCacheEntry))
  : gmap string (list HttpCacheEntry) :=
  match result with
  | None => index
  | Some e => <[key := default [] (index !! key) ++ [e]]> index
  end.

End Cache.

(* ================================================================== *)
(** ** One request sent upstream: the goroutines of [HandleNonCachedResponse]

    [ServeHTTP] has found no public entry for the request and runs, under
    the lock of the key, [HandleNonCachedResponse]: the goroutine of the
    handler, the goroutine [go pipe.handle()] in which the upstream handler
    writes to the recorder, and, for a cacheable response, the goroutine
    that copies the body channel into the storage content.  The channels
    are unbuffered: a send and its receive are one step. *)
(* ================================================================== *)

Module Fetch.
Import Heap.

(** [CacheHandler]; [Next] is one run of the upstream handler, and the
    cache is its storage and the outcome of [os.OpenFile] there. *)
Record CacheHandler := mkCacheHandler {
  Config_ : Config;
  Storage_ : Storage.Storage;
  openFile : option error;
  Next : list Recorder.call
}.

(** What [HandleNonCachedResponse] returns: [(entry, endChannel, nil)],
    [endChannel] nil or not, or [(nil, nil, err)]. *)
Inductive returned :=
| RetEntry (entry : HttpCacheEntry) (endChannel : bool)
| RetErr (err : error).

(** Where the goroutine of the handler stands. *)
Inductive handlerPc :=
| AtGo                                        (** l.111 [go pipe.handle()] *)
| AtHeaders                                   (** l.114 [<-pipe.HeaderChannel()] *)
| AtCacheable (headers : Recorder.HttpHeader) (** l.117 [getCacheableStatus] *)
| AtMiss (headers : Recorder.HttpHeader)      (** l.124 the response is not cacheable *)
| AtStore (ret : returned)                    (** l.170, back in the closure of [ServeHTTP] *)
| AtEnd (code : Z)                            (** l.185 [<-endChannel] *)
| Done (code : Z) (err : option error).       (** l.188 *)

(** Where the goroutine of l.148 stands. *)
Inductive copierPc :=
| NotStarted
| AtRange (bodyWriter : nat)                   (** l.149 [range pipe.BodyChannel()] *)
| AtWrite (bodyWriter : nat) (content : bytes) (** l.150 [bodyWriter.Write(content)] *)
| AtClose (bodyWriter : nat)                   (** l.152 [bodyWriter.Close()] *)
| AtEndSend (bodyWriter : nat)                 (** l.153 [endChannel <- struct{}{}] *)
| Finished (bodyWriter : nat).

Inductive goroutine := Upstream | TheHandler | Copier.

Record state := mkState {
  heap_ : heap;
  w : Http.ResponseWriter;
  upstream : option (list Recorder.effect);
  event : option Recorder.HttpHeader;
  handler : handlerPc;
  copier : copierPc;
  bodyClosed : bool;
  contents : list Storage.StorageContent;
  entries : gmap string (list HttpCacheEntry);
  panicked : bool;
  performed : list Recorder.effect
}.

Definition setHeap (h : heap) (s : state) : state :=
  mkState h (w s) (upstream s) (event s) (handler s) (copier s)
          (bodyClosed s) (contents s) (entries s) (panicked s) (performed s).
Definition setW (w' : Http.ResponseWriter) (s : state) : state :=
  mkState (heap_ s) w' (upstream s) (event s) (handler s) (copier s)
          (bodyClosed s) (contents s) (entries s) (panicked s) (performed s).
Definition setUpstream (u : option (list Recorder.effect)) (s : state) : state :=
  mkState (heap_ s) (w s) u (event s) (handler s) (copier s)
          (bodyClosed s) (contents s) (entries s) (panicked s) (performed s).
Definition setEvent (e : option Recorder.HttpHeader) (s : state) : state :=
  mkState (heap_ s) (w s) (upstream s) e (handler s) (copier s)
          (bodyClosed s) (contents s) (entries s) (panicked s) (performed s).
Definition setHandler (pc : handlerPc) (s : state) : state :=
  mkState (heap_ s) (w s) (upstream s) (event s) pc (copier s)
          (bodyClosed s) (contents s) (entries s) (panicked s) (performed s).
Definition setCopier (pc : copierPc) (s : state) : state :=
  mkState (heap_ s) (w s) (upstream s) (event s) (handler s) pc
          (bodyClosed s) (contents s) (entries s) (panicked s) (performed s).
Definition setBodyClosed (b : bool) (s : state) : state :=
  mkState (heap_ s) (w s) (upstream s) (event s) (handler s) (copier s)
          b (contents s) (entries s) (panicked s) (performed s).
Definition setContents (c : list Storage.StorageContent) (s : state) : state :=
  mkState (heap_ s) (w s) (upstream s) (event s) (handler s) (copier s)
          (bodyClosed s) c (entries s) (panicked s) (performed s).
Definition setEntries (e : gmap string (list HttpCacheEntry)) (s : state)
  : state :=
  mkState (heap_ s) (w s) (upstream s) (event s) (handler s) (copier s)
          (bodyClosed s) (contents s) e (panicked s) (performed s).
Definition setPanicked (s : state) : state :=
  mkState (heap_ s) (w s) (upstream s) (event s) (handler s) (copier s)
          (bodyClosed s) (contents s) (entries s) true (performed s).

(** The upstream goroutine has performed its next effect. *)
Definition advance (e : Recorder.effect) (rest : list Recorder.effect)
           (s : state) : state :=
  mkState (heap_ s) (w s) (Some rest) (event s) (handler s) (copier s)
          (bodyClosed s) (contents s) (entries s) (panicked s)
          (performed s ++ [e]).

Section system.
Context `{GrowthPolicy} `{Freshness}.
Variable ch : CacheHandler.
Variable now : Z.
Variable r : Http.Request.

(** A step of [go pipe.handle()]: the next effect of the recorder, when
    the world lets it happen. *)
Definition stepUpstream (s : state) : option state :=
  match upstream s with
  | None | Some [] => None
  | Some (e :: rest) =>
      match e with
      | Recorder.EHeader m =>
          match Http.mutate (heap_ s) (Http.wHeader (w s)) m with
          | Some h' => Some (advance e rest (setHeap h' s))
          | None => Some (setPanicked s)
          end
      | Recorder.ECloneHeader code =>
          let '(h', h2) := cloneHeader (heap_ s) (Http.wHeader (w s)) in
          Some (advance e rest
                  (setEvent (Some (Recorder.mkHttpHeader code h2))
                            (setHeap h' s)))
      | Recorder.ESendHeader =>
          match handler s, event s with
          | AtHeaders, Some headers =>
              Some (advance e rest
                      (setHandler (AtCacheable headers) (setEvent None s)))
          | _, _ => None
          end
      | Recorder.EDownWriteHeader code =>
          Some (advance e rest
                  (setW (Http.Writer_WriteHeader (heap_ s) (w s) code) s))
      | Recorder.ESendBody buf =>
          match copier s with
          | AtRange bodyWriter =>
              Some (advance e rest (setCopier (AtWrite bodyWriter buf) s))
          | _ => None
          end
      | Recorder.EDownWrite buf =>
          Some (advance e rest
                  (setW (Http.Writer_Write (heap_ s) (w s) buf) s))
      | Recorder.EDownFlush =>
          Some (advance e rest
                  (if Http.wIsFlusher (w s)
                   then setW (Http.Writer_Flush (w s)) s else s))
      | Recorder.ECloseBody =>
          Some (advance e rest (setBodyClosed true s))
      end
  end.

(** A step of the goroutine of the handler.  The last step before
    [AtEnd] or [Done] is the closure of [ServeHTTP] returning to
    [GetOrSet], which stores the entry it is given and stores nothing on
    an error. *)
Definition stepHandler (s : state) : option state :=
  match handler s with
  | AtGo =>
      Some (setHandler AtHeaders
              (setUpstream (Some (Recorder.program (Next ch))) s))
  | AtHeaders => None
  | AtCacheable headers =>
      match getCacheableStatus (heap_ s) now r (Recorder.StatusCode headers)
                               (Recorder.Header headers) (Config_ ch) with
      | (_, _, Some err) => Some (setHandler (AtStore (RetErr err)) s)
      | (false, _, None) => Some (setHandler (AtMiss headers) s)
      | (true, expirationTime, None) =>
          match Storage.NewContent (Storage_ ch) (openFile ch)
                                   (Handler.getKey r) with
          | inr err => Some (setHandler (AtStore (RetErr err)) s)
          | inl content =>
              let bodyWriter := length (contents s) in
              let entry :=
                Handler.publicEntry r headers expirationTime bodyWriter in
              Some (setHandler (AtStore (RetEntry entry true))
                      (setCopier (AtRange bodyWriter)
                         (setContents (contents s ++ [content]) s)))
          end
      end
  | AtMiss headers =>
      let h' := Handler.AddStatusHeaderIfConfigured
                  (Config_ ch) (heap_ s) (w s) "miss" in
      Some (setHandler
              (AtStore (RetEntry (Handler.defaultEntry now r headers) false))
              (setHeap h' s))
  | AtStore (RetErr err) => Some (setHandler (Done 500 (Some err)) s)
  | AtStore (RetEntry entry endChannel) =>
      let code := Response.Code (Response entry) in
      Some (setHandler (if endChannel then AtEnd code else Done code None)
              (setEntries
                 (Cache.store (Handler.getKey r) (Some entry) (entries s)) s))
  | AtEnd _ => None
  | Done _ _ => None
  end.

(** A step of the goroutine that fills the storage content. *)
Definition stepCopier (s : state) : option state :=
  match copier s with
  | NotStarted => None
  | AtRange bodyWriter =>
      if bodyClosed s then Some (setCopier (AtClose bodyWriter) s) else None
  | AtWrite bodyWriter content =>
      match contents s !! bodyWriter with
      | Some c =>
          Some (setCopier (AtRange bodyWriter)
                  (setContents
                     (<[bodyWriter := Storage.ContentWrite c content]>
                        (contents s)) s))
      | None => Some (setPanicked s)
      end
  | AtClose bodyWriter =>
      match contents s !! bodyWriter with
      | Some c =>
          Some (setCopier (AtEndSend bodyWriter)
                  (setContents
                     (<[bodyWriter := Storage.ContentClose c]> (contents s))
                     s))
      | None => Some (setPanicked s)
      end
  | AtEndSend bodyWriter =>
      match handler s with
      | AtEnd code =>
          Some (setCopier (Finished bodyWriter)
                  (setHandler (Done code None) s))
      | _ => None
      end
  | Finished _ => None
  end.

(** One step of a goroutine; [None] when it is blocked or has returned.
    A panic ends the process. *)
Definition step (g : goroutine) (s : state) : option state :=
  if panicked s then None
  else match g with
       | Upstream => stepUpstream s
       | TheHandler => stepHandler s
       | Copier => stepCopier s
       end.

(** A schedule names the goroutine to run next; one that cannot step is
    passed over. *)
Fixpoint run (sched : list goroutine) (s : state) : state :=
  match sched with
  | [] => s
  | g :: sched' => run sched' (default s (step g s))
  end.

(** No goroutine can step. *)
Definition stuck (s : state) : bool :=
  match step Upstream s, step TheHandler s, step Copier s with
  | None, None, None => true
  | _, _, _ => false
  end.

(** [HandleNonCachedResponse] is entered with the downstream writer [w0]
    in the heap [h0]. *)
Definition init (h0 : heap) (w0 : Http.ResponseWriter)
           (index : gmap string (list HttpCacheEntry)) : state :=
  {| heap_ := h0; w := w0; upstream := None; event := None;
     handler := AtGo; copier := NotStarted; bodyClosed := false;
     contents := []; entries := index; panicked := false; performed := [] |}.

(** The bytes that have been received from the body channel: those the
    content holds and the chunk the copier is about to write. *)
Definition recorded (s : state) : bytes :=
  match copier s with
  | NotStarted => []
  | AtRange bw | AtClose bw | AtEndSend bw | Finished bw =>
      from_option Storage.contentData [] (contents s !! bw)
  | AtWrite bw content =>
      from_option Storage.contentData [] (contents s !! bw) ++ content
  end.

End system.

(** *** The vocabulary of the statements about the goroutines *)

Import Recorder Heap.

(** The bytes on their way: sent on the body channel and not yet written
    to the downstream client. *)
Definition inflight (rest : list effect) : bytes :=
  match rest with EDownWrite buf :: _ => buf | _ => [] end.

Definition shape (rest : list effect) : Prop :=
  match rest with EDownWrite _ :: rest' => paired rest' | _ => paired rest end.

Definition remaining (s : state) : list effect := default [] (upstream s).

Definition copierOk (s : state) : Prop :=
  match copier s with
  | NotStarted => True
  | AtRange bw | AtWrite bw _ | AtClose bw | AtEndSend bw | Finished bw =>
      bw < length (contents s)
  end.

Definition early (pc : handlerPc) : Prop :=
  match pc with AtGo | AtHeaders | AtCacheable _ => True | _ => False end.

(** The invariant of the body: what the downstream client has is what was
    received from the body channel, but for the chunk on its way. *)
Definition bodyInv (body0 : bytes) (s : state) : Prop :=
  exists delivered,
    Http.wBody (w s) = body0 ++ delivered
    /\ recorded s = delivered ++ inflight (remaining s)
    /\ shape (remaining s)
    /\ (handler s = AtGo -> upstream s = None)
    /\ (early (handler s) -> copier s = NotStarted)
    /\ (copier s = NotStarted -> inflight (remaining s) = [] /\
        match remaining s with EDownWrite _ :: _ => False | _ => True end)
    /\ copierOk s.

(** The recorder has still to build this many header events. *)
Definition clonesLeft (next : list call) (s : state) : nat :=
  count isCloneHeader
        (match upstream s with None => program next | Some rest => rest end).

(** The invariant of the header event, before it is received: the map of
    the downstream writer is [hdr0] and well formed, and an event that has
    been built is separated from it and the only one. *)
Definition eventInv (hdr0 : loc) (next : list call) (s : state) : Prop :=
  Http.wHeader (w s) = hdr0
  /\ wfHeader (heap_ s) hdr0
  /\ (handler s = AtGo -> upstream s = None /\ event s = None)
  /\ clonesLeft next s <= 1
  /\ forall ev,
      event s = Some ev \/ handler s = AtCacheable ev ->
      separated (heap_ s) hdr0 (Header ev) /\ clonesLeft next s = 0.

(** The invariant of the header event, once it is received: whatever
    happens to the headers of the downstream writer, the map [l2] of the
    event denotes [v]. *)
Definition frameInv (hdr0 l2 : loc) (v : gmap string (option (list string)))
           (s : state) : Prop :=
  Http.wHeader (w s) = hdr0
  /\ handler s <> AtGo
  /\ separated (heap_ s) hdr0 l2
  /\ count isCloneHeader (remaining s) = 0
  /\ headerValue (heap_ s) l2 = v.

(** The changes the upstream handler makes to the headers before the
    call that delivers them, its first [WriteHeader] or [Write]. *)
Fixpoint headersBefore (next : list call) : list Http.mutation :=
  match next with
  | [] => []
  | CallHeader m :: next' => m :: headersBefore next'
  | CallFlush :: next' => headersBefore next'
  | CallWriteHeader _ :: _ | CallWrite _ :: _ => []
  end.

(** The changes of the headers among the effects to come, up to the one
    that builds the event. *)
Fixpoint pendingHeaders (rest : list effect) : list Http.mutation :=
  match rest with
  | [] => []
  | EHeader m :: rest' => m :: pendingHeaders rest'
  | ECloneHeader _ :: _ => []
  | _ :: rest' => pendingHeaders rest'
  end.

(** What a copy by [cloneHeader] denotes when the original denotes [v]:
    the same names, each with the elements of its value; [make] turns a
    nil value into an empty one. *)
Definition cloned (v : gmap string (option (list string)))
  : gmap string (option (list string)) :=
  (fun vv => Some (default [] vv)) <$> v.

(** The invariant of the value of the header event.  Until the event is
    built the handler waits, and the headers of the downstream writer are
    on their way to what the upstream handler makes of the headers [h0]
    has at [hdr0]; the event, once built, denotes the copy of that. *)
Definition cloneInv `{GrowthPolicy} (h0 : heap) (hdr0 : loc)
           (next : list call) (s : state) : Prop :=
  (upstream s = None -> handler s = AtGo /\ heap_ s = h0)
  /\ (clonesLeft next s = 1 ->
      (handler s = AtGo \/ handler s = AtHeaders)
      /\ Http.mutateAll
           (heap_ s) hdr0
           (pendingHeaders
              (match upstream s with
               | None => program next
               | Some rest => rest
               end))
         = Http.mutateAll h0 hdr0 (headersBefore next))
  /\ forall ev,
      event s = Some ev \/ handler s = AtCacheable ev ->
      headerValue (heap_ s) (Header ev)
      = cloned (headerValue (Http.mutateAll h0 hdr0 (headersBefore next))
                            hdr0).

End Fetch.

(* ================================================================== *)
(** ** The states a request can reach

    For a given handler, request and start the goroutines reach finitely
    many states; they are found by running every goroutine from every
    state found so far. *)
(* ================================================================== *)

Module Explore.

#[export] Instance byte_eq_dec : EqDecision Byte.byte := Byte.byte_eq_dec.
#[export] Instance slice_eq_dec : EqDecision Heap.slice.
Proof. solve_decision. Defined.
#[export] Instance heap_eq_dec : EqDecision Heap.heap.
Proof. solve_decision. Defined.
#[export] Instance mutation_eq_dec : EqDecision Http.mutation.
Proof. solve_decision. Defined.
#[export] Instance writer_eq_dec : EqDecision Http.ResponseWriter.
Proof. solve_decision. Defined.
#[export] Instance effect_eq_dec : EqDecision Recorder.effect.
Proof. solve_decision. Defined.
#[export] Instance HttpHeader_eq_dec : EqDecision Recorder.HttpHeader.
Proof. solve_decision. Defined.
#[export] Instance Request_eq_dec : EqDecision Request.t.
Proof. solve_decision. Defined.
#[export] Instance Response_eq_dec : EqDecision Response.t.
Proof. solve_decision. Defined.
#[export] Instance entry_eq_dec : EqDecision HttpCacheEntry.
Proof. solve_decision. Defined.
#[export] Instance ContentReader_eq_dec : EqDecision Storage.ContentReader.
Proof. solve_decision. Defined.
#[export] Instance MemoryData_eq_dec : EqDecision Storage.MemoryData.
Proof. solve_decision. Defined.
#[export] Instance MMapContent_eq_dec : EqDecision Storage.MMapContent.
Proof. solve_decision. Defined.
#[export] Instance StorageContent_eq_dec : EqDecision Storage.StorageContent.
Proof. solve_decision. Defined.
#[export] Instance returned_eq_dec : EqDecision Fetch.returned.
Proof. solve_decision. Defined.
#[export] Instance handlerPc_eq_dec : EqDecision Fetch.handlerPc.
Proof. solve_decision. Defined.
#[export] Instance copierPc_eq_dec : EqDecision Fetch.copierPc.
Proof. solve_decision. Defined.
#[export] Instance state_eq_dec : EqDecision Fetch.state.
Proof. solve_decision. Defined.

Section explore.
Import Fetch.
Context `{GrowthPolicy} `{Freshness}.
Variable ch : CacheHandler.
Variable now : Z.
Variable r : Http.Request.

(** The states one step away. *)
Definition successors (s : state) : list state :=
  omap (fun g => step ch now r g s) [Upstream; TheHandler; Copier].

(** The states [fuel] rounds of steps reach from [frontier], added to
    [seen]. *)
Fixpoint explore (fuel : nat) (seen frontier : list state) : list state :=
  match fuel with
  | O => seen
  | S fuel' =>
      let new :=
        remove_dups
          (List.filter (fun s => negb (bool_decide (s ∈ seen)))
                       (flat_map successors frontier)) in
      match new with
      | [] => seen
      | _ => explore fuel' (seen ++ new) new
      end
  end.

(** [states] holds the successors of its states. *)
Definition closed (states : list state) : bool :=
  forallb (fun s => forallb (fun s' => bool_decide (s' ∈ states))
                            (successors s)) states.
End explore.

End Explore.

(* ================================================================== *)
(** ** Many requests: [ServeHTTP] under the lock of [Cache.GetOrSet]

    Modelled from the spec: [Cache.GetOrSet] (cache.go, not in src/),
    section 4.2: it takes the lock of the key, scans the entries of the
    key, calls the function it is given with the entry selected or with
    nil, stores the entry the function returns, and releases the lock.
    The function is the closure of [ServeHTTP] in handler.go.  A request
    is a goroutine; what [HandleNonCachedResponse] returns to it is what
    the goroutines of the section above arrive at, and is given here.  The
    clock stands still. *)
(* ================================================================== *)

Module SingleFlight.

(** Where the goroutine of a request stands. *)
Inductive pc :=
| Waiting                              (** before the lock of its key *)
| Fetching                             (** in [HandleNonCachedResponse], under the lock *)
| Replaying (previous : HttpCacheEntry) (** in [HandleCachedResponse], under the lock *)
| Streaming                            (** at [<-endChannel], the lock released *)
| Finished
| Panicked.                            (** the predicate panicked, under the lock *)

(** A request, where it stands, whether it has called the upstream
    handler ([TestHandler.timesCalled]) and whether that call is still
    running ([TestHandler.currentConcurrencyLevel]). *)
Record request := mkRequest {
  req : Http.Request;
  at_ : pc;
  called : bool;
  running : bool
}.

Record world := mkWorld {
  index : gmap string (list HttpCacheEntry);
  locks : gmap string nat;
  requests : list request
}.

Inductive action :=
| Acquire          (** the lock is taken, the entries are scanned and the closure starts *)
| Return           (** [HandleNonCachedResponse] returns; the entry is stored, the lock released *)
| Replayed         (** [HandleCachedResponse] returns; the lock is released *)
| UpstreamReturns  (** [handler.Next.ServeHTTP] returns in its goroutine *)
| End.             (** the end channel is received *)

Definition key (q : request) : string := Handler.getKey (req q).

Definition moveTo (q : request) (at' : pc) : request :=
  mkRequest (req q) at' (called q) (running q).

Section model.
Variable h : Heap.heap.
Variable now : Z.
(** What [HandleNonCachedResponse] returns to the request of each number. *)
Variable fetch : nat -> Fetch.returned.

Definition acquire (i : nat) (q : request) (s : world) : option world :=
  match at_ q, locks s !! key q with
  | Waiting, None =>
      let chain := Cache.fresh now (default [] (index s !! key q)) in
      let index' := match index s !! key q with
                    | Some _ => <[key q := chain]> (index s)
                    | None => index s
                    end in
      let q' :=
        match Cache.select (Handler.matchesRequest h (req q)) chain with
        | Cache.Panics => moveTo q Panicked
        | Cache.NotFound => mkRequest (req q) Fetching true true
        | Cache.Found previous =>
            if Handler.fetchesUpstream (Some previous)
            then mkRequest (req q) Fetching true true
            else moveTo q (Replaying previous)
        end in
      Some (mkWorld index' (<[key q := i]> (locks s))
                    (<[i := q']> (requests s)))
  | _, _ => None
  end.

Definition return_ (i : nat) (q : request) (s : world) : option world :=
  match at_ q with
  | Fetching =>
      match fetch i with
      | Fetch.RetErr _ =>
          Some (mkWorld (index s) (delete (key q) (locks s))
                        (<[i := moveTo q Finished]> (requests s)))
      | Fetch.RetEntry entry endChannel =>
          Some (mkWorld (Cache.store (key q) (Some entry) (index s))
                        (delete (key q) (locks s))
                        (<[i := moveTo q (if endChannel then Streaming
                                          else Finished)]> (requests s)))
      end
  | _ => None
  end.

Definition replayed (i : nat) (q : request) (s : world) : option world :=
  match at_ q with
  | Replaying _ =>
      Some (mkWorld (index s) (delete (key q) (locks s))
                    (<[i := moveTo q Finished]> (requests s)))
  | _ => None
  end.

Definition upstreamReturns (i : nat) (q : request) (s : world)
  : option world :=
  if running q
  then Some (mkWorld (index s) (locks s)
                     (<[i := mkRequest (req q) (at_ q) (called q) false]>
                        (requests s)))
  else None.

Definition end_ (i : nat) (q : request) (s : world) : option world :=
  match at_ q, running q with
  | Streaming, false =>
      Some (mkWorld (index s) (locks s)
                    (<[i := moveTo q Finished]> (requests s)))
  | _, _ => None
  end.

(** One step of request [i]; [None] when it cannot take it. *)
Definition step (i : nat) (a : action) (s : world) : option world :=
  match requests s !! i with
  | None => None
  | Some q =>
      match a with
      | Acquire => acquire i q s
      | Return => return_ i q s
      | Replayed => replayed i q s
      | UpstreamReturns => upstreamReturns i q s
      | End => end_ i q s
      end
  end.

Fixpoint run (sched : list (nat * action)) (s : world) : world :=
  match sched with
  | [] => s
  | (i, a) :: sched' => run sched' (default s (step i a s))
  end.

(** Some request can take a step. *)
Definition enabled (s : world) : Prop :=
  exists i a s', step i a s = Some s'.

End model.

(** The requests arrive together at a cache that holds nothing. *)
Definition arrive (rs : list Http.Request) : world :=
  mkWorld ∅ ∅ ((fun r => mkRequest r Waiting false false) <$> rs).

(** The calls of the upstream handler for a key, and those still running. *)
Definition timesCalled (k : string) (s : world) : nat :=
  length (List.filter (fun q => bool_decide (key q = k) && called q)
                      (requests s)).

Definition concurrencyLevel (k : string) (s : world) : nat :=
  length (List.filter (fun q => bool_decide (key q = k) && running q)
                      (requests s)).

Definition allFinished (k : string) (s : world) : Prop :=
  forall q, q ∈ requests s -> key q = k -> at_ q = Finished.

(** The answer to every request of the key is a public entry that is
    fresh and that every request of the key matches. *)
Definition sameFreshEntry (h : Heap.heap) (now : Z)
           (fetch : nat -> Fetch.returned) (k : string)
           (rs : list Http.Request) : Prop :=
  forall i r, rs !! i = Some r -> Handler.getKey r = k ->
    exists entry,
      fetch i = Fetch.RetEntry entry true
      /\ isPublic entry = true
      /\ (now < Expiration entry)%Z
      /\ forall r', r' ∈ rs -> Handler.getKey r' = k ->
                    Handler.matchesRequest h r' entry = Some true.

(** *** The vocabulary of the statements about the lock *)

Definition chainOf (k : string) (s : world) : list HttpCacheEntry :=
  default [] (index s !! k).

(** An entry every request of the key is served from. *)
Definition good (h : Heap.heap) (now : Z) (k : string)
           (rs : list Http.Request) (e : HttpCacheEntry) : Prop :=
  isPublic e = true /\ (now < Expiration e)%Z
  /\ forall r', r' ∈ rs -> Handler.getKey r' = k ->
                Handler.matchesRequest h r' e = Some true.

Definition idle (q : request) : Prop :=
  at_ q = Waiting /\ called q = false /\ running q = false.

(** The three phases of a key, from a cache that holds nothing. *)
Inductive phase :=
| Cold                 (** no request has the lock *)
| FetchingBy (i : nat) (** request [i] is sending the request upstream, under the lock *)
| Warm (i : nat).      (** request [i] has stored its entry *)

Definition describes (h : Heap.heap) (now : Z) (k : string)
           (rs : list Http.Request) (p : phase) (s : world) : Prop :=
  req <$> requests s = rs /\
  match p with
  | Cold =>
      chainOf k s = [] /\ locks s !! k = None
      /\ forall j q, requests s !! j = Some q -> key q = k -> idle q
  | FetchingBy i =>
      chainOf k s = [] /\ locks s !! k = Some i
      /\ (exists q, requests s !! i = Some q /\ key q = k
                    /\ at_ q = Fetching /\ called q = true)
      /\ forall j q, j <> i -> requests s !! j = Some q -> key q = k -> idle q
  | Warm i =>
      chainOf k s <> [] /\ Forall (good h now k rs) (chainOf k s)
      /\ (exists q, requests s !! i = Some q /\ key q = k
                    /\ called q = true
                    /\ (at_ q = Streaming \/ at_ q = Finished))
      /\ (forall j q, j <> i -> requests s !! j = Some q -> key q = k ->
            called q = false /\ running q = false
            /\ (at_ q = Waiting \/ at_ q = Finished
                \/ exists e, at_ q = Replaying e /\ locks s !! k = Some j))
      /\ (forall j, locks s !! k = Some j ->
            exists q e, requests s !! j = Some q /\ key q = k
                        /\ at_ q = Replaying e)
  end.

(** The requests of the key that [f] marks. *)
Definition marks (k : string) (f : request -> bool) (q : request) : bool :=
  bool_decide (key q = k) && f q.

End SingleFlight.

(* ================================================================== *)
(** * Three requests, every interleaving *)
(* ================================================================== *)

(** The requests of the tests of handler.go, run from a cache that holds
    nothing; the states each can reach are listed once and for all. *)
Module Scenario.
Import Heap Recorder Fetch Explore.

#[local] Existing Instance doubling.

(** The freshness evaluator of the runs: no [Expires] date is read. *)
#[local] Instance freshness : Freshness :=
  SpecFreshness.instance (fun _ => None).

(** [TestHandler.ServeHTTP] of the tests of handler.go: the response
    headers are added, the status is written, then the body, and the
    writer is flushed. *)
Definition testHandler (headers : list (string * string)) (code : Z)
           (body : bytes) : list call :=
  map (fun kv => CallHeader (Http.MAdd kv.1 kv.2)) headers
  ++ [CallWriteHeader code; CallWrite body; CallFlush].

Definition hello : bytes := String.list_byte_of_string "Hello :)".

(** [GET http://somehost.com/] with no header (map 0), and a downstream
    writer that has not been written to (its headers are map 1). *)
Definition heap0 : heap := {| arrays := []; maps := [∅; ∅] |}.
Definition request0 : Http.Request :=
  Http.mkRequest "GET" "somehost.com" "/" "" 0.
Definition writer0 : Http.ResponseWriter := Http.NewWriter 1 true.
Definition now0 : Z := 1000.
Definition config0 : Config := mkConfig "Cache-Status" 10 [].
Definition start0 : state := init heap0 writer0 ∅.

(** The upstream answers [Cache-control: private] and the body
    [Hello :)], the response of [TestNotCacheableCacheControl]. *)
Definition privateHandler : CacheHandler :=
  mkCacheHandler config0 Storage.MemoryStorage None
                 (testHandler [("Cache-control", "private")] 200 hello).

Definition privateStates : list state :=
  Eval vm_compute in explore privateHandler now0 request0 50 [start0] [start0].

(** The upstream answers [Cache-control: public; max-age=3600] and the
    body [Hello :)]; the storage is the file storage and [os.OpenFile]
    fails. *)
Definition unwritableHandler : CacheHandler :=
  mkCacheHandler config0 (Storage.MMapStorage "/tmp/caddy-cache-tests")
                 (Some "open /tmp/caddy-cache-tests: permission denied")
                 (testHandler [("Cache-control", "public; max-age=3600")]
                              200 hello).

Definition unwritableStates : list state :=
  Eval vm_compute in
    explore unwritableHandler now0 request0 50 [start0] [start0].

(** The upstream answers [Cache-control: public; max-age=3600], a
    [Cache-Status] header of its own, and the body [Hello :)]. *)
Definition taggingHandler : CacheHandler :=
  mkCacheHandler config0 Storage.MemoryStorage None
                 (testHandler [("Cache-control", "public; max-age=3600");
                               ("Cache-Status", "upstream")] 200 hello).

Definition taggingStates : list state :=
  Eval vm_compute in
    explore taggingHandler now0 request0 50 [start0] [start0].

(** The second [GET http://somehost.com/], once the first is over in the
    state [s]: [GetOrSet] scans the entries of the key and the closure of
    [ServeHTTP] (l.179 to l.182) replays the entry it is given to a new
    downstream writer. *)
Definition secondRequest (cfg : Config) (s : state) : option Handler.replay :=
  let '(h, hdr) := allocMap (heap_ s) in
  let w2 := Http.NewWriter hdr true in
  let chain := default [] (entries s !! Handler.getKey request0) in
  match Cache.select (Handler.matchesRequest h request0)
                     (Cache.fresh now0 chain) with
  | Cache.Found previous =>
      if Handler.fetchesUpstream (Some previous) then None
      else
        let h' := Handler.AddStatusHeaderIfConfigured cfg h w2 "hit" in
        Some (Handler.HandleCachedResponse cfg h' (contents s) w2 previous)
  | _ => None
  end.

(** The effects the upstream goroutine is left with when nothing receives
    from the body channel. *)
Definition blocked : option (list effect) :=
  Some [ESendBody hello; EDownWrite hello; EDownFlush; ECloseBody].

(** Every goroutine in turn, twelve times. *)
Definition roundRobin : list goroutine :=
  concat (replicate 12 [TheHandler; Upstream; Copier]).

Definition privateEntry : HttpCacheEntry :=
  {| isPublic := false; Expiration := 4600;
     Request := Request.mk 0; Response := Response.mk 2 None 200 |}.

(** What holds of a state of the request with the private response. *)
Definition privateOutcome (s : state) : Prop :=
  copier s = NotStarted
  /\ Http.wBody (w s) = []
  /\ if stuck privateHandler now0 request0 s
     then handler s = Done 200 None
          /\ upstream s = blocked
          /\ Handler.valuesOf (heap_ s) 1 "Cache-Status" = Some ["miss"]
          /\ entries s !! "GET somehost.com/" = Some [privateEntry]
     else True.

(** What holds of a state of the request whose content cannot be
    created. *)
Definition unwritableOutcome (s : state) : Prop :=
  copier s = NotStarted
  /\ Http.wBody (w s) = []
  /\ entries s = ∅
  /\ if stuck unwritableHandler now0 request0 s
     then handler s
          = Done 500 (Some "open /tmp/caddy-cache-tests: permission denied")
          /\ upstream s = blocked
     else True.

(** The headers the upstream of [taggingHandler] emits, and those of a
    replay of them. *)
Definition emitted : gmap string (option (list string)) :=
  {[ "Cache-Control" := Some ["public; max-age=3600"];
     "Cache-Status" := Some ["upstream"] ]}.

Definition replayedTwice : gmap string (option (list string)) :=
  {[ "Cache-Control" := Some ["public; max-age=3600"];
     "Cache-Status" := Some ["hit"; "upstream"] ]}.

Definition replayedOnce : gmap string (option (list string)) :=
  {[ "Cache-Control" := Some ["public; max-age=3600"];
     "Cache-Status" := Some ["hit"] ]}.

(** The state [s] had [RemoveStatusHeaderIfConfigured] been applied to the
    response headers of the entries of the key. *)
Definition stripped (cfg : Config) (s : state) : state :=
  setHeap
    (foldl (fun h e =>
              fst (Handler.RemoveStatusHeaderIfConfigured
                     cfg h (Response.HeaderMap (Response e))))
           (heap_ s)
           (default [] (entries s !! Handler.getKey request0)))
    s.

Definition sentBy (replay : option Handler.replay)
  : option (gmap string (option (list string))) :=
  (fun r => Http.wSent (Handler.rWriter r)) <$> replay.

(** What holds of a state of the request whose upstream sets the status
    header itself, once the request is over. *)
Definition taggingOutcome (s : state) : Prop :=
  if stuck taggingHandler now0 request0 s
  then handler s = Done 200 None
       /\ Http.wSent (w s) = emitted
       /\ headerValue (heap_ s) 2 = emitted
       /\ sentBy (secondRequest config0 s) = Some replayedTwice
       /\ sentBy (secondRequest config0 (stripped config0 s))
          = Some replayedOnce
  else True.

(** *** Inputs the general statements are run on *)

(** The schedule that brings the handler of [taggingHandler] to the
    headers of the upstream, and the headers it receives. *)
Definition untilHeaders : list goroutine :=
  [TheHandler; Upstream; Upstream; Upstream; Upstream].

Definition received : HttpHeader := {| StatusCode := 200; Header := 2 |}.

(** What a later middleware does to the downstream headers. *)
Definition laterMutations : list Http.mutation :=
  [Http.MSet "Cache-Control" "no-store";
   Http.MStore "Cache-Status" 0 "rewritten";
   Http.MAppend "Cache-Status" "again";
   Http.MDelete "Cache-Status"].

(** The calls of the copier goroutine and of two clients of the content
    of [Hello :)], and the buffer of [io.Copy]. *)
Definition copierCalls : list Storage.call :=
  [Storage.CallWrite (String.list_byte_of_string "Hel"); Storage.CallGetReader;
   Storage.CallWrite (String.list_byte_of_string "lo :)")].

Definition clientCalls : list Storage.call :=
  [Storage.CallGetReader; Storage.CallClose].

(** Three requests of the key, the entry each would be given by the
    upstream, and a schedule in which the second and the third come
    while the first holds the lock. *)
Definition sharedEntry : HttpCacheEntry :=
  {| isPublic := true; Expiration := 4600;
     Request := Request.mk 0; Response := Response.mk 1 None 200 |}.

Definition threeRequests : list Http.Request :=
  [request0; request0; Http.mkRequest "GET" "otherhost.com" "/" "" 0; request0].

Definition oneAfterAnother : list (nat * SingleFlight.action) :=
  [(0, SingleFlight.Acquire); (1, SingleFlight.Acquire);
   (0, SingleFlight.Return); (1, SingleFlight.Acquire);
   (3, SingleFlight.Acquire); (0, SingleFlight.UpstreamReturns);
   (1, SingleFlight.Replayed); (3, SingleFlight.Acquire);
   (0, SingleFlight.End); (3, SingleFlight.Replayed)].

#[export] Instance privateOutcome_dec s : Decision (privateOutcome s).
Proof.
  unfold privateOutcome.
  destruct (stuck privateHandler now0 request0 s); apply _.
Defined.

#[export] Instance unwritableOutcome_dec s : Decision (unwritableOutcome s).
Proof.
  unfold unwritableOutcome.
  destruct (stuck unwritableHandler now0 request0 s); apply _.
Defined.

#[export] Instance taggingOutcome_dec s : Decision (taggingOutcome s).
Proof.
  unfold taggingOutcome.
  destruct (stuck taggingHandler now0 request0 s); apply _.
Defined.

End Scenario.

(* ================================================================== *)
(** ** Header maps that own their slices

    The header map of a response writer is built by [Set] and [Add]: each
    of its values is a slice with a backing array of its own.  [append]
    writes in place when the array has room, so what a map denotes after
    an [Add] can be told from what it denoted before only when no other
    value shares the array. *)
(* ================================================================== *)

Module Headers.
Import Heap.

(** The map at [l] exists; every slice of it lies within an array that
    exists, and no two keys share an array. *)
Definition owned (h : heap) (l : loc) : Prop :=
  l < length (maps h)
  /\ (forall k a n, mapOf h l !! k = Some (Slice a n) ->
        a < length (arrays h) /\ n <= length (arrayAt h a))
  /\ (forall k1 k2 a n1 n2,
        mapOf h l !! k1 = Some (Slice a n1) ->
        mapOf h l !! k2 = Some (Slice a n2) -> k1 = k2).

(** The keys of the map are in the canonical form net/http gives to the
    header names it reads and to those set through [Set] and [Add]. *)
Definition canonicalKeys (h : heap) (l : loc) : Prop :=
  forall k, is_Some (mapOf h l !! k) -> GoStrings.CanonicalMIMEHeaderKey k = k.

(** The value lists a replay adds to what the writer has: nothing for a
    name without elements, else the elements after those the writer has. *)
Definition replayed (before : option (option (list string)))
           (stored : list string) : option (option (list string)) :=
  match stored with
  | [] => before
  | _ => Some (Some (default [] (default None before) ++ stored))
  end.

End Headers.

(* ================================================================== *)
(** ** What a request sent upstream has done so far

    The vocabulary of the statements about whole runs of
    [HandleNonCachedResponse]: the bytes of the calls of the upstream
    handler, the status the recorder reports, and what holds between the
    three goroutines in every state. *)
(* ================================================================== *)

Module Trace.
Import Heap Recorder Fetch.

(** The bytes the upstream handler writes, in order. *)
Definition bodyOf (next : list call) : bytes :=
  flat_map (fun c => match c with CallWrite buf => buf | _ => [] end) next.

(** The bytes of the sends on the body channel, and those of the writes
    to the downstream client, among the effects [es]. *)
Definition sent (es : list effect) : bytes :=
  flat_map (fun e => match e with ESendBody buf => buf | _ => [] end) es.

Definition written (es : list effect) : bytes :=
  flat_map (fun e => match e with EDownWrite buf => buf | _ => [] end) es.

(** The status of the header event: that of the first call of
    [WriteHeader] or [Write]. *)
Definition statusOf (next : list call) : Z :=
  match List.find isTrigger next with
  | Some c => codeOf c
  | None => 200
  end.

(** [Close] has been called on the content: the buffer is marked closed,
    the file is mapped. *)
Definition contentClosed (c : Storage.StorageContent) : Prop :=
  match c with
  | Storage.InMemory m => Storage.isClosed m = true
  | Storage.OnDisk m => Storage.mapping m = Storage.file m
  end.

(** The copier goroutine runs, with the content [bw], and has not
    finished. *)
Definition copying (pc : copierPc) (bw : nat) : Prop :=
  match pc with
  | AtRange b | AtWrite b _ | AtClose b | AtEndSend b => b = bw
  | NotStarted | Finished _ => False
  end.

(** The effects performed and those to come are the program of the
    recorder; the client has the bytes of the writes performed and the
    copier has received the bytes of the sends performed. *)
Definition traceInv (next : list call) (body0 : bytes) (s : state) : Prop :=
  match upstream s with
  | None => handler s = AtGo /\ performed s = []
  | Some rest => performed s ++ rest = program next /\ handler s <> AtGo
  end
  /\ Http.wBody (w s) = body0 ++ written (performed s)
  /\ recorded s = sent (performed s)
  /\ copierOk s
  /\ (early (handler s) -> copier s = NotStarted).

(** Where the handler stands tells where the copier stands and what the
    index holds. *)
Definition controlInv (next : list call) (key : string)
           (index : gmap string (list HttpCacheEntry)) (s : state) : Prop :=
  (bodyClosed s = true -> upstream s = Some [])
  /\ match copier s with
     | AtClose _ => bodyClosed s = true
     | AtEndSend bw | Finished bw =>
         bodyClosed s = true
         /\ exists c, contents s !! bw = Some c /\ contentClosed c
     | _ => True
     end
  /\ (forall ev, event s = Some ev -> StatusCode ev = statusOf next)
  /\ match handler s with
     | AtGo | AtHeaders => entries s = index
     | AtCacheable ev | AtMiss ev =>
         copier s = NotStarted /\ entries s = index
         /\ StatusCode ev = statusOf next
     | AtStore (RetErr _) => copier s = NotStarted /\ entries s = index
     | AtStore (RetEntry e false) =>
         copier s = NotStarted /\ entries s = index
         /\ isPublic e = false /\ Response.Body (Response e) = None
         /\ Response.Code (Response e) = statusOf next
     | AtStore (RetEntry e true) =>
         entries s = index /\ isPublic e = true
         /\ Response.Code (Response e) = statusOf next
         /\ exists bw, copying (copier s) bw
                       /\ Response.Body (Response e) = Some bw
     | AtEnd code =>
         code = statusOf next
         /\ exists e bw,
             entries s = Cache.store key (Some e) index
             /\ isPublic e = true /\ Response.Code (Response e) = code
             /\ copying (copier s) bw
             /\ Response.Body (Response e) = Some bw
     | Done code None =>
         code = statusOf next
         /\ exists e,
             entries s = Cache.store key (Some e) index
             /\ Response.Code (Response e) = code
             /\ ((copier s = NotStarted /\ isPublic e = false
                  /\ Response.Body (Response e) = None)
                 \/ (isPublic e = true
                     /\ exists bw, copier s = Finished bw
                                   /\ Response.Body (Response e) = Some bw))
     | Done code (Some _) =>
         code = 500%Z /\ copier s = NotStarted /\ entries s = index
     end.








(** The request is over: the handler has returned, or the process has
    panicked. *)
Definition over (s : state) : Prop :=
  panicked s = true \/ exists code err, handler s = Done code err.

End Trace.

(* ================================================================== *)
(** ** The parts of a cache key *)
(* ================================================================== *)

Module Keys.

(** No byte of [s] is one of [delims]. *)
Fixpoint lacks (delims : list ascii) (s : string) : bool :=
  match s with
  | EmptyString => true
  | String c s' => negb (bool_decide (c ∈ delims)) && lacks delims s'
  end.

(** [s] is empty or starts with one of [delims]. *)
Definition startsWith (delims : list ascii) (s : string) : bool :=
  match s with
  | EmptyString => true
  | String c _ => bool_decide (c ∈ delims)
  end.

(** A request whose method is a token without a space, whose host has no
    slash and no question mark, and whose path is empty or starts with a
    slash and has no question mark. *)
Definition plain (r : Http.Request) : bool :=
  lacks [" "%char] (Http.Method r)
  && lacks ["/"%char; "?"%char] (Http.Host r)
  && startsWith ["/"%char] (Http.URLPath r)
  && lacks ["?"%char] (Http.URLPath r).

End Keys.

(* ================================================================== *)
(** ** storage.go: a buffer that is read while it is written

    [MemoryData] with its subscribers at work.  One goroutine writes to
    the buffer and closes it (in handler.go, the goroutine that copies
    the body channel); readers come and call [GetReader], then [Read]
    until [io.EOF], as [io.Copy] does.  [Write] and [Close] start one
    goroutine per subscriber, which sends on the subscriber's
    [moreContent] channel or closes it.  The channel is unbuffered: a
    send waits for the reader to stand at its [range]; a send on a closed
    channel, the close of a channel with a sender waiting, and the close
    of a closed channel are run-time panics. *)
(* ================================================================== *)

Module Streaming.
Import Storage.

(** The two halves of [MemoryData.Write]: the append under the lock of
    the content, and the goroutines started under the lock of the
    subscribers. *)
Definition appendData (b : MemoryData) (p : bytes) : MemoryData :=
  {| data := data b ++ p; subscribers := subscribers b;
     isClosed := isClosed b |}.

Definition signalAll (b : MemoryData) : MemoryData :=
  {| data := data b; subscribers := map signal (subscribers b);
     isClosed := isClosed b |}.

(** [ContentReader.Read], up to its [range]: [n := copy(p, data[offset:])]
    with a buffer of [buflen] bytes, and [offset += n]. *)
Definition copyOut (b : MemoryData) (idx buflen : nat) : MemoryData * bytes :=
  match subscribers b !! idx with
  | None => (b, [])
  | Some r =>
      let p := take buflen (drop (offset r) (data b)) in
      ({| data := data b;
          subscribers :=
            <[idx := {| offset := offset r + length p;
                        signalling := signalling r;
                        closing := closing r |}]> (subscribers b);
          isClosed := isClosed b |},
       p)
  end.

(** Where a reader stands in [Read]. *)
Inductive readerPc :=
| AtCopy    (** l.232, before the copy *)
| AtRange   (** l.241 [for range reader.moreContent] *)
| AtEOF.    (** l.245, [io.EOF] returned *)

(** The side of a subscriber that the buffer does not hold: where its
    reader stands, the bytes [Read] has returned, the signals received
    from [moreContent], and the goroutines of [Close] that have run on
    it (the channel is closed when one has). *)
Record reader := mkReader {
  at_ : readerPc;
  got : bytes;
  received : nat;
  closes : nat
}.

Inductive wcall :=
| WWrite (p : bytes)
| WClose.

Definition isWClose (c : wcall) : bool :=
  match c with WClose => true | WWrite _ => false end.

(** [signalsDue]: the writer stands between the two halves of a
    [Write].  [snapshots]: the readers handed out after the close. *)
Record world := mkWorld {
  buff : MemoryData;
  readers : list reader;
  snapshots : list BytesReader.t;
  script : list wcall;
  signalsDue : bool;
  panicked : bool
}.

Inductive goroutine :=
| Writer               (** the goroutine that writes and closes *)
| NewReader            (** a goroutine that calls [GetReader] *)
| Reader (i : nat)     (** the reader of subscriber [i], in [Read] *)
| Signal (i : nat)     (** a goroutine of [Write], for subscriber [i] *)
| Closer (i : nat).    (** a goroutine of [Close], for subscriber [i] *)

Definition setBuff (b : MemoryData) (s : world) : world :=
  mkWorld b (readers s) (snapshots s) (script s) (signalsDue s) (panicked s).
Definition setReaders (rs : list reader) (s : world) : world :=
  mkWorld (buff s) rs (snapshots s) (script s) (signalsDue s) (panicked s).
Definition setSnapshots (l : list BytesReader.t) (s : world) : world :=
  mkWorld (buff s) (readers s) l (script s) (signalsDue s) (panicked s).
Definition setScript (cs : list wcall) (due : bool) (s : world) : world :=
  mkWorld (buff s) (readers s) (snapshots s) cs due (panicked s).
Definition panic (s : world) : world :=
  mkWorld (buff s) (readers s) (snapshots s) (script s) (signalsDue s) true.

Section system.
(** The length of the buffer the readers pass to [Read]. *)
Variable buflen : nat.

Definition stepWriter (s : world) : option world :=
  if signalsDue s
  then Some (setScript (script s) false (setBuff (signalAll (buff s)) s))
  else
    match script s with
    | [] => None
    | WWrite p :: rest =>
        Some (setScript rest true (setBuff (appendData (buff s) p) s))
    | WClose :: rest =>
        Some (setScript rest false (setBuff (fst (Close (buff s))) s))
    end.

Definition stepNewReader (s : world) : option world :=
  match GetReader (buff s) with
  | (b, Subscriber _) =>
      Some (setReaders (readers s ++ [mkReader AtCopy [] 0 0]) (setBuff b s))
  | (b, SnapshotReader r) =>
      Some (setSnapshots (snapshots s ++ [r]) (setBuff b s))
  end.

Definition stepReader (i : nat) (s : world) : option world :=
  match readers s !! i with
  | None => None
  | Some rd =>
      match at_ rd with
      | AtCopy =>
          let '(b, p) := copyOut (buff s) i buflen in
          match p with
          | [] =>
              Some (setReaders
                      (<[i := mkReader AtRange (got rd) (received rd)
                                       (closes rd)]> (readers s))
                      (setBuff b s))
          | _ =>
              Some (setReaders
                      (<[i := mkReader AtCopy (got rd ++ p) (received rd)
                                       (closes rd)]> (readers s))
                      (setBuff b s))
          end
      | AtRange =>
          if decide (0 < closes rd)
          then Some (setReaders
                       (<[i := mkReader AtEOF (got rd) (received rd)
                                        (closes rd)]> (readers s)) s)
          else None
      | AtEOF => None
      end
  end.

Definition stepSignal (i : nat) (s : world) : option world :=
  match readers s !! i, subscribers (buff s) !! i with
  | Some rd, Some sub =>
      if decide (received rd < signalling sub)
      then
        if decide (0 < closes rd) then Some (panic s)
        else
          match at_ rd with
          | AtRange =>
              Some (setReaders
                      (<[i := mkReader AtCopy (got rd) (S (received rd))
                                       (closes rd)]> (readers s)) s)
          | _ => None
          end
      else None
  | _, _ => None
  end.

Definition stepCloser (i : nat) (s : world) : option world :=
  match readers s !! i, subscribers (buff s) !! i with
  | Some rd, Some sub =>
      if decide (closes rd < closing sub)
      then
        if decide (0 < closes rd) then Some (panic s)
        else
          Some (setReaders
                  (<[i := mkReader (at_ rd) (got rd) (received rd)
                                   (S (closes rd))]> (readers s)) s)
      else None
  | _, _ => None
  end.

(** One step of a goroutine; [None] when it waits or is over.  A panic
    ends the process. *)
Definition step (g : goroutine) (s : world) : option world :=
  if panicked s then None
  else match g with
       | Writer => stepWriter s
       | NewReader => stepNewReader s
       | Reader i => stepReader i s
       | Signal i => stepSignal i s
       | Closer i => stepCloser i s
       end.

Fixpoint run (sched : list goroutine) (s : world) : world :=
  match sched with
  | [] => s
  | g :: sched' => run sched' (default s (step g s))
  end.

End system.

(** [MemoryStorage.NewContent], and the calls the writer is to make. *)
Definition init (cs : list wcall) : world :=
  mkWorld NewMemoryData [] [] cs false false.

(** *** The vocabulary of the statements about readers *)

(** The bytes the writer is to write, in order. *)
Definition writesOf (cs : list wcall) : bytes :=
  flat_map (fun c => match c with WWrite p => p | WClose => [] end) cs.

(** No [Write] comes after a [Close]. *)
Fixpoint orderly (cs : list wcall) : bool :=
  match cs with
  | [] => true
  | WWrite _ :: cs' => orderly cs'
  | WClose :: cs' => forallb isWClose cs'
  end.

(** What the buffer and a reader of it have in common. *)
Definition readerInv (b : MemoryData) (sub : ContentReader) (rd : reader)
  : Prop :=
  got rd = take (offset sub) (data b)
  /\ offset sub <= length (data b)
  /\ received rd <= signalling sub
  /\ closes rd <= closing sub.

(** In every state: the bytes written and those still to write are the
    bytes of the script, and every reader has read a prefix of the
    buffer. *)
Definition streamInv (total : bytes) (s : world) : Prop :=
  data (buff s) ++ writesOf (script s) = total
  /\ length (readers s) = length (subscribers (buff s))
  /\ (forall i sub rd,
        subscribers (buff s) !! i = Some sub -> readers s !! i = Some rd ->
        readerInv (buff s) sub rd)
  /\ (forall r, r ∈ snapshots s ->
        BytesReader.i r = 0
        /\ BytesReader.s r `prefix_of` total).

(** With a writer that does not write after it has closed: once the
    buffer is closed nothing is written, and a reader that waits or has
    ended with no signal left for it has read the whole buffer. *)
Definition orderInv (s : world) : Prop :=
  orderly (script s) = true
  /\ (isClosed (buff s) = true ->
      forallb isWClose (script s) = true /\ signalsDue s = false)
  /\ forall i sub rd,
      subscribers (buff s) !! i = Some sub -> readers s !! i = Some rd ->
      (0 < closing sub -> isClosed (buff s) = true)
      /\ (at_ rd = AtRange -> received rd = signalling sub ->
          signalsDue s = false -> offset sub = length (data (buff s)))
      /\ (at_ rd = AtEOF ->
          0 < closes rd
          /\ (received rd = signalling sub ->
              offset sub = length (data (buff s)))).

End Streaming.

(* ================================================================== *)
(** ** Inputs from the tests, for the statements with premises *)
(* ================================================================== *)

(* ================================================================== *)
(** ** The slices on the body channel

    [StreamedRecorder.Write] sends the slice it is given on the body
    channel ([rw.bodyChannel <- buf]) and the goroutine of l.148 of
    handler.go passes what it receives to [bodyWriter.Write], which
    copies the bytes ([append], [file.Write]) when it runs.  The channel
    carries the slice, not a copy: the bytes stored are those the buffer
    of the upstream handler holds when the copy is made.  Here the
    upstream handler is the sequence of what it does with its buffers
    once the headers are out. *)
(* ================================================================== *)

Module Buffers.
Import Storage.

Inductive action :=
| Fill (b : nat) (p : bytes)   (** [copy(buf, p)] with [buf] the buffer [b], as [src.Read(buf)] does *)
| Write (b n : nat).           (** [w.Write(buf[:n])] *)

(** The slice [buf[:n]] of the buffer [b]. *)
Record chunk := mkChunk {
  buffer : nat;
  len : nat
}.

(** A buffer that was never made is the nil slice. *)
Definition bufferAt (bufs : list bytes) (b : nat) : bytes :=
  default [] (bufs !! b).

(** The bytes a slice denotes at a given moment. *)
Definition view (bufs : list bytes) (c : chunk) : bytes :=
  take (len c) (bufferAt bufs (buffer c)).

(** [copy(buf, p)]: the first [min(len(buf), len(p))] bytes of [buf]
    are replaced. *)
Definition copyInto (buf p : bytes) : bytes :=
  take (length buf) (p ++ drop (length p) buf).

Definition fill (bufs : list bytes) (b : nat) (p : bytes) : list bytes :=
  <[b := copyInto (bufferAt bufs b) p]> bufs.

(** Where the goroutine of [pipe.handle()] stands. *)
Inductive upstreamPc :=
| InHandler                 (** in [ServeHTTP] of the upstream handler *)
| AtDownWrite (c : chunk)   (** l.62 [rw.w.Write(buf)], after the send of l.60 *)
| Returned.                 (** l.46 [close(rw.bodyChannel)] is done *)

(** Where the goroutine of l.148 of handler.go stands. *)
Inductive copierPc :=
| AtRange                   (** l.149 [range pipe.BodyChannel()] *)
| AtWrite (c : chunk)       (** l.150 [bodyWriter.Write(content)] *)
| AtClose                   (** l.152 [bodyWriter.Close()] *)
| Finished.

Inductive goroutine := Upstream | Copier.

Record state := mkState {
  buffers : list bytes;
  todo : list action;
  upstream : upstreamPc;
  copier : copierPc;
  content : StorageContent;
  downstream : bytes;
  bodyClosed : bool;
  panicked : bool
}.

(** A step of the upstream goroutine.  [buf[:n]] panics when [n] is
    beyond the buffer; the send of l.60 waits for the copier to be at
    its [range]. *)
Definition stepUpstream (s : state) : option state :=
  match upstream s with
  | InHandler =>
      match todo s with
      | [] =>
          Some (mkState (buffers s) [] Returned (copier s) (content s)
                        (downstream s) true (panicked s))
      | Fill b p :: rest =>
          Some (mkState (fill (buffers s) b p) rest InHandler (copier s)
                        (content s) (downstream s) (bodyClosed s)
                        (panicked s))
      | Write b n :: rest =>
          if decide (length (bufferAt (buffers s) b) < n)
          then Some (mkState (buffers s) (todo s) InHandler (copier s)
                             (content s) (downstream s) (bodyClosed s) true)
          else
            match copier s with
            | AtRange =>
                Some (mkState (buffers s) rest (AtDownWrite (mkChunk b n))
                              (AtWrite (mkChunk b n)) (content s)
                              (downstream s) (bodyClosed s) (panicked s))
            | _ => None
            end
      end
  | AtDownWrite c =>
      Some (mkState (buffers s) (todo s) InHandler (copier s) (content s)
                    (downstream s ++ view (buffers s) c) (bodyClosed s)
                    (panicked s))
  | Returned => None
  end.

(** A step of the goroutine that fills the content: [bodyWriter.Write]
    copies the bytes its argument denotes when it runs. *)
Definition stepCopier (s : state) : option state :=
  match copier s with
  | AtRange =>
      if bodyClosed s
      then Some (mkState (buffers s) (todo s) (upstream s) AtClose
                         (content s) (downstream s) (bodyClosed s)
                         (panicked s))
      else None
  | AtWrite c =>
      Some (mkState (buffers s) (todo s) (upstream s) AtRange
                    (ContentWrite (content s) (view (buffers s) c))
                    (downstream s) (bodyClosed s) (panicked s))
  | AtClose =>
      Some (mkState (buffers s) (todo s) (upstream s) Finished
                    (ContentClose (content s)) (downstream s)
                    (bodyClosed s) (panicked s))
  | Finished => None
  end.

Definition step (g : goroutine) (s : state) : option state :=
  if panicked s then None
  else match g with
       | Upstream => stepUpstream s
       | Copier => stepCopier s
       end.

Fixpoint run (sched : list goroutine) (s : state) : state :=
  match sched with
  | [] => s
  | g :: sched' => run sched' (default s (step g s))
  end.

(** The upstream handler is about to do [actions] with the buffers
    [bufs], and the copier goroutine has been started on the content
    [c0]. *)
Definition init (bufs : list bytes) (actions : list action)
           (c0 : StorageContent) : state :=
  mkState bufs actions InHandler AtRange c0 [] false false.

(** *** The vocabulary of the statements about the slices *)

(** The bytes the upstream handler passes to [Write], as they are at
    each call. *)
Fixpoint written (bufs : list bytes) (actions : list action) : bytes :=
  match actions with
  | [] => []
  | Fill b p :: rest => written (fill bufs b p) rest
  | Write b n :: rest => view bufs (mkChunk b n) ++ written bufs rest
  end.

(** The upstream handler does not store into the buffer [b] any more. *)
Definition untouched (b : nat) (actions : list action) : bool :=
  forallb (fun a => match a with
                    | Fill b' _ => negb (b =? b')
                    | Write _ _ => true
                    end) actions.

(** The upstream handler never stores into a buffer it has passed to
    [Write]. *)
Fixpoint disciplined (actions : list action) : bool :=
  match actions with
  | [] => true
  | Fill _ _ :: rest => disciplined rest
  | Write b _ :: rest => untouched b rest && disciplined rest
  end.

(** An upstream handler that writes twice from the one buffer it fills
    again in between, as [io.Copy] does, and a schedule where the copier
    comes to its first [Write] when the buffer has been filled again. *)
Definition reusing (p q : bytes) : list action :=
  [Write 0 (length p); Fill 0 q; Write 0 (length p)].

Definition lateCopier : list goroutine :=
  [Upstream; Upstream; Upstream; Copier;
   Upstream; Upstream; Copier;
   Upstream; Copier; Copier].

(** The bytes received from the body channel: those the content holds
    and those of the slice the copier is about to write. *)
Definition recorded (s : state) : bytes :=
  contentData (content s)
  ++ match copier s with AtWrite c => view (buffers s) c | _ => [] end.

(** The bytes on their way to the downstream client. *)
Definition inflight (s : state) : bytes :=
  match upstream s with AtDownWrite c => view (buffers s) c | _ => [] end.

Definition settled (pc : upstreamPc) (s : state) : Prop :=
  match pc with
  | AtDownWrite c => untouched (buffer c) (todo s) = true
  | _ => True
  end.

(** The invariant of an upstream handler that keeps the discipline:
    what was received from the body channel and what was written
    downstream, with what is still to be written, are the bytes of the
    calls of [Write]. *)
Definition sliceInv (c0 : StorageContent) (total : bytes) (s : state)
  : Prop :=
  recorded s ++ written (buffers s) (todo s) = contentData c0 ++ total
  /\ downstream s ++ inflight s ++ written (buffers s) (todo s) = total
  /\ disciplined (todo s) = true
  /\ match copier s with
     | AtWrite c => untouched (buffer c) (todo s) = true
     | AtClose => upstream s = Returned
     | Finished =>
         upstream s = Returned /\ Trace.contentClosed (content s)
     | AtRange => True
     end
  /\ settled (upstream s) s
  /\ (bodyClosed s = true -> upstream s = Returned)
  /\ (upstream s = Returned -> todo s = []).

End Buffers.

Module Rand.

(** [letters] of streamed_recorder.go. *)
Definition letters : list ascii :=
  list_ascii_of_string
    "abcdefghijklmnopqrstuvwxyzABCDEFGHIJKLMNOPQRSTUVWXYZ0123456789".

(** [math/rand]: the generator is the sequence [src] of the numbers it
    yields, [drawn] of which have been taken; [rand.Intn(n)] is the next
    one brought into [[0, n)]. *)
Definition Intn (src : nat -> nat) (drawn : nat) (n : nat) : nat * nat :=
  (src drawn mod n, S drawn).

(** The loop of [randSeq] over a slice of [count] runes.  An index out
    of [letters] panics. *)
Fixpoint fill (src : nat -> nat) (count drawn : nat)
  : option (list ascii * nat) :=
  match count with
  | O => Some ([], drawn)
  | S count' =>
      let '(i, drawn') := Intn src drawn (length letters) in
      match letters !! i with
      | None => None
      | Some c =>
          match fill src count' drawn' with
          | None => None
          | Some (b, drawn'') => Some (c :: b, drawn'')
          end
      end
  end.

(** [randSeq]; [make] panics for a negative length. *)
Definition randSeq (src : nat -> nat) (drawn : nat) (n : Z)
  : option (string * nat) :=
  if (n <? 0)%Z then None
  else
    match fill src (Z.to_nat n) drawn with
    | None => None
    | Some (b, drawn') => Some (string_of_list_ascii b, drawn')
    end.

End Rand.

Module Samples.
Import Heap Recorder Fetch Scenario.

(** [TestVaryAcceptEncoding], with the name of [Vary] in lower case: the
    stored request (map 0) asked for gzip, the current one (map 1) for
    deflate, and the stored response (map 2) varies on
    [accept-encoding]. *)
Definition varyHeap : heap :=
  {| arrays := [["gzip"]; ["deflate"]; ["accept-encoding"]];
     maps := [ {["Accept-Encoding" := Slice 0 1]};
               {["Accept-Encoding" := Slice 1 1]};
               {["Vary" := Slice 2 1]} ] |}.

Definition varyEntry : HttpCacheEntry :=
  {| isPublic := true; Expiration := 4600;
     Request := Request.mk 0; Response := Response.mk 2 None 200 |}.

Definition varyRequest : Http.Request :=
  Http.mkRequest "GET" "somehost.com" "/assets/1" "" 1.

(** The response headers of [TestAddAllHeaders], stored (map 2), and a
    writer with no header yet (map 1); the content of the entry is
    [Hello :)], written in two chunks. *)
Definition storedHeap : heap :=
  {| arrays := [["text/plain; charset=utf-8"]; ["foo"; "bar"; "baz"]];
     maps := [ ∅; ∅;
               {["Content-Type" := Slice 0 1; "X-Custom" := Slice 1 3]} ] |}.

Definition chunks : list bytes :=
  [String.list_byte_of_string "Hel"; String.list_byte_of_string "lo :)"].

Definition storedEntry : HttpCacheEntry :=
  {| isPublic := true; Expiration := 4600;
     Request := Request.mk 0; Response := Response.mk 2 (Some 0) 200 |}.

Definition closedContents : list Storage.StorageContent :=
  [Storage.ContentClose
     (foldl Storage.ContentWrite (Storage.InMemory Storage.NewMemoryData)
            chunks)].

Definition openFileContents : list Storage.StorageContent :=
  [foldl Storage.ContentWrite
         (Storage.OnDisk {| Storage.file := []; Storage.mapping := [] |})
         chunks].

(** An upstream handler that sets a header, flushes and returns. *)
Definition silentHandler : CacheHandler :=
  mkCacheHandler config0 Storage.MemoryStorage None
                 [CallHeader (Http.MAdd "X-Custom" "foo"); CallFlush].

(** The request of the tests once more, with another header map. *)
Definition request1 : Http.Request :=
  Http.mkRequest "GET" "somehost.com" "/" "" 1.

(** A writer that writes [Hello :)] and closes, and a reader with a
    buffer of four bytes that subscribes first, waits, is woken by the
    signal of the write, reads the bytes in two copies, waits again and
    leaves its range at the close. *)
Definition helloScript : list Streaming.wcall :=
  [Streaming.WWrite hello; Streaming.WClose].

Definition readToTheEnd : list Streaming.goroutine :=
  [Streaming.NewReader; Streaming.Reader 0;
   Streaming.Writer; Streaming.Writer; Streaming.Signal 0;
   Streaming.Reader 0; Streaming.Reader 0; Streaming.Reader 0;
   Streaming.Writer; Streaming.Closer 0; Streaming.Reader 0].

(** An upstream handler that writes [Hel] and [lo :)] from two buffers,
    and the goroutines in turn until the content is closed. *)
Definition twoBuffers : list bytes := chunks.

Definition twoWrites : list Buffers.action :=
  [Buffers.Write 0 3; Buffers.Write 1 5].

Definition inTurn : list Buffers.goroutine :=
  [Buffers.Upstream; Buffers.Upstream; Buffers.Copier;
   Buffers.Upstream; Buffers.Upstream; Buffers.Copier;
   Buffers.Upstream; Buffers.Copier; Buffers.Copier].

End Samples.

(* ================================================================== *)
(** * Properties *)
(* ================================================================== *)

Example Split_three :
  GoStrings.Split "Accept-Encoding, User-Agent,x" ","
  = ["Accept-Encoding"; " User-Agent"; "x"].
Proof. reflexivity. Qed.

Example Split_empty : GoStrings.Split "" "," = [""].
Proof. reflexivity. Qed.

Example TrimSpace_ascii : GoStrings.TrimSpace "  User-Agent	 " = "User-Agent".
Proof. reflexivity. Qed.

Example TrimSpace_inner : GoStrings.TrimSpace " a b " = "a b".
Proof. reflexivity. Qed.

Example Canonical_lower :
  GoStrings.CanonicalMIMEHeaderKey "cache-status" = "Cache-Status".
Proof. reflexivity. Qed.

Example Canonical_space :
  GoStrings.CanonicalMIMEHeaderKey "cache status" = "cache status".
Proof. reflexivity. Qed.

(* ------------------------------------------------------------------ *)
(** ** The heap: what a write can reach *)
(* ------------------------------------------------------------------ *)

Section heap_facts.
Import Heap.
Context `{GrowthPolicy}.

Lemma same_at_headerValue l2 h h' :
  same_at l2 h h' -> headerValue h' l2 = headerValue h l2.
Proof.
  intros [Hm Ha]. unfold headerValue. rewrite Hm.
  apply map_fmap_ext. intros k s Hk.
  destruct s as [|a n]; simpl; [done|].
  rewrite Ha; [done|]. by exists k, n.
Qed.

Lemma mapOf_setMap_ne h l l' m : l <> l' -> mapOf (setMap h l m) l' = mapOf h l'.
Proof. intros Hne. unfold mapOf, setMap; simpl. by rewrite list_lookup_insert_ne. Qed.

Lemma mapOf_setMap_eq h l m :
  mapOf (setMap h l m) l = m \/ setMap h l m = h.
Proof.
  destruct (decide (l < length (maps h))) as [Hlt|Hge].
  - left. unfold mapOf, setMap; simpl. by rewrite list_lookup_insert_eq.
  - right. unfold setMap. rewrite list_insert_ge; [by destruct h|lia].
Qed.

Lemma refs_insert (m : gmap string slice) k s a :
  refs (<[k := s]> m) a -> refs m a \/ exists n, s = Slice a n.
Proof.
  intros (k' & n & Hk). destruct (decide (k = k')) as [->|Hne].
  - rewrite lookup_insert_eq in Hk. right. exists n. congruence.
  - rewrite lookup_insert_ne in Hk by done. left. by exists k', n.
Qed.

Lemma refs_delete (m : gmap string slice) k a : refs (delete k m) a -> refs m a.
Proof.
  intros (k' & n & Hk). apply lookup_delete_Some in Hk as [_ Hk]. by exists k', n.
Qed.

Lemma refs_mapIndex h hdr k a n :
  mapIndex h hdr k = Slice a n -> refs (mapOf h hdr) a.
Proof.
  unfold mapIndex. intros Hk. exists k, n.
  destruct (mapOf h hdr !! k) as [s|]; simpl in Hk; [by subst|done].
Qed.

(** Storing a slice whose array is new, or already the map's, keeps the
    separation. *)
Lemma separated_mapStore h hdr l2 k s :
  separated h hdr l2 ->
  (forall a n, s = Slice a n -> ~ refs (mapOf h l2) a) ->
  separated (mapStore h hdr k s) hdr l2 /\ same_at l2 h (mapStore h hdr k s).
Proof.
  intros [Hne Hsep] Hs. unfold mapStore.
  assert (Hl2 : mapOf (setMap h hdr (<[k:=s]> (mapOf h hdr))) l2 = mapOf h l2)
    by by apply mapOf_setMap_ne.
  split; [split; [done|]|split; [done|done]].
  intros a Ha. rewrite Hl2 in Ha. destruct (Hsep a Ha) as [Hlt Hnot].
  split; [done|]. intros Hr.
  destruct (mapOf_setMap_eq h hdr (<[k:=s]> (mapOf h hdr))) as [Heq|Heq];
    rewrite Heq in Hr; [|done].
  apply refs_insert in Hr as [Hr|[n ->]]; [done|]. by eapply Hs.
Qed.

Lemma separated_mapDelete h hdr l2 k :
  separated h hdr l2 ->
  separated (mapDelete h hdr k) hdr l2 /\ same_at l2 h (mapDelete h hdr k).
Proof.
  intros [Hne Hsep]. unfold mapDelete.
  assert (Hl2 : mapOf (setMap h hdr (delete k (mapOf h hdr))) l2 = mapOf h l2)
    by by apply mapOf_setMap_ne.
  split; [split; [done|]|split; [done|done]].
  intros a Ha. rewrite Hl2 in Ha. destruct (Hsep a Ha) as [Hlt Hnot].
  split; [done|]. intros Hr.
  destruct (mapOf_setMap_eq h hdr (delete k (mapOf h hdr))) as [Heq|Heq];
    rewrite Heq in Hr; [|done].
  by apply refs_delete in Hr.
Qed.

Lemma separated_allocArray h hdr l2 v :
  separated h hdr l2 ->
  separated (fst (allocArray h v)) hdr l2
  /\ same_at l2 h (fst (allocArray h v))
  /\ ~ refs (mapOf h l2) (snd (allocArray h v)).
Proof.
  intros [Hne Hsep]. simpl. split; [split; [done|]|split; [split; [done|]|]].
  - intros a Ha. destruct (Hsep a Ha) as [Hlt Hnot]. split; [|done].
    simpl. rewrite length_app. lia.
  - intros a Ha. unfold arrayAt; simpl.
    rewrite lookup_app_l; [done|]. by apply Hsep.
  - intros Ha. apply Hsep in Ha. lia.
Qed.

Lemma separated_setArray h hdr l2 a v :
  separated h hdr l2 -> refs (mapOf h hdr) a ->
  separated (setArray h a v) hdr l2 /\ same_at l2 h (setArray h a v).
Proof.
  intros [Hne Hsep] Ha. split; [split; [done|]|split; [done|]].
  - intros a' Ha'. destruct (Hsep a' Ha') as [Hlt Hnot]. split; [|done].
    simpl. by rewrite length_insert.
  - intros a' Ha'. unfold arrayAt; simpl.
    rewrite list_lookup_insert_ne; [done|]. intros ->. by destruct (Hsep _ Ha') as [_ Hnot].
Qed.

Lemma same_at_trans l2 h1 h2 h3 :
  same_at l2 h1 h2 -> same_at l2 h2 h3 -> same_at l2 h1 h3.
Proof.
  intros [Hm1 Ha1] [Hm2 Ha2]. split; [congruence|].
  intros a Ha. rewrite Ha2, Ha1; [done..|]. by rewrite Hm1.
Qed.

Lemma separated_append h hdr l2 k v h' s :
  separated h hdr l2 ->
  append h (mapIndex h hdr k) v = (h', s) ->
  separated h' hdr l2 /\ same_at l2 h h'
  /\ forall a n, s = Slice a n -> ~ refs (mapOf h l2) a.
Proof.
  intros Hsep. unfold append.
  destruct (decide _) as [Hroom|Hfull].
  - destruct (mapIndex h hdr k) as [|a n] eqn:Hidx; simpl in *; [lia|].
    intros [= <- <-]. pose proof (refs_mapIndex _ _ _ _ _ Hidx) as Hr.
    destruct (separated_setArray h hdr l2 a (<[n:=v]> (arrayAt h a)) Hsep Hr)
      as [Hs1 Hf1].
    split; [done|split; [done|]].
    intros a' n' [= <- <-] Ha. by destruct (proj2 Hsep _ Ha) as [_ Hnot].
  - match goal with |- context [allocArray h ?x] =>
      pose proof (separated_allocArray h hdr l2 x Hsep) as (Hs1&Hf1&Hfresh);
      destruct (allocArray h x) as [h1 a1] eqn:Halloc end.
    simpl in *. intros [= <- <-]. split; [done|split; [done|]].
    by intros a' n' [= <- <-].
Qed.

Lemma separated_sliceLit h hdr l2 vs h' s :
  separated h hdr l2 ->
  sliceLit h vs = (h', s) ->
  separated h' hdr l2 /\ same_at l2 h h'
  /\ forall a n, s = Slice a n -> ~ refs (mapOf h l2) a.
Proof.
  intros Hsep. unfold sliceLit.
  pose proof (separated_allocArray h hdr l2 vs Hsep) as (Hs1&Hf1&Hfresh).
  destruct (allocArray h vs) as [h1 a1]. simpl in *.
  intros [= <- <-]. split; [done|split; [done|]].
  by intros a' n' [= <- <-].
Qed.

Lemma separated_store_after h hdr l2 h1 s k :
  separated h1 hdr l2 -> same_at l2 h h1 ->
  (forall a n, s = Slice a n -> ~ refs (mapOf h l2) a) ->
  separated (mapStore h1 hdr k s) hdr l2
  /\ same_at l2 h (mapStore h1 hdr k s).
Proof.
  intros Hs1 Hf1 Hfresh.
  destruct (separated_mapStore h1 hdr l2 k s Hs1) as [Hs2 Hf2].
  { intros a n Hs. rewrite (proj1 Hf1). by eapply Hfresh. }
  split; [done|]. by eapply same_at_trans.
Qed.

Lemma same_at_refl l2 h : same_at l2 h h.
Proof. by split. Qed.

(** A mutation through [hdr] leaves alone a map that is separated from
    the one at [hdr], and leaves it separated. *)
Lemma mutate_separated h hdr l2 m h' :
  separated h hdr l2 ->
  Http.mutate h hdr m = Some h' ->
  separated h' hdr l2 /\ same_at l2 h h'.
Proof.
  intros Hsep. destruct m as [k v|k v|k|k [vs|]|k|k v|k i v];
    unfold Http.mutate.
  - unfold Set_. destruct (sliceLit h [v]) as [h1 s] eqn:Hlit.
    intros [= <-].
    destruct (separated_sliceLit _ _ _ _ _ _ Hsep Hlit) as (Hs1&Hf1&Hfresh).
    exact (separated_store_after _ _ _ _ _ _ Hs1 Hf1 Hfresh).
  - unfold Add. destruct (append h _ v) as [h1 s] eqn:Happ.
    intros [= <-].
    destruct (separated_append _ _ _ _ _ _ _ Hsep Happ) as (Hs1&Hf1&Hfresh).
    exact (separated_store_after _ _ _ _ _ _ Hs1 Hf1 Hfresh).
  - intros [= <-]. by apply separated_mapDelete.
  - destruct (sliceLit h vs) as [h1 s] eqn:Hlit.
    intros [= <-].
    destruct (separated_sliceLit _ _ _ _ _ _ Hsep Hlit) as (Hs1&Hf1&Hfresh).
    exact (separated_store_after _ _ _ _ _ _ Hs1 Hf1 Hfresh).
  - intros [= <-]. by apply separated_mapStore.
  - intros [= <-]. by apply separated_mapDelete.
  - destruct (append h _ v) as [h1 s] eqn:Happ. intros [= <-].
    destruct (separated_append _ _ _ _ _ _ _ Hsep Happ) as (Hs1&Hf1&Hfresh).
    exact (separated_store_after _ _ _ _ _ _ Hs1 Hf1 Hfresh).
  - unfold sliceStore. destruct (mapIndex h hdr k) as [|a n] eqn:Hidx; [done|].
    destruct (decide _); [|done]. intros [= <-].
    apply separated_setArray; [done|]. by eapply refs_mapIndex.
Qed.

Lemma mutateAll_separated ms : forall h hdr l2,
  separated h hdr l2 ->
  separated (Http.mutateAll h hdr ms) hdr l2
  /\ same_at l2 h (Http.mutateAll h hdr ms).
Proof.
  induction ms as [|m ms IH]; intros h hdr l2 Hsep; simpl.
  - split; [done|]. by split.
  - destruct (Http.mutate h hdr m) as [h'|] eqn:Hm.
    + destruct (mutate_separated _ _ _ _ _ Hsep Hm) as [Hs1 Hf1].
      destruct (IH _ _ _ Hs1) as [Hs2 Hf2].
      split; [done|]. by eapply same_at_trans.
    + split; [done|]. by split.
Qed.


Lemma wfHeader_mapStore h hdr k s :
  wfHeader h hdr ->
  (forall a n, s = Slice a n -> a < length (arrays h)) ->
  wfHeader (mapStore h hdr k s) hdr.
Proof.
  intros [Hlt Hwf] Hs. split; [simpl; by rewrite length_insert|].
  intros a Ha. simpl.
  destruct (mapOf_setMap_eq h hdr (<[k:=s]> (mapOf h hdr))) as [Heq|Heq];
    unfold mapStore in Ha; rewrite Heq in Ha; [|by apply Hwf].
  apply refs_insert in Ha as [Ha|[n ->]]; [by apply Hwf|by eapply Hs].
Qed.

Lemma wfHeader_mapDelete h hdr k :
  wfHeader h hdr -> wfHeader (mapDelete h hdr k) hdr.
Proof.
  intros [Hlt Hwf]. split; [simpl; by rewrite length_insert|].
  intros a Ha. simpl.
  destruct (mapOf_setMap_eq h hdr (delete k (mapOf h hdr))) as [Heq|Heq];
    unfold mapDelete in Ha; rewrite Heq in Ha; [|by apply Hwf].
  apply refs_delete in Ha. by apply Hwf.
Qed.

Lemma wfHeader_sliceLit h hdr vs h' s :
  wfHeader h hdr -> sliceLit h vs = (h', s) ->
  wfHeader h' hdr /\ forall a n, s = Slice a n -> a < length (arrays h').
Proof.
  intros [Hlt Hwf]. unfold sliceLit, allocArray. intros [= <- <-].
  split; [split; [done|]|].
  - intros a Ha. simpl. rewrite length_app. apply Hwf in Ha. lia.
  - intros a n [= <- <-]. simpl. rewrite length_app. simpl. lia.
Qed.

Lemma wfHeader_append h hdr k v h' s :
  wfHeader h hdr -> append h (mapIndex h hdr k) v = (h', s) ->
  wfHeader h' hdr /\ forall a n, s = Slice a n -> a < length (arrays h').
Proof.
  intros [Hlt Hwf]. unfold append. destruct (decide _) as [Hroom|Hfull].
  - destruct (mapIndex h hdr k) as [|a n] eqn:Hidx; simpl in *; [lia|].
    intros [= <- <-]. pose proof (refs_mapIndex _ _ _ _ _ Hidx) as Hr.
    split; [split; [done|]|].
    + intros a' Ha'. simpl. rewrite length_insert. by apply Hwf.
    + intros a' n' [= <- <-]. simpl. rewrite length_insert. by apply Hwf.
  - unfold allocArray. intros [= <- <-]. split; [split; [done|]|].
    + intros a Ha. simpl. rewrite length_app. apply Hwf in Ha. lia.
    + intros a n [= <- <-]. simpl. rewrite length_app. simpl. lia.
Qed.

Lemma mutate_wfHeader h hdr m h' :
  wfHeader h hdr -> Http.mutate h hdr m = Some h' -> wfHeader h' hdr.
Proof.
  intros Hwf. destruct m as [k v|k v|k|k [vs|]|k|k v|k i v];
    unfold Http.mutate.
  - unfold Set_. destruct (sliceLit h [v]) as [h1 s] eqn:Hlit.
    intros [= <-]. destruct (wfHeader_sliceLit _ _ _ _ _ Hwf Hlit).
    by apply wfHeader_mapStore.
  - unfold Add. destruct (append h _ v) as [h1 s] eqn:Happ.
    intros [= <-]. destruct (wfHeader_append _ _ _ _ _ _ Hwf Happ).
    by apply wfHeader_mapStore.
  - intros [= <-]. by apply wfHeader_mapDelete.
  - destruct (sliceLit h vs) as [h1 s] eqn:Hlit.
    intros [= <-]. destruct (wfHeader_sliceLit _ _ _ _ _ Hwf Hlit).
    by apply wfHeader_mapStore.
  - intros [= <-]. by apply wfHeader_mapStore.
  - intros [= <-]. by apply wfHeader_mapDelete.
  - destruct (append h _ v) as [h1 s] eqn:Happ.
    intros [= <-]. destruct (wfHeader_append _ _ _ _ _ _ Hwf Happ).
    by apply wfHeader_mapStore.
  - unfold sliceStore. destruct (mapIndex h hdr k) as [|a n] eqn:Hidx; [done|].
    destruct (decide _); [|done]. intros [= <-].
    destruct Hwf as [Hlt Hwf]. split; [done|].
    intros a' Ha'. simpl. rewrite length_insert. by apply Hwf.
Qed.

Lemma sliceElems_prefix h news maps' s :
  allocated h s ->
  sliceElems (mkHeap (arrays h ++ news) maps') s = sliceElems h s.
Proof.
  destruct s as [|a n]; simpl; [done|]. intros Ha.
  unfold arrayAt; simpl. by rewrite lookup_app_l.
Qed.

Lemma cloneEntry_cloning h seen hc k vv :
  allocated h vv ->
  cloning h seen hc ->
  cloning h (seen ++ [(k, vv)]) (cloneEntry (length (maps h)) hc (k, vv)).
Proof.
  intros Hvv (m2 & news & Hmaps & Harrs & Hval & Hdom).
  set (n := sliceLen vv). set (anew := length (arrays hc)).
  set (content := take (min n (sliceLen vv))
                       (sliceElems (mkHeap (arrays hc ++ [replicate n EmptyString])
                                           (maps hc)) vv)
                  ++ drop (min n (sliceLen vv)) (replicate n EmptyString)).
  assert (Hcontent : content = sliceElems h vv).
  { unfold content. rewrite Harrs, <- app_assoc, sliceElems_prefix by done.
    fold n. rewrite Nat.min_id, drop_replicate, Nat.sub_diag. simpl.
    rewrite app_nil_r. unfold n. destruct vv as [|a n']; simpl; [done|].
    by rewrite take_take, Nat.min_id. }
  assert (Hres : cloneEntry (length (maps h)) hc (k, vv)
                 = mkHeap (<[anew := content]> (arrays hc ++ [replicate n EmptyString]))
                          (<[length (maps h) := <[k := Slice anew n]> m2]> (maps hc))).
  { unfold cloneEntry, makeSlice, allocArray, copySlice, mapStore, setMap,
      setArray, mapOf, arrayAt; simpl. fold n anew.
    rewrite (lookup_app_r (arrays hc)) by (unfold anew; lia).
    unfold anew at 1. rewrite Nat.sub_diag. simpl.
    rewrite Hmaps. rewrite lookup_app_r, Nat.sub_diag by lia. simpl.
    unfold content. fold n. done. }
  rewrite Hres. clear Hres.
  assert (Hanew : <[anew := content]> (arrays hc ++ [replicate n EmptyString])
                  = arrays hc ++ [content]).
  { unfold anew. rewrite insert_app_r_alt, Nat.sub_diag by lia. done. }
  rewrite Hanew.
  exists (<[k := Slice anew n]> m2), (news ++ [content]). simpl.
  split; [|split; [|split]].
  - rewrite Hmaps. rewrite insert_app_r_alt, Nat.sub_diag by lia. done.
  - by rewrite Harrs, <- app_assoc.
  - intros k' s2 Hk'. destruct (decide (k = k')) as [<-|Hne].
    + rewrite lookup_insert_eq in Hk'. injection Hk' as <-.
      exists vv, anew. split; [set_solver|]. split; [done|].
      split; [unfold anew; rewrite Harrs, !length_app; simpl; lia|].
      unfold arrayAt. simpl. unfold anew.
      rewrite lookup_app_r, Nat.sub_diag by lia. simpl.
      rewrite Hcontent. unfold n. destruct vv as [|a n']; simpl; [done|].
      by rewrite take_take, Nat.min_id.
    + rewrite lookup_insert_ne in Hk' by done.
      destruct (Hval _ _ Hk') as (vv' & a & Hin & -> & [Hlo Hhi] & Htake).
      exists vv', a. split; [set_solver|]. split; [done|].
      split; [rewrite length_app; simpl; lia|].
      unfold arrayAt in *. simpl. by rewrite lookup_app_l by lia.
  - intros k' vv' Hin. destruct (decide (k = k')) as [<-|Hne].
    + rewrite lookup_insert_eq. by eexists.
    + rewrite lookup_insert_ne by done.
      apply elem_of_app in Hin as [Hin|Hin]; [by eapply Hdom|].
      apply list_elem_of_singleton in Hin. congruence.
Qed.

Lemma cloneLoop_cloning h todo : forall seen hc,
  Forall (fun kv => allocated h kv.2) todo ->
  cloning h seen hc ->
  cloning h (seen ++ todo) (foldl (cloneEntry (length (maps h))) hc todo).
Proof.
  induction todo as [|[k vv] todo IH]; intros seen hc Hall Hc; simpl.
  - by rewrite app_nil_r.
  - inversion Hall as [|? ? Hvv Hall']; subst.
    replace (seen ++ (k, vv) :: todo) with ((seen ++ [(k, vv)]) ++ todo)
      by by rewrite <- app_assoc.
    apply IH; [done|]. by apply cloneEntry_cloning.
Qed.

(** [cloneHeader]: the clone is a new map, it denotes what the original
    denotes (a nil value becoming an empty one), it shares nothing with
    the original, and the original is as it was. *)
Lemma cloneHeader_separated h hdr h1 h2 :
  wfHeader h hdr ->
  cloneHeader h hdr = (h1, h2) ->
  separated h1 hdr h2
  /\ headerValue h1 h2
     = (fun s => Some (sliceElems h s)) <$> mapOf h hdr
  /\ headerValue h1 hdr = headerValue h hdr
  /\ wfHeader h1 hdr.
Proof.
  intros [Hhdr Hwf]. unfold cloneHeader, allocMap. intros [= <- <-].
  set (m := mapOf h hdr).
  assert (Hinit : cloning h [] (mkHeap (arrays h) (maps h ++ [∅]))).
  { exists ∅, []. simpl. rewrite app_nil_r. repeat split; try done.
    intros k vv Hin. by apply elem_of_nil in Hin. }
  assert (Hall : Forall (fun kv => allocated h kv.2) (map_to_list m)).
  { apply Forall_forall. intros [k [|a n]] Hin; simpl; [done|].
    apply elem_of_map_to_list in Hin. apply Hwf. by exists k, n. }
  pose proof (cloneLoop_cloning h (map_to_list m) [] _ Hall Hinit) as Hc.
  simpl in Hc. set (h1 := foldl _ _ _) in *.
  destruct Hc as (m2 & news & Hmaps & Harrs & Hval & Hdom).
  assert (Hm2 : mapOf h1 (length (maps h)) = m2).
  { unfold mapOf. rewrite Hmaps, lookup_app_r, Nat.sub_diag by lia. done. }
  assert (Hold : mapOf h1 hdr = m).
  { unfold mapOf. rewrite Hmaps, lookup_app_l by lia. done. }
  split; [|split; [|split]].
  - split; [lia|]. intros a (k & n & Hk). rewrite Hm2 in Hk.
    destruct (Hval _ _ Hk) as (vv & a' & Hin & [= -> ->] & Hrange & _).
    split; [lia|]. rewrite Hold. intros Hr. apply Hwf in Hr. lia.
  - apply map_eq. intros k. unfold headerValue.
    rewrite Hm2, !lookup_fmap. fold m.
    destruct (m !! k) as [vv|] eqn:Hk.
    + apply elem_of_map_to_list in Hk as Hin.
      destruct (Hdom _ _ Hin) as [s2 Hs2]. rewrite Hs2. simpl.
      destruct (Hval _ _ Hs2) as (vv' & a & Hin' & -> & Hrange & Htake).
      apply elem_of_map_to_list in Hin'.
      assert (vv' = vv) as -> by congruence. simpl. by rewrite Htake.
    + destruct (m2 !! k) as [s2|] eqn:Hs2; [|done].
      destruct (Hval _ _ Hs2) as (vv' & a & Hin' & _).
      apply elem_of_map_to_list in Hin'. congruence.
  - apply same_at_headerValue. split; [done|].
    intros a Ha. apply Hwf in Ha. unfold arrayAt.
    by rewrite Harrs, lookup_app_l.
  - split; [rewrite Hmaps, length_app; lia|].
    intros a Ha. rewrite Hold in Ha. apply Hwf in Ha.
    rewrite Harrs, length_app. lia.
Qed.

End heap_facts.

(* ------------------------------------------------------------------ *)
(** ** The recorder: the effects of a run of the upstream handler *)
(* ------------------------------------------------------------------ *)

Section recorder_facts.
Import Recorder.

Lemma bind_run {A B} (m : M A) (f : A -> M B) wrote :
  (m ≫= f) wrote
  = let '(a, wrote1, es1) := m wrote in
    let '(b, wrote2, es2) := f a wrote1 in (b, wrote2, es1 ++ es2).
Proof. reflexivity. Qed.

Lemma WriteHeader_first code :
  WriteHeader code false
  = (tt, true, [ECloneHeader code; ESendHeader; EDownWriteHeader code]).
Proof. reflexivity. Qed.

Lemma WriteHeader_again code : WriteHeader code true = (tt, true, []).
Proof. reflexivity. Qed.

Lemma doCall_after c : doCall c true = (tt, true, afterHeaders c).
Proof. by destruct c. Qed.

Lemma doCall_quiet c :
  isTrigger c = false -> doCall c false = (tt, false, afterHeaders c).
Proof. by destruct c. Qed.

Lemma doCall_trigger c :
  isTrigger c = true ->
  doCall c false
  = (tt, true,
     ECloneHeader (codeOf c) :: ESendHeader :: EDownWriteHeader (codeOf c)
       :: afterHeaders c).
Proof. by destruct c. Qed.

Lemma serve_cons c next wrote :
  serve (c :: next) wrote
  = let '(_, wrote1, es1) := doCall c wrote in
    let '(_, wrote2, es2) := serve next wrote1 in (tt, wrote2, es1 ++ es2).
Proof.
  simpl. rewrite bind_run. destruct (doCall c wrote) as [[[] w1] es1].
  by destruct (serve next w1) as [[[] w2] es2].
Qed.

Lemma serve_after next :
  serve next true = (tt, true, flat_map afterHeaders next).
Proof.
  induction next as [|c next IH]; [done|].
  by rewrite serve_cons, doCall_after, IH.
Qed.

Lemma serve_quiet next :
  triggered next = false ->
  serve next false = (tt, false, flat_map afterHeaders next).
Proof.
  induction next as [|c next IH]; [done|].
  intros Hq. simpl in Hq. apply orb_false_elim in Hq as [Hc Hnext].
  by rewrite serve_cons, doCall_quiet, IH.
Qed.

Lemma serve_trigger pre c post :
  triggered pre = false -> isTrigger c = true ->
  serve (pre ++ c :: post) false
  = (tt, true,
     flat_map afterHeaders pre
     ++ ECloneHeader (codeOf c) :: ESendHeader :: EDownWriteHeader (codeOf c)
     :: afterHeaders c ++ flat_map afterHeaders post).
Proof.
  induction pre as [|c' pre IH]; intros Hpre Hc.
  - simpl app. by rewrite serve_cons, doCall_trigger, serve_after.
  - simpl in Hpre. apply orb_false_elim in Hpre as [Hc' Hpre].
    change ((c' :: pre) ++ c :: post) with (c' :: (pre ++ c :: post)).
    rewrite serve_cons, doCall_quiet, IH by done.
    simpl. by rewrite <- app_assoc.
Qed.

Lemma handle_run next wrote :
  handle next wrote
  = let '(_, wrote1, es1) := serve next wrote in (tt, wrote1, es1 ++ [ECloseBody]).
Proof.
  unfold handle. rewrite bind_run. by destruct (serve next wrote) as [[[] w1] es1].
Qed.

Lemma program_quiet next :
  triggered next = false ->
  program next = flat_map afterHeaders next ++ [ECloseBody].
Proof.
  intros Hq. unfold program, effects. by rewrite handle_run, serve_quiet.
Qed.

Lemma program_trigger pre c post :
  triggered pre = false -> isTrigger c = true ->
  program (pre ++ c :: post)
  = flat_map afterHeaders pre
    ++ ECloneHeader (codeOf c) :: ESendHeader :: EDownWriteHeader (codeOf c)
    :: afterHeaders c ++ flat_map afterHeaders post ++ [ECloseBody].
Proof.
  intros Hpre Hc. unfold program, effects.
  rewrite handle_run, serve_trigger by done. simpl.
  rewrite <- app_assoc. simpl. by rewrite <- app_assoc.
Qed.

(** A run with a trigger splits at its first trigger. *)
Lemma first_trigger next :
  triggered next = true ->
  exists pre c post,
    next = pre ++ c :: post /\ triggered pre = false /\ isTrigger c = true.
Proof.
  induction next as [|c next IH]; [done|]. simpl.
  destruct (isTrigger c) eqn:Hc.
  - intros _. by exists [], c, next.
  - simpl. intros (pre & c' & post & -> & Hpre & Hc')%IH.
    exists (c :: pre), c', post. simpl. by rewrite Hc.
Qed.

Lemma count_app f es1 es2 : count f (es1 ++ es2) = count f es1 + count f es2.
Proof. unfold count. by rewrite List.filter_app, length_app. Qed.

Lemma count_afterHeaders f next :
  (forall c, count f (afterHeaders c) = 0) ->
  count f (flat_map afterHeaders next) = 0.
Proof.
  intros Hf. induction next as [|c next IH]; [done|].
  simpl. by rewrite count_app, Hf, IH.
Qed.

Lemma count_program f next :
  (forall c, count f (afterHeaders c) = 0) -> f ECloseBody = false ->
  (forall code,
      count f [ECloneHeader code; ESendHeader; EDownWriteHeader code] = 1) ->
  count f (program next) = if triggered next then 1 else 0.
Proof.
  intros Hf Hclose Hone. destruct (triggered next) eqn:Ht.
  - destruct (first_trigger next Ht) as (pre & c & post & -> & Hpre & Hc).
    rewrite program_trigger by done.
    change (?a :: ?b :: ?c :: ?l) with ([a; b; c] ++ l).
    rewrite !count_app, !count_afterHeaders, Hf, Hone by done.
    unfold count. simpl. by rewrite Hclose.
  - rewrite program_quiet, count_app, count_afterHeaders by done.
    unfold count. simpl. by rewrite Hclose.
Qed.

Lemma program_WriteHeader_again pre code post :
  triggered pre = true ->
  program (pre ++ CallWriteHeader code :: post) = program (pre ++ post).
Proof.
  intros (p1 & c & p2 & -> & Hp1 & Hc)%first_trigger.
  rewrite <- !app_assoc. simpl.
  rewrite !program_trigger by done.
  by rewrite !flat_map_app.
Qed.

Lemma paired_afterHeaders c es : paired es -> paired (afterHeaders c ++ es).
Proof. by destruct c. Qed.

Lemma paired_flat_map next es :
  paired es -> paired (flat_map afterHeaders next ++ es).
Proof.
  intros Hes. induction next as [|c next IH]; [done|].
  simpl. rewrite <- app_assoc. by apply paired_afterHeaders.
Qed.

(** In the program of the recorder every write to the downstream client
    comes right after the send of the same bytes on the body channel. *)
Lemma paired_program next : paired (program next).
Proof.
  destruct (triggered next) eqn:Ht.
  - destruct (first_trigger next Ht) as (pre & c & post & -> & Hpre & Hc).
    rewrite program_trigger by done.
    apply paired_flat_map. simpl.
    apply paired_afterHeaders. by apply paired_flat_map.
  - rewrite program_quiet by done. by apply paired_flat_map.
Qed.

(** C5. Header delivery by the recorder is single-shot.  In a run of the
    upstream handler that calls [WriteHeader] or [Write] at all, the
    recorder sends exactly one event on the header channel and writes the
    status to the downstream writer exactly once (and never otherwise);
    both are the work of the first such call, with its status code (200 for
    a [Write]), right after what the calls before it did; and a
    [WriteHeader] that comes after such a call does nothing: the run is the
    run without it. *)
Theorem header_delivery_is_single_shot (next : list call) :
  count isSendHeader (program next) = (if triggered next then 1 else 0)
  /\ count isCloneHeader (program next) = (if triggered next then 1 else 0)
  /\ count isDownWriteHeader (program next)
     = (if triggered next then 1 else 0)
  /\ (forall pre c post,
        next = pre ++ c :: post -> triggered pre = false ->
        isTrigger c = true ->
        program next
        = flat_map afterHeaders pre
          ++ ECloneHeader (codeOf c) :: ESendHeader
          :: EDownWriteHeader (codeOf c)
          :: afterHeaders c ++ flat_map afterHeaders post ++ [ECloseBody])
  /\ (forall pre code post,
        next = pre ++ CallWriteHeader code :: post -> triggered pre = true ->
        program next = program (pre ++ post)).
Proof.
  split; [|split; [|split; [|split]]].
  - apply count_program; try done. by intros [].
  - apply count_program; try done. by intros [].
  - apply count_program; try done. by intros [].
  - intros pre c post -> Hpre Hc. by apply program_trigger.
  - intros pre code post -> Hpre. by apply program_WriteHeader_again.
Qed.

End recorder_facts.

(* ------------------------------------------------------------------ *)
(** ** [matchesRequest] *)
(* ------------------------------------------------------------------ *)

Section matches_facts.
Import Heap Handler.

Lemma DeepEqual_spec h a b :
  Http.DeepEqual h a b = true <-> sliceValue h a = sliceValue h b.
Proof.
  destruct a as [|a n], b as [|b m]; simpl; try done.
  rewrite bool_decide_eq_true. split; [by intros ->|by intros [= ->]].
Qed.

Lemma varyLoop_spec h stored current pieces :
  varyLoop h stored current pieces = true
  <-> forall name, name ∈ map GoStrings.TrimSpace pieces ->
                   valuesOf h stored name = valuesOf h current name.
Proof.
  induction pieces as [|p pieces IH]; simpl.
  - split; [|done]. intros _ name Hin. by apply elem_of_nil in Hin.
  - destruct (Http.DeepEqual h _ _) eqn:Heq; simpl.
    + rewrite IH. apply DeepEqual_spec in Heq. split.
      * intros Hall name [->|Hin]%elem_of_cons; [done|by apply Hall].
      * intros Hall name Hin. apply Hall. by right.
    + split; [done|]. intros Hall.
      assert (Http.DeepEqual h (mapIndex h stored (GoStrings.TrimSpace p))
                (mapIndex h current (GoStrings.TrimSpace p)) = true) as Ht.
      { apply DeepEqual_spec. apply Hall. by left. }
      congruence.
Qed.




End matches_facts.

(* ------------------------------------------------------------------ *)
(** ** The goroutines of a request sent upstream *)
(* ------------------------------------------------------------------ *)

Section fetch_facts.
Import Heap Recorder Fetch.
Context `{GrowthPolicy} `{Freshness}.
Variable ch : CacheHandler.
Variable now : Z.
Variable r : Http.Request.

(** What holds at the start and is kept by every step holds after every
    schedule. *)
Lemma run_invariant (P : state -> Prop) :
  (forall s g s', P s -> step ch now r g s = Some s' -> P s') ->
  forall sched s, P s -> P (run ch now r sched s).
Proof.
  intros Hstep. induction sched as [|g sched IH]; intros s Hs; [done|].
  simpl. apply IH. destruct (step ch now r g s) as [s'|] eqn:Hg; [|done].
  by eapply Hstep.
Qed.

Lemma run_app sched1 sched2 s :
  run ch now r (sched1 ++ sched2) s
  = run ch now r sched2 (run ch now r sched1 s).
Proof. revert s. induction sched1 as [|g sched1 IH]; intros s; [done|]. apply IH. Qed.

Lemma paired_tail e rest :
  paired (e :: rest) ->
  match e with ESendBody _ | EDownWrite _ => False | _ => True end ->
  paired rest /\ shape rest /\ inflight rest = []
  /\ match rest with EDownWrite _ :: _ => False | _ => True end.
Proof.
  intros Hp He.
  assert (paired rest) as Hrest by by destruct e.
  split; [done|]. by destruct rest as [|[] rest'].
Qed.

Lemma shape_paired rest :
  shape rest -> match rest with EDownWrite _ :: _ => False | _ => True end ->
  paired rest.
Proof. by destruct rest as [|[] ?]. Qed.

Lemma NewContent_empty st open key c :
  Storage.NewContent st open key = inl c -> Storage.contentData c = [].
Proof.
  unfold Storage.NewContent. destruct st; [by intros [= <-]|].
  destruct open; [done|]. by intros [= <-].
Qed.

Lemma wBody_WriteHeader h w code :
  Http.wBody (Http.Writer_WriteHeader h w code) = Http.wBody w.
Proof. unfold Http.Writer_WriteHeader. by destruct (Http.wCode w). Qed.

Lemma contentData_Write c p :
  Storage.contentData (Storage.ContentWrite c p) = Storage.contentData c ++ p.
Proof. by destruct c. Qed.

Lemma contentData_Close c :
  Storage.contentData (Storage.ContentClose c) = Storage.contentData c.
Proof. by destruct c. Qed.

Ltac body_solve :=
  rewrite ?app_nil_r in *;
  repeat match goal with
  | |- _ /\ _ => split
  | |- _ -> _ => intro
  | H : ?x = ?x -> _ |- _ => specialize (H eq_refl)
  | H : True -> _ |- _ => specialize (H I)
  | H : ?P -> _, H' : ?P |- _ => specialize (H H')
  | H : _ /\ _ |- _ => destruct H
  end;
  simplify_eq/=; try done; try congruence; eauto.

Lemma bodyInv_step body0 s g s' :
  bodyInv body0 s -> step ch now r g s = Some s' -> bodyInv body0 s'.
Proof.
  intros (delivered & Hbody & Hrec & Hshape & Hgo & Hearly & Hns & Hcop) Hstep.
  unfold step in Hstep. destruct (panicked s) eqn:Hpanic; [done|].
  unfold bodyInv, remaining, recorded, copierOk in *.
  destruct g.
  - (* the upstream goroutine *)
    unfold stepUpstream in Hstep.
    destruct (upstream s) as [[|e rest]|] eqn:Hup; try done.
    simpl in Hshape, Hrec, Hns, Hgo.
    assert (Hnogo : handler s <> AtGo) by (intros Hg; by specialize (Hgo Hg)).
    destruct e; simpl in Hstep.
    + destruct (paired_tail (EHeader m) rest Hshape I) as (Hp & Hs & Hi & Hh).
      destruct (Http.mutate _ _ _); simplify_eq/=;
        exists delivered; simpl; rewrite ?Hup; simpl; rewrite ?Hi; body_solve.
    + destruct (paired_tail (ECloneHeader code) rest Hshape I) as (Hp & Hs & Hi & Hh).
      simplify_eq/=.
      exists delivered; simpl; rewrite ?Hup; simpl; rewrite ?Hi; body_solve.
    + destruct (paired_tail ESendHeader rest Hshape I) as (Hp & Hs & Hi & Hh).
      destruct (handler s) eqn:Hh'; try done.
      destruct (event s); simplify_eq/=.
      exists delivered; simpl; rewrite ?Hup; simpl; rewrite ?Hi; body_solve.
    + destruct (paired_tail (EDownWriteHeader code) rest Hshape I) as (Hp & Hs & Hi & Hh).
      simplify_eq/=. rewrite wBody_WriteHeader.
      exists delivered; simpl; rewrite ?Hup; simpl; rewrite ?Hi; body_solve.
    + (* the send on the body channel *)
      destruct rest as [|[] rest']; try done. destruct Hshape as [<- Hp].
      destruct (copier s) eqn:Hc; simplify_eq/=.
      exists delivered. body_solve.
    + (* the write to the downstream client *)
      simplify_eq/=. rewrite wBody_WriteHeader, Hbody.
      exists (delivered ++ buf).
      assert (Hrest : inflight rest = []
                      /\ match rest with EDownWrite _ :: _ => False | _ => True end
                      /\ shape rest).
      { by destruct rest as [|[] ?]. }
      destruct Hrest as (Hi & Hh & Hs). rewrite Hi, app_nil_r, app_assoc.
      body_solve.
    + destruct (paired_tail EDownFlush rest Hshape I) as (Hp & Hs & Hi & Hh).
      destruct (Http.wIsFlusher (w s)); simplify_eq/=;
        exists delivered; simpl; rewrite ?Hup; simpl; rewrite ?Hi; body_solve.
    + destruct (paired_tail ECloseBody rest Hshape I) as (Hp & Hs & Hi & Hh).
      simplify_eq/=. exists delivered; simpl; rewrite ?Hup; simpl; rewrite ?Hi; body_solve.
  - (* the goroutine of the handler *)
    unfold stepHandler in Hstep.
    destruct (handler s) eqn:Hh.
    + simplify_eq/=. rewrite (Hgo eq_refl) in *. simpl in *.
      pose proof (paired_program (Next ch)) as Hp.
      exists delivered. rewrite Hrec.
      assert (Hi : inflight (program (Next ch)) = []
                   /\ match program (Next ch) with
                      | EDownWrite _ :: _ => False | _ => True end
                   /\ shape (program (Next ch))).
      { by destruct (program (Next ch)) as [|[] ?]. }
      destruct Hi as (Hi & Hh' & Hs). rewrite Hi. body_solve.
    + done.
    + destruct (getCacheableStatus _ _ _ _ _ _) as [[[] exp] [err|]];
        simplify_eq/=; try solve [exists delivered; body_solve].
      destruct (Storage.NewContent _ _ _) as [c|err] eqn:Hnew;
        simplify_eq/=; try solve [exists delivered; body_solve].
      specialize (Hearly I). rewrite Hearly in *. destruct (Hns eq_refl) as [Hi Hhd].
      rewrite Hi, app_nil_r in Hrec. subst delivered.
      exists []. rewrite lookup_app_r, Nat.sub_diag by lia. simpl.
      rewrite (NewContent_empty _ _ _ _ Hnew), Hi, length_app. simpl.
      body_solve. lia.
    + simplify_eq/=. exists delivered. body_solve.
    + destruct ret as [entry []|err]; simplify_eq/=; exists delivered; body_solve.
    + done.
    + done.
  - (* the goroutine that fills the content *)
    unfold stepCopier in Hstep.
    destruct (copier s) eqn:Hc; try done.
    + destruct (bodyClosed s); simplify_eq/=. exists delivered. body_solve.
    + destruct (contents s !! bodyWriter) as [c|] eqn:Hlook; simplify_eq/=.
      * exists delivered.
        rewrite list_lookup_insert_eq, length_insert by done. simpl.
        rewrite contentData_Write, Hrec. body_solve.
      * apply lookup_ge_None in Hlook. lia.
    + destruct (contents s !! bodyWriter) as [c|] eqn:Hlook; simplify_eq/=.
      * exists delivered.
        rewrite list_lookup_insert_eq, length_insert by done. simpl.
        rewrite contentData_Close, Hrec. body_solve.
      * apply lookup_ge_None in Hlook. lia.
    + destruct (handler s) eqn:Hh; simplify_eq/=. exists delivered. body_solve.
Qed.

Lemma bodyInv_init h0 w0 index : bodyInv (Http.wBody w0) (init h0 w0 index).
Proof. exists []. rewrite app_nil_r. by repeat split. Qed.



Lemma wHeader_WriteHeader h w code :
  Http.wHeader (Http.Writer_WriteHeader h w code) = Http.wHeader w.
Proof. unfold Http.Writer_WriteHeader. by destruct (Http.wCode w). Qed.

Lemma count_cons f e es :
  count f (e :: es) = (if f e then 1 else 0) + count f es.
Proof. unfold count. simpl. by destruct (f e). Qed.

Lemma AddStatus_mutate cfg h w status :
  Handler.AddStatusHeaderIfConfigured cfg h w status = h
  \/ Http.mutate h (Http.wHeader w) (Http.MSet (StatusHeader cfg) status)
     = Some (Handler.AddStatusHeaderIfConfigured cfg h w status).
Proof.
  unfold Handler.AddStatusHeaderIfConfigured.
  destruct (decide _); [by right|by left].
Qed.

Ltac ev_solve :=
  repeat match goal with
  | |- _ /\ _ => split
  | |- forall _, _ => intro
  | H : ?x = ?x -> _ |- _ => specialize (H eq_refl)
  | H : ?a = ?b -> _, H' : ?a = ?b |- _ => specialize (H H')
  | H : _ /\ _ |- _ => destruct H
  | H : _ \/ _ |- _ => destruct H
  end;
  simplify_eq/=; try done; try congruence; try lia;
  try match goal with
      | Hev : context [separated], H1 : event _ = Some ?ev |- _ =>
          solve [destruct (Hev ev (or_introl H1)) as [? ?]; first [done|lia]]
      | Hev : context [separated], H1 : handler _ = AtCacheable ?ev |- _ =>
          solve [destruct (Hev ev (or_intror H1)) as [? ?]; first [done|lia]]
      end.

Lemma frameInv_step hdr0 l2 v s g s' :
  frameInv hdr0 l2 v s -> step ch now r g s = Some s' -> frameInv hdr0 l2 v s'.
Proof.
  intros (Hw & Hgo & Hsep & Hcl & Hv) Hstep.
  unfold step in Hstep. destruct (panicked s) eqn:Hpanic; [done|].
  unfold frameInv, remaining in *.
  destruct g.
  - unfold stepUpstream in Hstep.
    destruct (upstream s) as [[|e rest]|] eqn:Hup; try done.
    simpl in Hcl. rewrite count_cons in Hcl.
    destruct e; simpl in Hstep, Hcl; try lia.
    + destruct (Http.mutate _ _ _) as [h'|] eqn:Hm; simplify_eq/=.
      * destruct (mutate_separated _ _ _ _ _ Hsep Hm) as [Hs1 Hf1].
        rewrite (same_at_headerValue _ _ _ Hf1). ev_solve.
      * rewrite Hup. simpl. rewrite count_cons. ev_solve.
    + destruct (handler s) eqn:Hh; try done.
      destruct (event s); simplify_eq/=. ev_solve.
    + simplify_eq/=. rewrite wHeader_WriteHeader. ev_solve.
    + destruct (copier s); simplify_eq/=. ev_solve.
    + simplify_eq/=. rewrite wHeader_WriteHeader. ev_solve.
    + destruct (Http.wIsFlusher (w s)); simplify_eq/=; ev_solve.
    + simplify_eq/=. ev_solve.
  - unfold stepHandler in Hstep.
    destruct (handler s) eqn:Hh; try done.
    + destruct (getCacheableStatus _ _ _ _ _ _) as [[[] exp] [err|]];
        simplify_eq/=; try solve [ev_solve].
      destruct (Storage.NewContent _ _ _) as [c|err] eqn:Hnew;
        simplify_eq/=; ev_solve.
    + simplify_eq/=.
      destruct (AddStatus_mutate (Config_ ch) (heap_ s) (w s) "miss")
        as [Heq|Hm].
      * rewrite Heq. ev_solve.
      * destruct (mutate_separated _ _ _ _ _ Hsep Hm) as [Hs1 Hf1].
        rewrite (same_at_headerValue _ _ _ Hf1). ev_solve.
    + destruct ret as [entry []|err]; simplify_eq/=; ev_solve.
  - unfold stepCopier in Hstep.
    destruct (copier s) eqn:Hc; try done.
    + destruct (bodyClosed s); simplify_eq/=. ev_solve.
    + destruct (contents s !! bodyWriter); simplify_eq/=; ev_solve.
    + destruct (contents s !! bodyWriter); simplify_eq/=; ev_solve.
    + destruct (handler s) eqn:Hh; simplify_eq/=. ev_solve.
Qed.

Lemma clonesLeft_program next : count isCloneHeader (program next) <= 1.
Proof.
  rewrite count_program; [destruct (triggered next); lia| |done|done].
  by intros [].
Qed.

Lemma eventInv_step hdr0 s g s' :
  eventInv hdr0 (Next ch) s -> step ch now r g s = Some s' ->
  eventInv hdr0 (Next ch) s'.
Proof.
  intros (Hw & Hwf & Hgo & Hcl & Hev) Hstep.
  unfold step in Hstep. destruct (panicked s) eqn:Hpanic; [done|].
  unfold eventInv, clonesLeft in *.
  destruct g.
  - unfold stepUpstream in Hstep.
    destruct (upstream s) as [[|e rest]|] eqn:Hup; try done.
    assert (Hnogo : handler s <> AtGo).
    { intros Hg. by destruct (Hgo Hg). }
    rewrite count_cons in Hcl, Hev.
    destruct e; simpl in Hstep, Hcl, Hev.
    + destruct (Http.mutate _ _ _) as [h'|] eqn:Hm; simplify_eq/=.
      * pose proof (mutate_wfHeader _ _ _ _ Hwf Hm) as Hwf'.
        split; [done|]. split; [done|]. split; [done|]. split; [done|].
        intros ev Hhas. destruct (Hev ev Hhas) as [Hsep Hz].
        by destruct (mutate_separated _ _ _ _ _ Hsep Hm).
      * rewrite Hup, count_cons. simpl. ev_solve.
    + destruct (cloneHeader (heap_ s) (Http.wHeader (w s))) as [h1 h2] eqn:Hclone.
      subst hdr0.
      destruct (cloneHeader_separated _ _ _ _ Hwf Hclone) as (Hsep & _ & _ & Hwf').
      unfold cloneHeader, allocMap in Hclone. simplify_eq/=.
      split; [done|]. split; [done|]. split; [done|]. split; [lia|].
      intros ev [[= <-]|Hh]; simpl; [split; [done|lia]|].
      destruct (Hev ev (or_intror Hh)). lia.
    + destruct (handler s) eqn:Hh; try done.
      destruct (event s) as [ev|] eqn:Hevent; simplify_eq/=.
      split; [done|]. split; [done|]. split; [done|]. split; [done|].
      intros ev' [?|[= <-]]; [done|]. by apply Hev; left.
    + simplify_eq/=. rewrite wHeader_WriteHeader. ev_solve.
    + destruct (copier s); simplify_eq/=. ev_solve.
    + simplify_eq/=. rewrite wHeader_WriteHeader. ev_solve.
    + destruct (Http.wIsFlusher (w s)); simplify_eq/=; ev_solve.
    + simplify_eq/=. ev_solve.
  - unfold stepHandler in Hstep.
    destruct (handler s) eqn:Hh; simpl in Hstep; try done.
    + destruct (Hgo eq_refl) as [Hup Hevent]. rewrite Hup in *.
      simplify_eq/=. split; [done|]. split; [done|]. split; [done|].
      split; [done|]. intros ev [?|?]; congruence.
    + destruct (getCacheableStatus _ _ _ _ _ _) as [[[] exp] [err|]];
        simplify_eq/=; try solve [ev_solve].
      destruct (Storage.NewContent _ _ _) as [c|err] eqn:Hnew;
        simplify_eq/=; ev_solve.
    + simplify_eq/=.
      destruct (AddStatus_mutate (Config_ ch) (heap_ s) (w s) "miss")
        as [Heq|Hm].
      * rewrite Heq. ev_solve.
      * pose proof (mutate_wfHeader _ _ _ _ Hwf Hm) as Hwf'.
        split; [done|]. split; [done|]. split; [done|]. split; [done|].
        intros ev [Hhas|?]; [|done].
        destruct (Hev ev (or_introl Hhas)) as [Hsep Hz].
        destruct (mutate_separated _ _ _ _ _ Hsep Hm) as [Hs1 _].
        split; [exact Hs1|exact Hz].
    + destruct ret as [entry []|err]; simplify_eq/=; ev_solve.
  - unfold stepCopier in Hstep.
    destruct (copier s) eqn:Hc; try done.
    + destruct (bodyClosed s); simplify_eq/=. ev_solve.
    + destruct (contents s !! bodyWriter); simplify_eq/=; ev_solve.
    + destruct (contents s !! bodyWriter); simplify_eq/=; ev_solve.
    + destruct (handler s) eqn:Hh; simplify_eq/=.
      split; [done|]. split; [done|]. split; [done|]. split; [done|].
      intros ev [Hhas|?]; [|done]. by apply Hev; left.
Qed.

Lemma eventInv_init h0 w0 index :
  wfHeader h0 (Http.wHeader w0) ->
  eventInv (Http.wHeader w0) (Next ch) (init h0 w0 index).
Proof.
  intros Hwf. split; [done|]. split; [done|]. split; [done|].
  split; [apply clonesLeft_program|]. by intros ev [?|?].
Qed.

Lemma pendingHeaders_quiet pre es next' :
  triggered pre = false ->
  pendingHeaders es = headersBefore next' ->
  pendingHeaders (flat_map afterHeaders pre ++ es)
  = headersBefore (pre ++ next').
Proof.
  intros Hpre Hes. induction pre as [|c pre IH]; [done|].
  simpl in Hpre. apply orb_false_elim in Hpre as [Hc Hpre].
  destruct c; try done; simpl; by rewrite IH.
Qed.

Lemma pendingHeaders_program next :
  pendingHeaders (program next) = headersBefore next.
Proof.
  destruct (triggered next) eqn:Ht.
  - destruct (first_trigger next Ht) as (pre & c & post & -> & Hpre & Hc).
    rewrite program_trigger by done.
    apply pendingHeaders_quiet; [done|]. by destruct c.
  - rewrite program_quiet by done.
    rewrite <- (app_nil_r next) at 2. by apply pendingHeaders_quiet.
Qed.

Lemma cloned_headerValue h hdr :
  (fun s => Some (sliceElems h s)) <$> mapOf h hdr
  = cloned (headerValue h hdr).
Proof.
  unfold cloned, headerValue. rewrite <- map_fmap_compose.
  apply map_fmap_ext. intros k s _. by destruct s.
Qed.

Ltac cl_solve :=
  repeat match goal with
  | |- _ /\ _ => split
  | |- forall _, _ => intro
  | H : ?x = ?x -> _ |- _ => specialize (H eq_refl)
  | H : ?a = ?b -> _, H' : ?a = ?b |- _ => specialize (H H')
  | H : _ /\ _ |- _ => destruct H
  | H : _ \/ _ |- _ => destruct H
  end;
  simplify_eq/=; try done; try congruence; try lia;
  try solve [by left | by right];
  try match goal with
      | Hv : forall ev, _ -> headerValue _ _ = _ |- headerValue _ _ = _ =>
          solve [apply Hv; first [by left|by right]]
      end.

Lemma cloneInv_step h0 hdr0 s g s' :
  eventInv hdr0 (Next ch) s -> cloneInv h0 hdr0 (Next ch) s ->
  step ch now r g s = Some s' -> cloneInv h0 hdr0 (Next ch) s'.
Proof.
  intros (Hw & Hwf & Hgo & Hcl & Hev) (Hnone & Hpend & Hval) Hstep.
  subst hdr0.
  unfold step in Hstep. destruct (panicked s) eqn:Hpanic; [done|].
  unfold cloneInv, clonesLeft in *.
  destruct g.
  - unfold stepUpstream in Hstep.
    destruct (upstream s) as [[|e rest]|] eqn:Hup; try done.
    clear Hnone. rewrite count_cons in Hcl, Hev, Hpend.
    destruct e; simpl in Hstep, Hcl, Hev, Hpend.
    + destruct (Http.mutate _ _ _) as [h'|] eqn:Hm; simplify_eq/=.
      * split; [done|]. split.
        -- intros Hone. destruct (Hpend Hone) as [Hh Hall].
           split; [done|]. exact Hall.
        -- intros ev Hhas. destruct (Hev ev Hhas) as [Hsep _].
           destruct (mutate_separated _ _ _ _ _ Hsep Hm) as [_ Hsame].
           rewrite (same_at_headerValue _ _ _ Hsame). by apply Hval.
      * rewrite Hup. simpl. rewrite count_cons. simpl. rewrite Hm.
        split; [done|]. split; [done|]. done.
    + destruct (cloneHeader (heap_ s) (Http.wHeader (w s))) as [h1 h2]
        eqn:Hclone.
      assert (Hone : S (count isCloneHeader rest) = 1) by lia.
      destruct (Hpend Hone) as [Hh Hall]. simpl in Hall.
      destruct (cloneHeader_separated _ _ _ _ Hwf Hclone)
        as (_ & Hv & _ & _).
      unfold cloneHeader, allocMap in Hclone.
      simplify_eq/=. split; [done|]. split; [intros; lia|].
      intros ev [[= <-]|Hat]; simpl.
      * by rewrite Hv, cloned_headerValue, Hall.
      * destruct Hh as [Hh|Hh]; congruence.
    + destruct (handler s) eqn:Hh; try done.
      destruct (event s) as [ev|] eqn:Hevent; simplify_eq/=.
      split; [done|]. split.
      * intros Hone. destruct (Hev ev (or_introl eq_refl)). lia.
      * intros ev' [?|[= <-]]; [done|]. by apply Hval; left.
    + simplify_eq/=. cl_solve.
    + destruct (copier s); simplify_eq/=. cl_solve.
    + simplify_eq/=. cl_solve.
    + destruct (Http.wIsFlusher (w s)); simplify_eq/=; cl_solve.
    + simplify_eq/=. cl_solve.
  - unfold stepHandler in Hstep.
    destruct (handler s) eqn:Hh; simpl in Hstep; try done.
    + destruct (Hgo eq_refl) as [Hup Hevent]. rewrite Hup in *.
      destruct (Hnone eq_refl) as [_ Hheap].
      simplify_eq/=. split; [done|]. split.
      * intros Hone. destruct (Hpend Hone) as [_ Hall]. split; [by right|done].
      * intros ev [?|?]; congruence.
    + assert (Hup : upstream s <> None).
      { intros Hup. destruct (Hnone Hup). congruence. }
      destruct (getCacheableStatus _ _ _ _ _ _) as [[[] exp] [err|]];
        simplify_eq/=; try solve [cl_solve].
      destruct (Storage.NewContent _ _ _) as [c|err] eqn:Hnew;
        simplify_eq/=; cl_solve.
    + assert (Hup : upstream s <> None).
      { intros Hup. destruct (Hnone Hup). congruence. }
      simplify_eq/=. split; [done|]. split.
      * intros Hone. destruct (Hpend Hone) as [[?|?] _]; congruence.
      * intros ev [Hhas|?]; [|done].
        destruct (AddStatus_mutate (Config_ ch) (heap_ s) (w s) "miss")
          as [Heq|Hm].
        -- rewrite Heq. by apply Hval; left.
        -- destruct (Hev ev (or_introl Hhas)) as [Hsep _].
           destruct (mutate_separated _ _ _ _ _ Hsep Hm) as [_ Hsame].
           rewrite (same_at_headerValue _ _ _ Hsame). by apply Hval; left.
    + assert (Hup : upstream s <> None).
      { intros Hup. destruct (Hnone Hup). congruence. }
      destruct ret as [entry []|err]; simplify_eq/=; cl_solve.
  - unfold stepCopier in Hstep.
    destruct (copier s) eqn:Hc; try done.
    + destruct (bodyClosed s); simplify_eq/=. cl_solve.
    + destruct (contents s !! bodyWriter); simplify_eq/=; cl_solve.
    + destruct (contents s !! bodyWriter); simplify_eq/=; cl_solve.
    + destruct (handler s) eqn:Hh; simplify_eq/=.
      split; [intros Hup; by destruct (Hnone Hup)|]. split.
      * intros Hone. destruct (Hpend Hone) as [[?|?] _]; congruence.
      * intros ev [Hhas|?]; [|done]. by apply Hval; left.
Qed.

Lemma cloneInv_init h0 w0 index :
  cloneInv h0 (Http.wHeader w0) (Next ch) (init h0 w0 index).
Proof.
  split; [done|]. split.
  - intros _. split; [by left|]. simpl. by rewrite pendingHeaders_program.
  - by intros ev [?|?].
Qed.

(** C9. The event of the header channel carries a deep clone of the
    header map of the downstream writer.  In any state in which the
    handler has received the event, its header map denotes the copy of
    what the headers of the downstream writer denoted when the recorder
    built it: the headers the writer had, changed as the upstream handler
    changed them before its first [WriteHeader] or [Write].  And from
    then on, whatever the goroutines go on to do (the upstream handler
    changing [rw.Header()] in any way, the handler setting its status
    header) and whatever mutations of the downstream headers follow, the
    header map of the event denotes what it denoted when it was
    received. *)
Theorem header_event_is_a_deep_clone
    (h0 : heap) (w0 : Http.ResponseWriter)
    (index : gmap string (list HttpCacheEntry))
    (before after : list goroutine) (later : list Http.mutation)
    (headers : HttpHeader) :
  wfHeader h0 (Http.wHeader w0) ->
  handler (run ch now r before (init h0 w0 index)) = AtCacheable headers ->
  headerValue (heap_ (run ch now r before (init h0 w0 index)))
              (Header headers)
  = cloned (headerValue
              (Http.mutateAll h0 (Http.wHeader w0) (headersBefore (Next ch)))
              (Http.wHeader w0))
  /\ headerValue
       (Http.mutateAll
          (heap_ (run ch now r (before ++ after) (init h0 w0 index)))
          (Http.wHeader w0) later)
       (Header headers)
     = headerValue (heap_ (run ch now r before (init h0 w0 index)))
                   (Header headers).
Proof.
  intros Hwf Hrecv. set (s1 := run ch now r before (init h0 w0 index)) in *.
  assert (eventInv (Http.wHeader w0) (Next ch) s1
          /\ cloneInv h0 (Http.wHeader w0) (Next ch) s1)
    as [(Hw & _ & _ & _ & Hev) (_ & _ & Hval)].
  { apply (run_invariant
             (fun s => eventInv (Http.wHeader w0) (Next ch) s
                       /\ cloneInv h0 (Http.wHeader w0) (Next ch) s)).
    - intros s g s' [He Hc] Hstep. split.
      + by eapply eventInv_step.
      + by eapply cloneInv_step.
    - split; [by apply eventInv_init|apply cloneInv_init]. }
  split; [by apply Hval; right|].
  destruct (Hev headers (or_intror Hrecv)) as [Hsep Hz].
  assert (Hframe : frameInv (Http.wHeader w0) (Header headers)
                     (headerValue (heap_ s1) (Header headers)) s1).
  { split; [done|]. split; [congruence|]. split; [done|]. split; [|done].
    unfold clonesLeft in Hz. unfold remaining.
    by destruct (upstream s1). }
  rewrite run_app. fold s1.
  pose proof (run_invariant _ (frameInv_step _ _ _) after _ Hframe)
    as (_ & _ & Hsep2 & _ & Hv2).
  destruct (mutateAll_separated later _ _ _ Hsep2) as [_ Hsame].
  by rewrite (same_at_headerValue _ _ _ Hsame).
Qed.

(** Every schedule ends in a set of states that holds the start and is
    closed under the steps. *)
Lemma closed_run states s0 :
  Explore.closed ch now r states = true -> s0 ∈ states ->
  forall sched, run ch now r sched s0 ∈ states.
Proof.
  intros Hclosed Hs0 sched.
  apply (run_invariant (fun s => s ∈ states)); [|done].
  intros s g s' Hs Hstep.
  unfold Explore.closed in Hclosed. rewrite forallb_forall in Hclosed.
  apply list_elem_of_In, Hclosed in Hs. rewrite forallb_forall in Hs.
  assert (Hin : s' ∈ Explore.successors ch now r s).
  { unfold Explore.successors. apply list_elem_of_omap.
    exists g. split; [|done]. destruct g; set_solver. }
  apply list_elem_of_In, Hs in Hin. by apply bool_decide_eq_true in Hin.
Qed.

Lemma closed_run_forall (P : state -> bool) states s0 :
  Explore.closed ch now r states = true -> s0 ∈ states ->
  forallb P states = true ->
  forall sched, P (run ch now r sched s0) = true.
Proof.
  intros Hclosed Hs0 HP sched. rewrite forallb_forall in HP.
  apply HP, list_elem_of_In. by apply closed_run.
Qed.
End fetch_facts.

(* ------------------------------------------------------------------ *)
(** ** The in-memory buffer *)
(* ------------------------------------------------------------------ *)

Section memory_data.
Import Storage.

Lemma doCalls_app buff cs1 cs2 :
  doCalls buff (cs1 ++ cs2) = doCalls (doCalls buff cs1) cs2.
Proof. apply foldl_app. Qed.

Lemma writtenBy_app cs1 cs2 :
  writtenBy (cs1 ++ cs2) = writtenBy cs1 ++ writtenBy cs2.
Proof.
  induction cs1 as [|c cs1 IH]; simpl; [done|].
  destruct c; rewrite IH; try done. by rewrite app_assoc.
Qed.

Lemma data_doCall buff c : data (doCall buff c) = data buff ++ writtenBy [c].
Proof.
  destruct c; simpl; rewrite ?app_nil_r; try done.
  unfold GetReader. by destruct (isClosed buff).
Qed.

Lemma data_doCalls cs : forall buff,
  data (doCalls buff cs) = data buff ++ writtenBy cs.
Proof.
  induction cs as [|c cs IH]; intros buff; simpl.
  - by rewrite app_nil_r.
  - unfold doCalls in IH. rewrite IH, data_doCall. simpl.
    destruct c; simpl; rewrite ?app_nil_r, <- ?app_assoc; done.
Qed.

Lemma isClosed_doCall buff c :
  isClosed buff = true -> isClosed (doCall buff c) = true.
Proof.
  intros Hc. destruct c; simpl; try done.
  unfold GetReader. by rewrite Hc.
Qed.

Lemma isClosed_doCalls cs : forall buff,
  isClosed buff = true -> isClosed (doCalls buff cs) = true.
Proof.
  induction cs as [|c cs IH]; intros buff Hc; simpl; [done|].
  apply IH. by apply isClosed_doCall.
Qed.

Lemma writtenBy_no_write cs :
  Forall (fun c => isCallWrite c = false) cs -> writtenBy cs = [].
Proof.
  induction 1 as [|c cs Hc _ IH]; simpl; [done|].
  destruct c; simpl in *; done.
Qed.

(** A [bytes.Reader] read to the end returns what lies behind its
    position, whatever the (positive) size of the caller's buffer. *)
Lemma readLoop_all buflen : 0 < buflen -> forall fuel r,
  BytesReader.i r <= length (BytesReader.s r) ->
  length (BytesReader.s r) - BytesReader.i r < fuel ->
  BytesReader.readLoop fuel r buflen
  = (drop (BytesReader.i r) (BytesReader.s r), true).
Proof.
  intros Hbuf. induction fuel as [|fuel IH]; intros [s i] Hi Hfuel;
    simpl in *; [lia|].
  unfold BytesReader.Read; simpl.
  destruct (decide (length s <= i)) as [Hend|Hmore].
  - by rewrite drop_ge.
  - assert (Hgot : 0 < length (take buflen (drop i s))).
    { rewrite length_take, length_drop. lia. }
    assert (Hle : length (take buflen (drop i s)) <= length s - i).
    { rewrite length_take, length_drop. lia. }
    rewrite IH; simpl; [|lia..].
    f_equal.
    rewrite <- (take_drop buflen (drop i s)) at 3.
    f_equal. rewrite drop_drop, length_take, length_drop.
    destruct (decide (buflen <= length s - i)) as [Hfit|Hshort].
    + f_equal. lia.
    + rewrite !drop_ge; [done|lia..].
Qed.

(** C10. [MemoryData.Write] has no error path: for every buffer state and
    every byte slice [p] it appends [p] to the buffer's bytes and returns
    [(len(p), nil)]; closing, the subscribers and nothing else can make it
    fail. *)
Theorem MemoryData_Write_never_fails (buff : MemoryData) (p : bytes) :
  exists buff',
    Write buff p = (buff', (length p, None))
    /\ data buff' = data buff ++ p
    /\ isClosed buff' = isClosed buff
    /\ length (subscribers buff') = length (subscribers buff).
Proof.
  eexists. split; [reflexivity|]. simpl. by rewrite length_map.
Qed.

(** C8, amended. After [Close], with no [Write] after it, every later
    [GetReader] returns a snapshot reader ([bytes.Reader]) and registers
    no subscriber; read to the end with a buffer of any positive size, it
    returns the bytes written before the close, in order, and then
    [io.EOF]. *)
Theorem GetReader_after_Close_reads_frozen_bytes
    (before after : list call) (buflen fuel : nat) :
  Forall (fun c => isCallWrite c = false) after ->
  0 < buflen ->
  length (writtenBy before) < fuel ->
  let buff := doCalls NewMemoryData (before ++ CallClose :: after) in
  exists r,
    GetReader buff = (buff, SnapshotReader r)
    /\ BytesReader.readLoop fuel r buflen = (writtenBy before, true).
Proof.
  intros Hafter Hbuf Hfuel buff.
  assert (Hclosed : isClosed buff = true).
  { unfold buff. rewrite doCalls_app. simpl. by apply isClosed_doCalls. }
  assert (Hdata : data buff = writtenBy before).
  { unfold buff. rewrite data_doCalls, writtenBy_app. simpl.
    by rewrite (writtenBy_no_write after Hafter), app_nil_r. }
  exists (BytesReader.NewReader (data buff)). split.
  - unfold GetReader. by rewrite Hclosed.
  - rewrite readLoop_all; simpl; rewrite ?Hdata; try done; lia.
Qed.

(** [Write] does not look at [isClosed]: what is written after [Close]
    is appended all the same and a reader handed out later returns it,
    hence the first premise above.  The goroutine that fills a content
    closes it after its last [Write]. *)
Example Write_after_Close_is_appended :
  let buff :=
    doCalls NewMemoryData
            [CallWrite (String.list_byte_of_string "Hel"); CallClose;
             CallWrite (String.list_byte_of_string "lo :)")] in
  exists r,
    GetReader buff = (buff, SnapshotReader r)
    /\ BytesReader.readLoop 9 r 3
       = (String.list_byte_of_string "Hello :)", true).
Proof. eexists. split; reflexivity. Qed.

(** C8, as the specification has it, fails: a [Write] after the [Close]
    is read back by a reader handed out later. *)
Lemma GetReader_after_Close_reads_later_writes :
  ~ ReadsTheBytesWrittenBeforeClose.
Proof.
  intros Hclaim.
  destruct (Hclaim [CallWrite (String.list_byte_of_string "Hel")]
                   [CallWrite (String.list_byte_of_string "lo :)")] 3 9)
    as (r1 & Hr1 & Hread1); [lia|simpl; lia|].
  destruct Write_after_Close_is_appended as (r2 & Hr2 & Hread2).
  simpl in Hr1, Hr2. rewrite Hr2 in Hr1. injection Hr1 as <-.
  rewrite Hread2 in Hread1. discriminate Hread1.
Qed.

End memory_data.

(* ------------------------------------------------------------------ *)
(** ** The lock of the key *)
(* ------------------------------------------------------------------ *)

Section single_flight.
Import SingleFlight.
Variable h : Heap.heap.
Variable now : Z.
Variable fetch : nat -> Fetch.returned.
Variable k : string.
Variable rs : list Http.Request.
Hypothesis Hfresh : sameFreshEntry h now fetch k rs.

Lemma run_invariant_sf (P : world -> Prop) :
  (forall s i a s', P s -> step h now fetch i a s = Some s' -> P s') ->
  forall sched s, P s -> P (run h now fetch sched s).
Proof.
  intros Hstep. induction sched as [|[i a] sched IH]; intros s Hs; [done|].
  simpl. apply IH. destruct (step h now fetch i a s) as [s'|] eqn:Hia; [|done].
  by eapply Hstep.
Qed.

(** A step of request [i] rewrites request [i] and keeps who it is. *)
Lemma step_requests s i a s' :
  step h now fetch i a s = Some s' ->
  exists q q', requests s !! i = Some q
               /\ requests s' = <[i := q']> (requests s)
               /\ req q' = req q.
Proof.
  unfold step. destruct (requests s !! i) as [q|] eqn:Hq; [|done].
  intros Hstep. exists q.
  destruct a; simpl in Hstep.
  - unfold acquire in Hstep. destruct (at_ q); try done.
    destruct (locks s !! key q); [done|]. injection Hstep as <-.
    eexists. split; [done|]. split; [done|].
    by repeat case_match.
  - unfold return_ in Hstep. destruct (at_ q); try done.
    destruct (fetch i); injection Hstep as <-; by eexists.
  - unfold replayed in Hstep. destruct (at_ q); try done.
    injection Hstep as <-. by eexists.
  - unfold upstreamReturns in Hstep. destruct (running q); [|done].
    injection Hstep as <-. by eexists.
  - unfold end_ in Hstep. destruct (at_ q); try done.
    destruct (running q); [done|]. injection Hstep as <-. by eexists.
Qed.

(** A step of a request of another key leaves the key alone. *)
Lemma step_other_key s i a s' q :
  step h now fetch i a s = Some s' ->
  requests s !! i = Some q -> key q <> k ->
  chainOf k s' = chainOf k s /\ locks s' !! k = locks s !! k.
Proof.
  unfold step. intros Hstep Hq Hk. rewrite Hq in Hstep.
  unfold chainOf.
  destruct a; simpl in Hstep.
  - unfold acquire in Hstep. destruct (at_ q); try done.
    destruct (locks s !! key q); [done|]. injection Hstep as <-. simpl.
    rewrite lookup_insert_ne by done. split; [|done].
    destruct (index s !! key q); [|done]. by rewrite lookup_insert_ne.
  - unfold return_ in Hstep. destruct (at_ q); try done.
    destruct (fetch i); injection Hstep as <-; simpl;
      rewrite lookup_delete_ne by done; [|done].
    by rewrite lookup_insert_ne.
  - unfold replayed in Hstep. destruct (at_ q); try done.
    injection Hstep as <-. simpl. by rewrite lookup_delete_ne.
  - unfold upstreamReturns in Hstep. destruct (running q); [|done].
    by injection Hstep as <-.
  - unfold end_ in Hstep. destruct (at_ q); try done.
    destruct (running q); [done|]. by injection Hstep as <-.
Qed.

Lemma map_req_insert (l : list request) i q q' :
  l !! i = Some q -> req q' = req q -> req <$> <[i := q']> l = req <$> l.
Proof.
  intros Hq Hreq. rewrite list_fmap_insert, Hreq.
  apply list_insert_id. by rewrite list_lookup_fmap, Hq.
Qed.

Lemma lookup_update (l : list request) i q' j qj :
  <[i := q']> l !! j = Some qj ->
  (j = i /\ qj = q') \/ (j <> i /\ l !! j = Some qj).
Proof.
  destruct (decide (i = j)) as [<-|Hne].
  - intros Hl. left. split; [done|].
    destruct (decide (i < length l)).
    + rewrite list_lookup_insert_eq in Hl by done. congruence.
    + rewrite list_insert_ge in Hl by lia.
      apply lookup_lt_Some in Hl. lia.
  - rewrite list_lookup_insert_ne by done. intros Hl. right. by split.
Qed.

Lemma phase_other_key p s i a s' q :
  describes h now k rs p s ->
  step h now fetch i a s = Some s' ->
  requests s !! i = Some q -> key q <> k ->
  describes h now k rs p s'.
Proof.
  intros [Hrs Hp] Hstep Hq Hk.
  destruct (step_other_key _ _ _ _ _ Hstep Hq Hk) as [Hchain Hlock].
  destruct (step_requests _ _ _ _ Hstep) as (q0 & q' & Hq0 & Hreqs & Hreq).
  assert (q0 = q) as -> by congruence.
  assert (Hk' : key q' <> k) by (unfold key in *; by rewrite Hreq).
  assert (Hother : forall j qj, requests s' !! j = Some qj -> key qj = k ->
                                j <> i /\ requests s !! j = Some qj).
  { intros j qj Hj Hkj. rewrite Hreqs in Hj.
    apply lookup_update in Hj as [[-> ->]|[? ?]]; done. }
  assert (Hsame : forall j qj, requests s !! j = Some qj -> key qj = k ->
                               requests s' !! j = Some qj).
  { intros j qj Hj Hkj. rewrite Hreqs, list_lookup_insert_ne; [done|].
    intros ->. congruence. }
  split; [rewrite Hreqs; by erewrite map_req_insert|].
  destruct p as [|i0|i0]; rewrite ?Hchain, ?Hlock.
  - destruct Hp as (Hc & Hl & Hidle). split; [done|]. split; [done|].
    intros j qj Hj Hkj. destruct (Hother _ _ Hj Hkj). by eapply Hidle.
  - destruct Hp as (Hc & Hl & (q0 & Hq0' & Hk0 & Hat & Hcalled) & Hidle).
    split; [done|]. split; [done|]. split.
    + exists q0. split; [by apply Hsame|done].
    + intros j qj Hne Hj Hkj. destruct (Hother _ _ Hj Hkj). by eapply Hidle.
  - destruct Hp as (Hc & Hgood & (q0 & Hq0' & Hk0 & Hcalled & Hat) & Hrest & Hl).
    split; [done|]. split; [done|]. split; [|split].
    + exists q0. split; [by apply Hsame|done].
    + intros j qj Hne Hj Hkj. destruct (Hother _ _ Hj Hkj). by eapply Hrest.
    + intros j Hj. destruct (Hl j Hj) as (qj & e & Hqj & Hkj & Hatj).
      exists qj, e. split; [by apply Hsame|done].
Qed.

Lemma fresh_good chain :
  Forall (good h now k rs) chain -> Cache.fresh now chain = chain.
Proof.
  unfold Cache.fresh. induction 1 as [|e chain (_ & He & _) _ IH]; [done|].
  rewrite filter_cons_True by done. by rewrite IH.
Qed.

Lemma request_in_rs s i q :
  req <$> requests s = rs -> requests s !! i = Some q ->
  rs !! i = Some (req q) /\ req q ∈ rs.
Proof.
  intros <- Hq.
  assert ((req <$> requests s) !! i = Some (req q)) as Hi
    by by rewrite list_lookup_fmap, Hq.
  split; [done|]. by eapply list_elem_of_lookup_2.
Qed.

Ltac idle_contra :=
  match goal with
  | Hidle : forall j q, _ -> _ -> idle q, Hq : requests _ !! _ = Some ?q |- _ =>
      let H := fresh in
      assert (idle q) as H by (eapply Hidle; eauto);
      destruct H as (? & ? & ?); congruence
  | Hidle : forall j q, _ -> _ -> _ -> idle q, Hq : requests _ !! ?i = Some ?q,
    Hne : ?i <> _ |- _ =>
      let H := fresh in
      assert (idle q) as H by (eapply Hidle; eauto);
      destruct H as (? & ? & ?); congruence
  end.

Lemma phase_step p s i a s' :
  describes h now k rs p s ->
  step h now fetch i a s = Some s' ->
  exists p', describes h now k rs p' s'.
Proof.
  intros Hdesc Hstep.
  destruct (step_requests _ _ _ _ Hstep) as (q & q' & Hq & Hreqs & Hreq).
  destruct (decide (key q = k)) as [Hk|Hk];
    [|exists p; by eapply phase_other_key].
  destruct Hdesc as [Hrs Hp].
  destruct (request_in_rs _ _ _ Hrs Hq) as [Hrsi Hin].
  assert (Hrs' : req <$> requests s' = rs).
  { rewrite Hreqs. by erewrite map_req_insert. }
  unfold step in Hstep. rewrite Hq in Hstep.
  assert (Hlt : i < length (requests s)) by by eapply lookup_lt_Some.
  destruct a; simpl in Hstep.
  - (* the lock is taken *)
    unfold acquire in Hstep. destruct (at_ q) eqn:Hat; try done.
    rewrite Hk in Hstep. destruct (locks s !! k) eqn:Hlock; [done|].
    destruct p as [|i0|i0].
    + destruct Hp as (Hc & _ & Hidle).
      unfold chainOf in Hc. exists (FetchingBy i).
      assert (Hc' : default [] (index s !! k) = []) by done.
      rewrite Hc' in Hstep. simpl in Hstep. injection Hstep as <-.
      split; [done|]. unfold chainOf. simpl.
      split; [|split; [by rewrite lookup_insert_eq|split]].
      * destruct (index s !! k) eqn:Hidx;
          [rewrite lookup_insert_eq; reflexivity|by rewrite Hidx].
      * eexists. rewrite list_lookup_insert_eq by done.
        split; [done|]. by rewrite <- Hk.
      * intros j qj Hne Hj Hkj.
        rewrite list_lookup_insert_ne in Hj by done. by eapply Hidle.
    + by destruct Hp as (_ & Hl & _).
    + destruct Hp as (Hc & Hgood & (q0 & Hq0 & Hk0 & Hcalled & Hat0) & Hrest & Hl).
      assert (Hne : i <> i0).
      { intros ->. destruct Hat0; congruence. }
      destruct (Hrest i q Hne Hq Hk) as (Hnc & Hnr & _).
      unfold chainOf in *. rewrite (fresh_good _ Hgood) in Hstep.
      destruct (default [] (index s !! k)) as [|e chain] eqn:Hchain; [done|].
      apply Forall_cons in Hgood as Hg. destruct Hg as [(Hpub & Hexp & Hm) _].
      simpl in Hstep. rewrite (Hm _ Hin Hk), Hpub in Hstep.
      simpl in Hstep. rewrite Hpub in Hstep. simpl in Hstep.
      injection Hstep as <-.
      exists (Warm i0). split; [done|]. unfold chainOf. simpl.
      assert (Hsame : default [] (match index s !! k with
                                  | Some _ => <[k:=e :: chain]> (index s)
                                  | None => index s
                                  end !! k) = e :: chain).
      { destruct (index s !! k) eqn:Hidx;
          [by rewrite lookup_insert_eq|by rewrite Hidx]. }
      rewrite Hsame. split; [done|]. split; [done|]. split; [|split].
      * exists q0. by rewrite list_lookup_insert_ne.
      * intros j qj Hj0 Hj Hkj. rewrite lookup_insert_eq.
        apply lookup_update in Hj as [[-> ->]|[Hji Hj]]; simpl.
        -- split; [done|]. split; [done|]. right. right. by exists e.
        -- destruct (Hrest j qj Hj0 Hj Hkj) as (? & ? & [?|[?|(e' & ? & ?)]]);
             [by auto..|congruence].
      * intros j. rewrite lookup_insert_eq. intros [= <-].
        eexists _, e. rewrite list_lookup_insert_eq by done.
        split; [done|]. split; [by rewrite <- Hk|done].
  - (* [HandleNonCachedResponse] returns *)
    unfold return_ in Hstep. destruct (at_ q) eqn:Hat; try done.
    destruct p as [|i0|i0].
    + destruct Hp as (_ & _ & Hidle). idle_contra.
    + destruct Hp as (Hc & Hl & (q0 & Hq0 & Hk0 & Hat0 & Hcalled) & Hidle).
      destruct (decide (i = i0)) as [->|Hne]; [|idle_contra].
      assert (q0 = q) as -> by congruence.
      destruct (Hfresh _ _ Hrsi Hk) as (e & Hfetch & Hgood).
      rewrite Hfetch in Hstep. injection Hstep as <-.
      exists (Warm i0). split; [done|]. unfold chainOf in *. simpl.
      rewrite Hk. unfold Cache.store. rewrite lookup_insert_eq, Hc. simpl.
      split; [done|]. split; [by apply Forall_singleton|].
      split; [|split].
      * eexists. rewrite list_lookup_insert_eq by done.
        split; [done|]. split; [by rewrite <- Hk0|]. split; [done|by left].
      * intros j qj Hj0 Hj Hkj. rewrite list_lookup_insert_ne in Hj by done.
        destruct (Hidle j qj Hj0 Hj Hkj) as (? & ? & ?). by auto.
      * intros j. by rewrite lookup_delete_eq.
    + destruct Hp as (_ & _ & (q0 & Hq0 & _ & _ & Hat0) & Hrest & _).
      destruct (decide (i = i0)) as [->|Hne].
      * assert (q0 = q) as -> by congruence. destruct Hat0; congruence.
      * destruct (Hrest i q Hne Hq Hk) as (_ & _ & [?|[?|(e' & ? & ?)]]);
          congruence.
  - (* [HandleCachedResponse] returns *)
    unfold replayed in Hstep. destruct (at_ q) eqn:Hat; try done.
    injection Hstep as <-.
    destruct p as [|i0|i0].
    + destruct Hp as (_ & _ & Hidle). idle_contra.
    + destruct Hp as (_ & _ & (q0 & Hq0 & _ & Hat0 & _) & Hidle).
      destruct (decide (i = i0)) as [->|Hne]; [congruence|idle_contra].
    + destruct Hp as (Hc & Hgood & (q0 & Hq0 & Hk0 & Hcalled & Hat0) & Hrest & Hl).
      assert (Hne : i <> i0).
      { intros ->. assert (q0 = q) as -> by congruence.
        destruct Hat0; congruence. }
      destruct (Hrest i q Hne Hq Hk) as (Hnc & Hnr & Hati).
      assert (Hlock : locks s !! k = Some i).
      { destruct Hati as [?|[?|(e' & ? & ?)]]; congruence. }
      exists (Warm i0). split; [done|]. unfold chainOf in *. simpl.
      split; [done|]. split; [done|]. split; [|split].
      * exists q0. by rewrite list_lookup_insert_ne.
      * intros j qj Hj0 Hj Hkj.
        apply lookup_update in Hj as [[-> ->]|[Hji Hj]]; simpl.
        -- by auto.
        -- destruct (Hrest j qj Hj0 Hj Hkj) as (? & ? & [?|[?|(e' & ? & ?)]]);
             [by auto..|congruence].
      * intros j. by rewrite Hk, lookup_delete_eq.
  - (* the upstream handler returns *)
    unfold upstreamReturns in Hstep. destruct (running q) eqn:Hrun; [|done].
    injection Hstep as <-.
    destruct p as [|i0|i0].
    + destruct Hp as (_ & _ & Hidle). idle_contra.
    + destruct Hp as (Hc & Hl & (q0 & Hq0 & Hk0 & Hat0 & Hcalled) & Hidle).
      destruct (decide (i = i0)) as [->|Hne]; [|idle_contra].
      assert (q0 = q) as -> by congruence.
      exists (FetchingBy i0). split; [done|]. unfold chainOf in *. simpl.
      split; [done|]. split; [done|]. split.
      * eexists. rewrite list_lookup_insert_eq by done. by split.
      * intros j qj Hj0 Hj Hkj. rewrite list_lookup_insert_ne in Hj by done.
        by eapply Hidle.
    + destruct Hp as (Hc & Hgood & (q0 & Hq0 & Hk0 & Hcalled & Hat0) & Hrest & Hl).
      destruct (decide (i = i0)) as [->|Hne].
      * assert (q0 = q) as -> by congruence.
        exists (Warm i0). split; [done|]. unfold chainOf in *. simpl.
        split; [done|]. split; [done|]. split; [|split].
        -- eexists. rewrite list_lookup_insert_eq by done. by split.
        -- intros j qj Hj0 Hj Hkj.
           rewrite list_lookup_insert_ne in Hj by done. by eapply Hrest.
        -- intros j Hj. destruct (Hl j Hj) as (qj & e & Hqj & Hkj & Hatj).
           exists qj, e. rewrite list_lookup_insert_ne; [done|].
           intros <-. assert (qj = q) as -> by congruence.
           destruct Hat0; congruence.
      * destruct (Hrest i q Hne Hq Hk) as (_ & ? & _). congruence.
  - (* the end channel is received *)
    unfold end_ in Hstep. destruct (at_ q) eqn:Hat; try done.
    destruct (running q) eqn:Hrun; [done|]. injection Hstep as <-.
    destruct p as [|i0|i0].
    + destruct Hp as (_ & _ & Hidle). idle_contra.
    + destruct Hp as (_ & _ & (q0 & Hq0 & _ & Hat0 & _) & Hidle).
      destruct (decide (i = i0)) as [->|Hne]; [congruence|idle_contra].
    + destruct Hp as (Hc & Hgood & (q0 & Hq0 & Hk0 & Hcalled & Hat0) & Hrest & Hl).
      destruct (decide (i = i0)) as [->|Hne].
      * assert (q0 = q) as -> by congruence.
        exists (Warm i0). split; [done|]. unfold chainOf in *. simpl.
        split; [done|]. split; [done|]. split; [|split].
        -- eexists. rewrite list_lookup_insert_eq by done.
           split; [done|]. split; [done|]. split; [done|by right].
        -- intros j qj Hj0 Hj Hkj.
           rewrite list_lookup_insert_ne in Hj by done. by eapply Hrest.
        -- intros j Hj. destruct (Hl j Hj) as (qj & e & Hqj & Hkj & Hatj).
           exists qj, e. rewrite list_lookup_insert_ne; [done|].
           intros <-. congruence.
      * destruct (Hrest i q Hne Hq Hk) as (_ & _ & [?|[?|(e' & ? & ?)]]);
          congruence.
Qed.


Lemma filter_none (P : request -> bool) l :
  (forall j q, l !! j = Some q -> P q = false) -> List.filter P l = [].
Proof.
  induction l as [|x l IH]; intros Hall; [done|]. simpl.
  rewrite (Hall 0 x eq_refl). apply IH. intros j q Hj. by apply (Hall (S j)).
Qed.

Lemma filter_at_most_one (P : request -> bool) l i0 :
  (forall j q, j <> i0 -> l !! j = Some q -> P q = false) ->
  length (List.filter P l) <= 1
  /\ (forall q0, l !! i0 = Some q0 -> P q0 = true ->
                 length (List.filter P l) = 1).
Proof.
  revert i0. induction l as [|x l IH]; intros i0 Hall; [by split; [simpl; lia|]|].
  destruct i0 as [|i0]; simpl.
  - rewrite (filter_none P l).
    + split; [destruct (P x); simpl; lia|]. by intros q0 [= ->] ->.
    + intros j q Hj. by apply (Hall (S j)).
  - rewrite (Hall 0 x); [|done..]. apply IH.
    intros j q Hne Hj. apply (Hall (S j)); [lia|done].
Qed.

Lemma describes_arrive : describes h now k rs Cold (arrive rs).
Proof.
  split.
  - simpl. rewrite <- list_fmap_compose. apply list_fmap_id.
  - split; [done|]. split; [done|]. intros j q Hj _. simpl in Hj.
    rewrite list_lookup_fmap in Hj.
    destruct (rs !! j); simplify_eq/=. by repeat split.
Qed.

Lemma describes_run sched :
  exists p, describes h now k rs p (run h now fetch sched (arrive rs)).
Proof.
  apply (run_invariant_sf (fun s => exists p, describes h now k rs p s)).
  - intros s i a s' [p Hp] Hstep. by eapply phase_step.
  - exists Cold. apply describes_arrive.
Qed.

Lemma phase_counts p s (f : request -> bool) :
  describes h now k rs p s ->
  (forall q, f q = true -> called q = true) ->
  length (List.filter (marks k f) (requests s)) <= 1.
Proof.
  intros [_ Hp] Hf.
  assert (Hmark : forall q, called q = false -> marks k f q = false).
  { intros q Hq. unfold marks. destruct (f q) eqn:Hfq;
      [apply Hf in Hfq; congruence|by rewrite andb_false_r]. }
  assert (Hkey : forall q, key q <> k -> marks k f q = false).
  { intros q Hq. unfold marks. by rewrite bool_decide_eq_false_2. }
  destruct p as [|i0|i0].
  - destruct Hp as (_ & _ & Hidle).
    rewrite filter_none; [simpl; lia|]. intros j q Hj.
    destruct (decide (key q = k)) as [Hk|Hk]; [|by apply Hkey].
    apply Hmark. by destruct (Hidle j q Hj Hk) as (_ & ? & _).
  - destruct Hp as (_ & _ & _ & Hidle).
    apply (filter_at_most_one _ _ i0). intros j q Hne Hj.
    destruct (decide (key q = k)) as [Hk|Hk]; [|by apply Hkey].
    apply Hmark. by destruct (Hidle j q Hne Hj Hk) as (_ & ? & _).
  - destruct Hp as (_ & _ & _ & Hrest & _).
    apply (filter_at_most_one _ _ i0). intros j q Hne Hj.
    destruct (decide (key q = k)) as [Hk|Hk]; [|by apply Hkey].
    apply Hmark. by destruct (Hrest j q Hne Hj Hk) as (? & _).
Qed.

Lemma idle_running s p :
  describes h now k rs p s ->
  forall j q, requests s !! j = Some q -> key q = k ->
              running q = true -> called q = true.
Proof.
  intros [_ Hp] j q Hj Hk Hrun. destruct p as [|i0|i0].
  - destruct Hp as (_ & _ & Hidle).
    destruct (Hidle j q Hj Hk) as (_ & _ & ?). congruence.
  - destruct Hp as (_ & _ & (q0 & Hq0 & _ & _ & Hc) & Hidle).
    destruct (decide (j = i0)) as [->|Hne]; [congruence|].
    destruct (Hidle j q Hne Hj Hk) as (_ & _ & ?). congruence.
  - destruct Hp as (_ & _ & (q0 & Hq0 & _ & Hc & _) & Hrest & _).
    destruct (decide (j = i0)) as [->|Hne]; [congruence|].
    destruct (Hrest j q Hne Hj Hk) as (_ & ? & _). congruence.
Qed.

(** C1. Single flight.  Requests arrive together at a cache that holds
    nothing; to every request of the key [k] the upstream answers with a
    public entry that is fresh and that every request of the key matches.
    Then, however the requests interleave, the upstream handler is called
    at most once for the key and at most one call for the key is running;
    when all the requests of the key have returned it was called exactly
    once; and as long as one of them has not returned some request can take
    a step. *)
Theorem single_flight (sched : list (nat * action)) :
  timesCalled k (run h now fetch sched (arrive rs)) <= 1
  /\ concurrencyLevel k (run h now fetch sched (arrive rs)) <= 1
  /\ (allFinished k (run h now fetch sched (arrive rs)) ->
      (exists r, r ∈ rs /\ Handler.getKey r = k) ->
      timesCalled k (run h now fetch sched (arrive rs)) = 1)
  /\ ((exists q, q ∈ requests (run h now fetch sched (arrive rs))
                 /\ key q = k /\ at_ q <> Finished) ->
      enabled h now fetch (run h now fetch sched (arrive rs))).
Proof.
  destruct (describes_run sched) as [p Hdesc].
  set (s := run h now fetch sched (arrive rs)) in *.
  split; [|split; [|split]].
  - by apply (phase_counts p s called).
  - unfold concurrencyLevel.
    assert (Hle : length (List.filter (marks k (fun q => running q && called q))
                                      (requests s)) <= 1).
    { apply (phase_counts p s); [done|].
      by intros q [_ ?]%andb_prop. }
    enough (List.filter (fun q => bool_decide (key q = k) && running q)
                        (requests s)
            = List.filter (marks k (fun q => running q && called q))
                          (requests s)) as -> by done.
    apply List.filter_ext_in. intros q Hin. unfold marks.
    apply list_elem_of_In, list_elem_of_lookup in Hin as [j Hj].
    destruct (decide (key q = k)) as [Hk|Hk];
      [|by rewrite !bool_decide_eq_false_2].
    destruct (running q) eqn:Hrun; [|done].
    by rewrite (idle_running s p Hdesc j q Hj Hk Hrun).
  - intros Hall (r & Hr & Hkr). destruct Hdesc as [Hrs Hp].
    assert (exists j q, requests s !! j = Some q /\ key q = k)
      as (j & q & Hj & Hk).
    { rewrite <- Hrs in Hr. apply list_elem_of_fmap in Hr as (q & -> & Hq).
      apply list_elem_of_lookup in Hq as [j Hj]. by exists j, q. }
    assert (Hfin : at_ q = Finished).
    { apply Hall; [by eapply list_elem_of_lookup_2|done]. }
    destruct p as [|i0|i0].
    + destruct Hp as (_ & _ & Hidle).
      destruct (Hidle j q Hj Hk) as (? & _). congruence.
    + destruct Hp as (_ & _ & (q0 & Hq0 & Hk0 & Hat0 & _) & _).
      assert (at_ q0 = Finished)
        by (apply Hall; [by eapply list_elem_of_lookup_2|done]).
      congruence.
    + destruct Hp as (_ & _ & (q0 & Hq0 & Hk0 & Hc0 & _) & Hrest & _).
      unfold timesCalled.
      apply (filter_at_most_one _ (requests s) i0) with (q0 := q0); [|done|].
      * intros j' q' Hne Hj'.
        destruct (decide (key q' = k)) as [Hk'|Hk'];
          [|by rewrite bool_decide_eq_false_2].
        destruct (Hrest j' q' Hne Hj' Hk') as (-> & _).
        by rewrite andb_false_r.
      * by rewrite bool_decide_eq_true_2.
  - intros (q & Hin & Hk & Hnot). destruct Hdesc as [Hrs Hp].
    apply list_elem_of_lookup in Hin as [j Hj].
    unfold enabled, step.
    destruct p as [|i0|i0].
    + destruct Hp as (_ & Hl & Hidle).
      destruct (Hidle j q Hj Hk) as (Hat & _).
      exists j, Acquire. rewrite Hj. unfold acquire. rewrite Hat, Hk, Hl.
      by eexists.
    + destruct Hp as (_ & _ & (q0 & Hq0 & _ & Hat0 & _) & _).
      exists i0, Return. rewrite Hq0. unfold return_. rewrite Hat0.
      destruct (fetch i0); by eexists.
    + destruct Hp as (_ & _ & (q0 & Hq0 & _ & _ & Hat0) & Hrest & Hl).
      destruct (decide (j = i0)) as [->|Hne].
      * assert (q0 = q) as -> by congruence.
        destruct Hat0 as [Hat0|Hat0]; [|done].
        destruct (running q) eqn:Hrun.
        -- exists i0, UpstreamReturns. rewrite Hj. unfold upstreamReturns.
           rewrite Hrun. by eexists.
        -- exists i0, End. rewrite Hj. unfold end_. rewrite Hat0, Hrun.
           by eexists.
      * destruct (Hrest j q Hne Hj Hk) as (_ & _ & [Hat|[Hat|(e & Hat & _)]]);
          [|done|].
        -- destruct (locks s !! k) as [j'|] eqn:Hlock.
           ++ destruct (Hl j' eq_refl) as (q' & e & Hq' & _ & Hat').
              exists j', Replayed. rewrite Hq'. unfold replayed. rewrite Hat'.
              by eexists.
           ++ exists j, Acquire. rewrite Hj. unfold acquire.
              rewrite Hat, Hk, Hlock. by eexists.
        -- exists j, Replayed. rewrite Hj. unfold replayed. rewrite Hat.
           by eexists.
Qed.

End single_flight.

(* ------------------------------------------------------------------ *)
(** ** The requests of the tests *)
(* ------------------------------------------------------------------ *)

Import Heap Recorder Fetch Explore Scenario.
#[local] Existing Instance doubling.
#[local] Existing Instance Scenario.freshness.

Section scenarios.

Lemma Forall_run (P : state -> Prop) ch states sched :
  closed ch now0 request0 states = true -> start0 ∈ states ->
  Forall P states -> P (run ch now0 request0 sched start0).
Proof.
  intros Hclosed Hstart HP. rewrite Forall_forall in HP. apply HP.
  by apply closed_run.
Qed.

Lemma privateStates_outcome : Forall privateOutcome privateStates.
Proof. compute_done. Qed.

(** C2, as the code has it, at the response of [TestNotCacheableCacheControl]:
    whatever the interleaving, no goroutine that receives from the body
    channel is ever started and the downstream client never gets a byte of
    the body; when nothing can move any more the handler has returned 200,
    having set the status header to [miss] and stored a private entry, and
    the upstream handler stands in its first [Write], at the send on the
    body channel.  The goroutines in turn reach that state. *)
Theorem noncacheable_response_is_not_drained (sched : list goroutine) :
  privateOutcome (run privateHandler now0 request0 sched start0)
  /\ stuck privateHandler now0 request0
           (run privateHandler now0 request0 roundRobin start0) = true.
Proof.
  split; [|by vm_compute].
  apply (Forall_run _ _ privateStates); [by vm_compute|by left|].
  apply privateStates_outcome.
Qed.

Lemma unwritableStates_outcome : Forall unwritableOutcome unwritableStates.
Proof. compute_done. Qed.

(** C7, as the code has it, with a file storage whose [os.OpenFile] fails:
    whatever the interleaving, no entry is stored, no goroutine receives
    from the body channel and the downstream client never gets a byte of
    the body; when nothing can move any more the handler has returned 500
    with the error and the upstream handler stands in its first [Write]. *)
Theorem storage_failure_starves_the_client (sched : list goroutine) :
  unwritableOutcome (run unwritableHandler now0 request0 sched start0)
  /\ stuck unwritableHandler now0 request0
           (run unwritableHandler now0 request0 roundRobin start0) = true.
Proof.
  split; [|by vm_compute].
  apply (Forall_run _ _ unwritableStates); [by vm_compute|by left|].
  apply unwritableStates_outcome.
Qed.

Lemma taggingStates_outcome : Forall taggingOutcome taggingStates.
Proof. compute_done. Qed.

(** C3, as the code has it, with an upstream that sets the status header
    itself: once the first request is over, the entry holds the headers
    the upstream emitted, the status header among them, and the second
    request is answered with the status header [hit] followed by the value
    of the upstream; had [RemoveStatusHeaderIfConfigured] been applied to
    the stored headers the answer would carry [hit] alone.  The goroutines
    in turn bring the first request to its end. *)
Theorem stored_status_header_is_replayed (sched : list goroutine) :
  taggingOutcome (run taggingHandler now0 request0 sched start0)
  /\ stuck taggingHandler now0 request0
           (run taggingHandler now0 request0 roundRobin start0) = true.
Proof.
  split; [|by vm_compute].
  apply (Forall_run _ _ taggingStates); [by vm_compute|by left|].
  apply taggingStates_outcome.
Qed.

End scenarios.

(* ------------------------------------------------------------------ *)
(** ** The general statements at the requests of the tests *)
(* ------------------------------------------------------------------ *)

(** The clone the handler of [taggingHandler] receives holds the two
    headers the upstream handler has added, and is the same after the
    rest of the request and four mutations of the downstream headers. *)
Lemma header_event_is_a_deep_clone_witness :
  wfHeader heap0 (Http.wHeader writer0)
  /\ handler (run taggingHandler now0 request0 untilHeaders start0)
     = AtCacheable received
  /\ cloned (headerValue
               (Http.mutateAll heap0 (Http.wHeader writer0)
                               (headersBefore (Next taggingHandler)))
               (Http.wHeader writer0))
     = emitted
  /\ headerValue
       (heap_ (run taggingHandler now0 request0 untilHeaders start0))
       (Header received)
     = cloned (headerValue
                 (Http.mutateAll heap0 (Http.wHeader writer0)
                                 (headersBefore (Next taggingHandler)))
                 (Http.wHeader writer0))
  /\ headerValue
       (Http.mutateAll
          (heap_ (run taggingHandler now0 request0
                      (untilHeaders ++ roundRobin) start0))
          (Http.wHeader writer0) laterMutations)
       (Header received)
     = headerValue
         (heap_ (run taggingHandler now0 request0 untilHeaders start0))
         (Header received).
Proof.
  assert (Hwf : wfHeader heap0 (Http.wHeader writer0)).
  { split; [simpl; lia|]. intros a (k & n & Hk). by vm_compute in Hk. }
  assert (Hat : handler (run taggingHandler now0 request0 untilHeaders start0)
                = AtCacheable received) by reflexivity.
  split; [exact Hwf|]. split; [exact Hat|]. split; [by vm_compute|].
  exact (header_event_is_a_deep_clone taggingHandler now0 request0 heap0
           writer0 ∅ untilHeaders roundRobin laterMutations received Hwf Hat).
Defined.

(** A content written in two chunks and closed: a reader handed out after
    a second [Close], read three bytes at a time, returns [Hello :)]. *)
Lemma GetReader_after_Close_reads_frozen_bytes_witness :
  Forall (fun c => Storage.isCallWrite c = false) clientCalls
  /\ 0 < 3
  /\ length (Storage.writtenBy copierCalls) < 9
  /\ exists r,
      Storage.GetReader
        (Storage.doCalls Storage.NewMemoryData
                         (copierCalls ++ Storage.CallClose :: clientCalls))
      = (Storage.doCalls Storage.NewMemoryData
                         (copierCalls ++ Storage.CallClose :: clientCalls),
         Storage.SnapshotReader r)
      /\ BytesReader.readLoop 9 r 3 = (hello, true).
Proof.
  assert (Hafter : Forall (fun c => Storage.isCallWrite c = false) clientCalls).
  { repeat constructor. }
  assert (Hbuf : 0 < 3) by lia.
  assert (Hfuel : length (Storage.writtenBy copierCalls) < 9) by (simpl; lia).
  split; [exact Hafter|]. split; [exact Hbuf|]. split; [exact Hfuel|].
  exact (GetReader_after_Close_reads_frozen_bytes copierCalls clientCalls 3 9
           Hafter Hbuf Hfuel).
Defined.

(** Three requests of one key and one of another, each answered with the
    same public entry: one call of the upstream for the key. *)
Lemma single_flight_witness :
  SingleFlight.sameFreshEntry heap0 now0 (fun _ => RetEntry sharedEntry true)
                              "GET somehost.com/" threeRequests
  /\ SingleFlight.timesCalled "GET somehost.com/"
       (SingleFlight.run heap0 now0 (fun _ => RetEntry sharedEntry true)
                         oneAfterAnother (SingleFlight.arrive threeRequests))
     <= 1
  /\ SingleFlight.concurrencyLevel "GET somehost.com/"
       (SingleFlight.run heap0 now0 (fun _ => RetEntry sharedEntry true)
                         oneAfterAnother (SingleFlight.arrive threeRequests))
     <= 1.
Proof.
  assert (Hfresh : SingleFlight.sameFreshEntry
                     heap0 now0 (fun _ => RetEntry sharedEntry true)
                     "GET somehost.com/" threeRequests).
  { intros i r _ _. exists sharedEntry.
    split; [reflexivity|]. split; [reflexivity|]. split; [reflexivity|].
    intros r' _ _. reflexivity. }
  split; [exact Hfresh|].
  pose proof (single_flight heap0 now0 (fun _ => RetEntry sharedEntry true)
                "GET somehost.com/" threeRequests Hfresh oneAfterAnother)
    as (Hcalled & Hlevel & _).
  split; [exact Hcalled|exact Hlevel].
Defined.


(* ================================================================== *)
(** * More properties of the code *)
(* ================================================================== *)

(* ------------------------------------------------------------------ *)
(** ** The header maps of the handler *)
(* ------------------------------------------------------------------ *)

Section header_values.
Import Heap Handler Headers.
Context `{GrowthPolicy}.

Lemma wfHeader_lookup h hdr k a n :
  wfHeader h hdr -> mapOf h hdr !! k = Some (Slice a n) ->
  a < length (arrays h).
Proof. intros [_ Hwf] Hk. apply Hwf. by exists k, n. Qed.

Lemma sliceValue_allocArray h v s :
  allocated h s ->
  sliceValue (fst (allocArray h v)) s = sliceValue h s.
Proof.
  destruct s as [|a n]; simpl; [done|]. intros Ha.
  unfold arrayAt; simpl. by rewrite lookup_app_l.
Qed.

Lemma headerValue_mapStore h l k s :
  l < length (maps h) ->
  headerValue (mapStore h l k s) l
  = <[k := sliceValue h s]> (headerValue h l).
Proof.
  intros Hl. unfold headerValue, mapStore, mapOf, setMap; simpl.
  rewrite list_lookup_insert_eq by done. simpl.
  by rewrite fmap_insert.
Qed.

Lemma headerValue_mapDelete h l k :
  l < length (maps h) ->
  headerValue (mapDelete h l k) l = delete k (headerValue h l).
Proof.
  intros Hl. unfold headerValue, mapDelete, mapOf, setMap; simpl.
  rewrite list_lookup_insert_eq by done. simpl.
  by rewrite fmap_delete.
Qed.

(** [Set] on a well-formed map: the canonical key gets the one value, the
    other keys keep theirs. *)
Lemma headerValue_Set h l key value :
  wfHeader h l ->
  headerValue (Set_ h l key value) l
  = <[GoStrings.CanonicalMIMEHeaderKey key := Some [value]]> (headerValue h l).
Proof.
  intros Hwf. unfold Set_, sliceLit, allocArray.
  set (h1 := mkHeap (arrays h ++ [[value]]) (maps h)).
  rewrite headerValue_mapStore by (simpl; apply Hwf).
  unfold sliceValue at 1, sliceElems, arrayAt. simpl.
  rewrite lookup_app_r, Nat.sub_diag by lia. simpl.
  f_equal. unfold headerValue. apply map_fmap_ext. intros k s Hk.
  change (mapOf h1 l) with (mapOf h l) in *.
  destruct s as [|a n]; [done|].
  pose proof (wfHeader_lookup _ _ _ _ _ Hwf Hk) as Ha.
  simpl. unfold arrayAt. simpl. by rewrite lookup_app_l.
Qed.

Lemma wfHeader_Set h l key value :
  wfHeader h l -> wfHeader (Set_ h l key value) l.
Proof.
  intros Hwf. by apply (mutate_wfHeader h l (Http.MSet key value)).
Qed.

(** X1. [AddStatusHeaderIfConfigured] with a status header configured
    leaves the writer's header map with exactly the one value [status]
    under the canonical form of the configured name, whatever was there,
    and with every other name as it was; without one it changes nothing.
    Adding the same status again changes nothing more. *)
Theorem AddStatusHeaderIfConfigured_sets_one_value
    (cfg : Config) (h : heap) (w : Http.ResponseWriter) (status : string) :
  wfHeader h (Http.wHeader w) ->
  headerValue (AddStatusHeaderIfConfigured cfg h w status) (Http.wHeader w)
  = (if decide (StatusHeader cfg ≠ "")
     then <[GoStrings.CanonicalMIMEHeaderKey (StatusHeader cfg)
            := Some [status]]> (headerValue h (Http.wHeader w))
     else headerValue h (Http.wHeader w))
  /\ headerValue
       (AddStatusHeaderIfConfigured
          cfg (AddStatusHeaderIfConfigured cfg h w status) w status)
       (Http.wHeader w)
     = headerValue (AddStatusHeaderIfConfigured cfg h w status)
                   (Http.wHeader w).
Proof.
  intros Hwf. unfold AddStatusHeaderIfConfigured.
  destruct (decide _) as [Hcfg|Hcfg]; [|done].
  rewrite !headerValue_Set by (try apply wfHeader_Set; done).
  split; [done|]. by rewrite insert_insert_eq.
Qed.

(** X2. [RemoveStatusHeaderIfConfigured] deletes the configured name as
    it is written, while [AddStatusHeaderIfConfigured] sets it in
    canonical form: the one undoes the other exactly when the configured
    name is canonical.  With a name such as [cache-status] (the one of
    [TestStatusCacheSkip]) the status set by the handler stays in the
    map. *)
Theorem RemoveStatusHeaderIfConfigured_deletes_the_name_as_written
    (cfg : Config) (h : heap) (w : Http.ResponseWriter) (status : string) :
  wfHeader h (Http.wHeader w) ->
  headerValue
    (fst (RemoveStatusHeaderIfConfigured
            cfg (AddStatusHeaderIfConfigured cfg h w status)
            (Http.wHeader w)))
    (Http.wHeader w)
  = (if decide (StatusHeader cfg ≠ "")
     then
       if decide (GoStrings.CanonicalMIMEHeaderKey (StatusHeader cfg)
                  = StatusHeader cfg)
       then delete (StatusHeader cfg) (headerValue h (Http.wHeader w))
       else <[GoStrings.CanonicalMIMEHeaderKey (StatusHeader cfg)
              := Some [status]]>
              (delete (StatusHeader cfg) (headerValue h (Http.wHeader w)))
     else headerValue h (Http.wHeader w)).
Proof.
  intros Hwf.
  unfold RemoveStatusHeaderIfConfigured, AddStatusHeaderIfConfigured.
  destruct (decide (StatusHeader cfg ≠ "")) as [Hcfg|Hcfg]; [|done].
  simpl. rewrite headerValue_mapDelete by (apply wfHeader_Set; done).
  rewrite headerValue_Set by done.
  destruct (decide _) as [Hcanon|Hcanon].
  - rewrite Hcanon. by rewrite delete_insert_eq.
  - by rewrite delete_insert_ne.
Qed.

(** X3. [cloneHeader] returns a new map with the keys of the original;
    each value has the elements of the original value, a nil value
    becoming an empty one.  The original denotes what it did. *)
Theorem cloneHeader_copies_every_value (h : heap) (hdr : loc) :
  wfHeader h hdr ->
  snd (cloneHeader h hdr) = length (maps h)
  /\ headerValue (fst (cloneHeader h hdr)) (snd (cloneHeader h hdr))
     = (fun v => Some (default [] v)) <$> headerValue h hdr
  /\ headerValue (fst (cloneHeader h hdr)) hdr = headerValue h hdr.
Proof.
  intros Hwf. destruct (cloneHeader h hdr) as [h1 h2] eqn:Hclone.
  destruct (cloneHeader_separated h hdr h1 h2 Hwf Hclone)
    as (_ & Hval & Hold & _).
  simpl. split; [|split; [|done]].
  - unfold cloneHeader, allocMap in Hclone. by injection Hclone as _ <-.
  - rewrite Hval. unfold headerValue. rewrite <- map_fmap_compose.
    apply map_fmap_ext. intros k s _. by destruct s.
Qed.

End header_values.

(* ------------------------------------------------------------------ *)
(** ** [matchesRequest], once more *)
(* ------------------------------------------------------------------ *)

Section matches_more.
Import Heap Handler Headers.

Lemma varyLoop_refl h l pieces : varyLoop h l l pieces = true.
Proof.
  induction pieces as [|p pieces IH]; simpl; [done|].
  assert (Http.DeepEqual h (mapIndex h l (GoStrings.TrimSpace p))
                         (mapIndex h l (GoStrings.TrimSpace p)) = true) as ->.
  { by apply DeepEqual_spec. }
  done.
Qed.

(** X4. The entry [HandleNonCachedResponse] builds keeps the header map
    of the request it comes from ([Request{HeaderMap: r.Header}]): that
    request matches it, whatever [Vary] lists, unless the [Vary] value has
    no element, where [matchesRequest] panics. *)
Theorem matchesRequest_of_the_storing_request
    (h : heap) (r : Http.Request) (public : bool) (expiration : Z)
    (response : Response.t) :
  matchesRequest h r (mkEntry public expiration
                              (Request.mk (Http.Header r)) response)
  = match mapOf h (Response.HeaderMap response) !! "Vary" with
    | None => Some true
    | Some vary =>
        match sliceElems h vary with
        | [] => None
        | _ :: _ => Some true
        end
    end.
Proof.
  unfold matchesRequest. simpl.
  destruct (mapOf h _ !! "Vary") as [vary|]; [|done].
  destruct (sliceElems h vary); [done|].
  by rewrite varyLoop_refl.
Qed.

Lemma valuesOf_not_canonical h l name :
  canonicalKeys h l -> GoStrings.CanonicalMIMEHeaderKey name <> name ->
  valuesOf h l name = None.
Proof.
  intros Hcanon Hname. unfold valuesOf, mapIndex.
  destruct (mapOf h l !! name) as [s|] eqn:Hk; [|done].
  destruct Hname. apply Hcanon. by eexists.
Qed.

(** X5. [matchesRequest] looks the names of [Vary] up as they are
    written, without bringing them to canonical form.  When the two
    header maps hold canonical keys only, as those net/http builds do, a
    name of [Vary] that is not canonical ([accept-encoding]) is found in
    neither and counts as equal: the answer is decided by the names in
    canonical form alone. *)
Theorem matchesRequest_ignores_names_that_are_not_canonical
    (h : heap) (r : Http.Request) (entry : HttpCacheEntry)
    (vary : slice) (vary0 : string) (rest : list string) :
  canonicalKeys h (Request.HeaderMap (Request entry)) ->
  canonicalKeys h (Http.Header r) ->
  mapOf h (Response.HeaderMap (Response entry)) !! "Vary" = Some vary ->
  sliceElems h vary = vary0 :: rest ->
  exists b,
    matchesRequest h r entry = Some b
    /\ (b = true <->
        forall name, name ∈ varyNames vary0 ->
          GoStrings.CanonicalMIMEHeaderKey name = name ->
          valuesOf h (Request.HeaderMap (Request entry)) name
          = valuesOf h (Http.Header r) name).
Proof.
  intros Hstored Hcurrent Hvary Helems. unfold matchesRequest.
  rewrite Hvary, Helems. eexists. split; [done|].
  rewrite varyLoop_spec. fold (varyNames vary0). split.
  - intros Hall name Hin _. by apply Hall.
  - intros Hall name Hin.
    destruct (decide (GoStrings.CanonicalMIMEHeaderKey name = name)) as [Hc|Hc].
    + by apply Hall.
    + by rewrite !valuesOf_not_canonical.
Qed.

End matches_more.

(* ------------------------------------------------------------------ *)
(** ** The body of a hit *)
(* ------------------------------------------------------------------ *)

Section replay_body.
Import Heap Handler.
Context `{GrowthPolicy}.

Lemma writes_in_memory m chunks :
  exists m',
    foldl Storage.ContentWrite (Storage.InMemory m) chunks = Storage.InMemory m'
    /\ Storage.data m' = Storage.data m ++ concat chunks
    /\ Storage.isClosed m' = Storage.isClosed m.
Proof.
  revert m. induction chunks as [|p chunks IH]; intros m; simpl.
  - exists m. by rewrite app_nil_r.
  - destruct (IH (fst (Storage.Write m p))) as (m' & Hm' & Hdata & Hclosed).
    exists m'. split; [exact Hm'|]. rewrite Hdata, Hclosed. simpl.
    by rewrite app_assoc.
Qed.

Lemma writes_on_disk m chunks :
  foldl Storage.ContentWrite (Storage.OnDisk m) chunks
  = Storage.OnDisk {| Storage.file := Storage.file m ++ concat chunks;
                      Storage.mapping := Storage.mapping m |}.
Proof.
  revert m. induction chunks as [|p chunks IH]; intros m; simpl.
  - rewrite app_nil_r. by destruct m.
  - rewrite IH. simpl. by rewrite app_assoc.
Qed.

(** What [io.Copy] gets from a content that was created, written chunk by
    chunk and closed: every byte, and the end of the stream. *)
Lemma copyBody_closed st key c0 chunks :
  Storage.NewContent st None key = inl c0 ->
  copyBody (Storage.ContentClose (foldl Storage.ContentWrite c0 chunks))
  = (Storage.ContentClose (foldl Storage.ContentWrite c0 chunks),
     concat chunks, true).
Proof.
  destruct st; simpl; intros [= <-].
  - destruct (writes_in_memory Storage.NewMemoryData chunks)
      as (m' & -> & Hdata & Hclosed).
    simpl. unfold Storage.GetReader. simpl. by rewrite Hdata.
  - by rewrite writes_on_disk.
Qed.

Lemma wBody_replayed h w code body :
  Http.wBody (match body with
              | [] => Http.Writer_WriteHeader h w code
              | _ => Http.Writer_Write h (Http.Writer_WriteHeader h w code) body
              end)
  = Http.wBody w ++ body.
Proof.
  destruct body; simpl; rewrite !wBody_WriteHeader; [by rewrite app_nil_r|done].
Qed.

Lemma wCode_replayed h w code body :
  Http.wCode w = None ->
  Http.wCode (match body with
              | [] => Http.Writer_WriteHeader h w code
              | _ => Http.Writer_Write h (Http.Writer_WriteHeader h w code) body
              end)
  = Some code.
Proof.
  intros Hw. destruct body; unfold Http.Writer_Write, Http.Writer_WriteHeader;
    rewrite Hw; simpl; done.
Qed.

(** X6. A hit on an entry whose content was created by either storage,
    written chunk by chunk and closed: [HandleCachedResponse] returns the
    stored status code, writes it to a writer that has no status yet, and
    copies to the client every byte that was written to the content, in
    order; the content is left as it was. *)
Theorem HandleCachedResponse_replays_a_closed_content
    (cfg : Config) (h : heap) (contents : list Storage.StorageContent)
    (w : Http.ResponseWriter) (previous : HttpCacheEntry) (ref : nat)
    (st : Storage.Storage) (key : string) (c0 : Storage.StorageContent)
    (chunks : list bytes) :
  Response.Body (Response previous) = Some ref ->
  Storage.NewContent st None key = inl c0 ->
  contents !! ref
  = Some (Storage.ContentClose (foldl Storage.ContentWrite c0 chunks)) ->
  rCode (HandleCachedResponse cfg h contents w previous)
  = Response.Code (Response previous)
  /\ Http.wBody (rWriter (HandleCachedResponse cfg h contents w previous))
     = Http.wBody w ++ concat chunks
  /\ rCopied (HandleCachedResponse cfg h contents w previous) = true
  /\ rContents (HandleCachedResponse cfg h contents w previous) = contents
  /\ (Http.wCode w = None ->
      Http.wCode (rWriter (HandleCachedResponse cfg h contents w previous))
      = Some (Response.Code (Response previous))).
Proof.
  intros Hbody Hnew Hlook. unfold HandleCachedResponse.
  rewrite Hbody, Hlook, (copyBody_closed _ _ _ _ Hnew). simpl.
  split; [done|]. split; [apply wBody_replayed|]. split; [done|].
  split; [by apply list_insert_id|]. apply wCode_replayed.
Qed.

(** X7. A hit on an entry whose content is still being written.  From
    the memory storage the client gets the bytes written so far and the
    copy goes on; from the file storage, whose reader is made over the
    mapping that only [Close] creates, the client gets no byte and the
    copy is over. *)
Theorem HandleCachedResponse_on_an_open_content
    (cfg : Config) (h : heap) (contents : list Storage.StorageContent)
    (w : Http.ResponseWriter) (previous : HttpCacheEntry) (ref : nat)
    (st : Storage.Storage) (key : string) (c0 : Storage.StorageContent)
    (chunks : list bytes) :
  Response.Body (Response previous) = Some ref ->
  Storage.NewContent st None key = inl c0 ->
  contents !! ref = Some (foldl Storage.ContentWrite c0 chunks) ->
  match st with
  | Storage.MemoryStorage =>
      Http.wBody (rWriter (HandleCachedResponse cfg h contents w previous))
      = Http.wBody w ++ concat chunks
      /\ rCopied (HandleCachedResponse cfg h contents w previous) = false
  | Storage.MMapStorage _ =>
      Http.wBody (rWriter (HandleCachedResponse cfg h contents w previous))
      = Http.wBody w
      /\ rCopied (HandleCachedResponse cfg h contents w previous) = true
  end.
Proof.
  intros Hbody Hnew Hlook. unfold HandleCachedResponse.
  rewrite Hbody, Hlook.
  destruct st; simpl in Hnew; injection Hnew as <-.
  - destruct (writes_in_memory Storage.NewMemoryData chunks)
      as (m' & -> & Hdata & Hclosed).
    simpl. unfold Storage.GetReader. rewrite Hclosed. simpl.
    split; [|done]. rewrite wBody_replayed. by rewrite Hdata.
  - rewrite writes_on_disk. simpl. split; [|done].
    by rewrite wBody_WriteHeader.
Qed.

End replay_body.

(* ------------------------------------------------------------------ *)
(** ** The headers of a hit *)
(* ------------------------------------------------------------------ *)

Section replay_headers.
Import Heap Handler Headers.
Context `{GrowthPolicy}.

Lemma owned_wfHeader h l : owned h l -> wfHeader h l.
Proof.
  intros (Hl & Hin & _). split; [done|].
  intros a (k & n & Hk). by destruct (Hin _ _ _ Hk).
Qed.

Lemma valuesOf_headerValue h l k :
  valuesOf h l k = default None (headerValue h l !! k).
Proof.
  unfold valuesOf, mapIndex, headerValue. rewrite lookup_fmap.
  by destruct (mapOf h l !! k).
Qed.

Lemma mapOf_mapStore h l k s :
  l < length (maps h) -> mapOf (mapStore h l k s) l = <[k := s]> (mapOf h l).
Proof.
  intros Hl. unfold mapStore, mapOf, setMap. simpl.
  by rewrite list_lookup_insert_eq.
Qed.

Lemma arrayAt_mapStore h l k s a : arrayAt (mapStore h l k s) a = arrayAt h a.
Proof. done. Qed.

(** [Set] gives the key an array of its own. *)
Lemma Set_owned h l key value : owned h l -> owned (Set_ h l key value) l.
Proof.
  intros (Hl & Hin & Hown). unfold Set_, sliceLit, allocArray.
  set (h1 := mkHeap (arrays h ++ [[value]]) (maps h)).
  set (kc := GoStrings.CanonicalMIMEHeaderKey key).
  assert (Hm : mapOf (mapStore h1 l kc (Slice (length (arrays h)) 1)) l
               = <[kc := Slice (length (arrays h)) 1]> (mapOf h l)).
  { by rewrite mapOf_mapStore. }
  change (length [value]) with 1.
  split; [simpl; by rewrite length_insert|]. rewrite Hm. split.
  - intros k a n Hk. simpl. rewrite length_app. simpl.
    apply lookup_insert_Some in Hk as [[_ [= <- <-]]|[_ Hk]].
    + split; [lia|]. unfold arrayAt. simpl.
      rewrite lookup_app_r, Nat.sub_diag by lia. simpl. lia.
    + destruct (Hin _ _ _ Hk) as [Ha Hn]. split; [lia|].
      unfold arrayAt in *. simpl. by rewrite lookup_app_l.
  - intros k1 k2 a n1 n2 Hk1 Hk2.
    apply lookup_insert_Some in Hk1 as [[<- [= <- <-]]|[Hne1 Hk1]];
      apply lookup_insert_Some in Hk2 as [[<- Heq]|[Hne2 Hk2]]; try done.
    + destruct (Hin _ _ _ Hk2). lia.
    + injection Heq as <- <-. destruct (Hin _ _ _ Hk1). lia.
    + by eapply Hown.
Qed.

(** [Add] on a map that owns its slices: the canonical key gets the value
    behind those it has, the other keys keep theirs, and the map still
    owns its slices. *)
Lemma Add_owned h l key value :
  owned h l ->
  owned (Add h l key value) l
  /\ headerValue (Add h l key value) l
     = <[GoStrings.CanonicalMIMEHeaderKey key
         := Some (default [] (valuesOf h l (GoStrings.CanonicalMIMEHeaderKey key))
                  ++ [value])]> (headerValue h l).
Proof.
  intros (Hl & Hin & Hown). unfold Add.
  set (kc := GoStrings.CanonicalMIMEHeaderKey key).
  unfold append. destruct (decide _) as [Hroom|Hfull].
  - (* in place *)
    destruct (mapIndex h l kc) as [|a n] eqn:Hidx; simpl in Hroom; [lia|].
    assert (Hk : mapOf h l !! kc = Some (Slice a n)).
    { unfold mapIndex in Hidx.
      destruct (mapOf h l !! kc) as [s|]; simpl in Hidx; [by subst|done]. }
    destruct (Hin _ _ _ Hk) as [Ha Hn]. simpl.
    set (h1 := setArray h a (<[n := value]> (arrayAt h a))).
    assert (Hm : mapOf (mapStore h1 l kc (Slice a (S n))) l
                 = <[kc := Slice a (S n)]> (mapOf h l)).
    { by rewrite mapOf_mapStore. }
    assert (Harr : forall a', a' <> a -> arrayAt h1 a' = arrayAt h a').
    { intros a' Hne. unfold arrayAt, h1. simpl.
      by rewrite list_lookup_insert_ne. }
    assert (Harr' : arrayAt h1 a = <[n := value]> (arrayAt h a)).
    { unfold arrayAt at 1, h1. simpl.
      rewrite list_lookup_insert_eq by done. done. }
    split; [split; [|split]|].
    + simpl. by rewrite length_insert.
    + rewrite Hm. intros k a' n' Hk'. simpl. rewrite length_insert.
      apply lookup_insert_Some in Hk' as [[_ [= <- <-]]|[Hne Hk']].
      * split; [done|]. fold h1. rewrite arrayAt_mapStore, Harr', length_insert. lia.
      * destruct (Hin _ _ _ Hk') as [Ha' Hn']. split; [done|].
        fold h1. rewrite arrayAt_mapStore, Harr; [done|]. intros ->.
        by specialize (Hown _ _ _ _ _ Hk Hk').
    + rewrite Hm. intros k1 k2 a' n1 n2 Hk1 Hk2.
      apply lookup_insert_Some in Hk1 as [[<- [= <- <-]]|[Hne1 Hk1]];
        apply lookup_insert_Some in Hk2 as [[<- Heq]|[Hne2 Hk2]]; try done.
      * by specialize (Hown _ _ _ _ _ Hk Hk2).
      * injection Heq as <- <-. by specialize (Hown _ _ _ _ _ Hk1 Hk).
      * by eapply Hown.
    + rewrite headerValue_mapStore by (simpl; done).
      unfold valuesOf. rewrite Hidx. simpl.
      rewrite Harr'. fold h1.
      assert (Htake : take (S n) (<[n := value]> (arrayAt h a))
                      = take n (arrayAt h a) ++ [value]).
      { rewrite (take_S_r _ _ value).
        - by rewrite take_insert_ge by lia.
        - apply list_lookup_insert_eq. lia. }
      rewrite Htake. apply map_eq. intros k.
      destruct (decide (k = kc)) as [->|Hne].
      * by rewrite !lookup_insert_eq.
      * rewrite !lookup_insert_ne by done. unfold headerValue.
        change (mapOf h1 l) with (mapOf h l). rewrite !lookup_fmap.
        destruct (mapOf h l !! k) as [[|a' n']|] eqn:Hk'; simpl; try done.
        rewrite Harr; [done|]. intros ->.
        by specialize (Hown _ _ _ _ _ Hk Hk').
  - (* into a new array *)
    set (n := sliceLen (mapIndex h l kc)) in *.
    set (content := sliceElems h (mapIndex h l kc) ++ [value]
                    ++ replicate _ EmptyString).
    unfold allocArray.
    set (h1 := mkHeap (arrays h ++ [content]) (maps h)).
    set (anew := length (arrays h)).
    assert (Hm : mapOf (mapStore h1 l kc (Slice anew (S n))) l
                 = <[kc := Slice anew (S n)]> (mapOf h l)).
    { by rewrite mapOf_mapStore. }
    assert (Helems : length (sliceElems h (mapIndex h l kc)) = n).
    { unfold n. destruct (mapIndex h l kc) as [|a n'] eqn:Hidx; [done|].
      assert (Hk : mapOf h l !! kc = Some (Slice a n')).
      { unfold mapIndex in Hidx.
        destruct (mapOf h l !! kc) as [s|]; simpl in Hidx; [by subst|done]. }
      destruct (Hin _ _ _ Hk) as [_ Hn].
      simpl. rewrite length_take. lia. }
    assert (Hnew : arrayAt h1 anew = content).
    { unfold arrayAt, h1, anew. simpl.
      by rewrite lookup_app_r, Nat.sub_diag by lia. }
    assert (Hold : forall a, a < length (arrays h) -> arrayAt h1 a = arrayAt h a).
    { intros a Ha. unfold arrayAt, h1. simpl. by rewrite lookup_app_l. }
    split; [split; [|split]|].
    + simpl. by rewrite length_insert.
    + rewrite Hm. intros k a n' Hk. simpl. rewrite length_app. simpl.
      apply lookup_insert_Some in Hk as [[_ [= <- <-]]|[Hne Hk]].
      * split; [unfold anew; lia|]. fold h1. rewrite arrayAt_mapStore, Hnew.
        unfold content. rewrite !length_app, Helems. simpl. lia.
      * destruct (Hin _ _ _ Hk) as [Ha Hn]. split; [lia|].
        fold h1. by rewrite arrayAt_mapStore, Hold.
    + rewrite Hm. intros k1 k2 a n1 n2 Hk1 Hk2.
      apply lookup_insert_Some in Hk1 as [[<- [= <- <-]]|[Hne1 Hk1]];
        apply lookup_insert_Some in Hk2 as [[<- Heq]|[Hne2 Hk2]]; try done.
      * destruct (Hin _ _ _ Hk2). unfold anew in *. lia.
      * injection Heq as <- <-. destruct (Hin _ _ _ Hk1). unfold anew in *. lia.
      * by eapply Hown.
    + rewrite headerValue_mapStore by (simpl; done).
      unfold sliceValue at 1, sliceElems at 1. rewrite Hnew.
      assert (Htake : take (S n) content
                      = sliceElems h (mapIndex h l kc) ++ [value]).
      { unfold content. rewrite app_assoc.
        rewrite take_app_le by (rewrite length_app, Helems; simpl; lia).
        rewrite take_ge; [done|]. rewrite length_app, Helems. simpl. lia. }
      rewrite Htake.
      assert (Hval : default [] (valuesOf h l kc)
                     = sliceElems h (mapIndex h l kc)).
      { unfold valuesOf. by destruct (mapIndex h l kc). }
      rewrite Hval. f_equal. unfold headerValue.
      change (mapOf h1 l) with (mapOf h l).
      apply map_fmap_ext. intros k s Hk. destruct s as [|a n']; [done|].
      simpl. destruct (Hin _ _ _ Hk) as [Ha _]. by rewrite Hold.
Qed.

Lemma Add_all l k : forall vs h,
  owned h l ->
  owned (foldl (fun h' v => Add h' l k v) h vs) l
  /\ headerValue (foldl (fun h' v => Add h' l k v) h vs) l
     = match vs with
       | [] => headerValue h l
       | _ =>
           <[GoStrings.CanonicalMIMEHeaderKey k
             := Some (default []
                        (valuesOf h l (GoStrings.CanonicalMIMEHeaderKey k))
                      ++ vs)]> (headerValue h l)
       end.
Proof.
  induction vs as [|v vs IH]; intros h Hown; simpl; [done|].
  destruct (Add_owned h l k v Hown) as [Hown1 Hval1].
  destruct (IH _ Hown1) as [Hown2 Hval2]. split; [done|].
  rewrite Hval2. destruct vs as [|v' vs]; [done|].
  rewrite (valuesOf_headerValue (Add h l k v)), Hval1.
  rewrite lookup_insert_eq. simpl.
  by rewrite insert_insert_eq, <- app_assoc.
Qed.

Lemma Add_all_separated l l2 k : forall vs h,
  separated h l l2 ->
  separated (foldl (fun h' v => Add h' l k v) h vs) l l2
  /\ same_at l2 h (foldl (fun h' v => Add h' l k v) h vs).
Proof.
  induction vs as [|v vs IH]; intros h Hsep; simpl.
  - split; [done|apply same_at_refl].
  - destruct (mutate_separated h l l2 (Http.MAdd k v) (Add h l k v) Hsep eq_refl)
      as [Hsep1 Hsame1].
    destruct (IH _ Hsep1) as [Hsep2 Hsame2].
    split; [done|]. by eapply same_at_trans.
Qed.

Lemma same_at_sliceElems l2 h0 h k s :
  same_at l2 h0 h -> mapOf h0 l2 !! k = Some s ->
  sliceElems h s = sliceElems h0 s.
Proof.
  intros [_ Harr] Hk. destruct s as [|a n]; [done|]. simpl.
  rewrite Harr; [done|]. by exists k, n.
Qed.

(** The loop of [HandleCachedResponse] over the stored headers. *)
Lemma addValues_all w stored h0 : forall todo h,
  owned h (Http.wHeader w) ->
  separated h (Http.wHeader w) stored ->
  same_at stored h0 h ->
  NoDup todo.*1 ->
  (forall k s, (k, s) ∈ todo ->
     mapOf h0 stored !! k = Some s /\ GoStrings.CanonicalMIMEHeaderKey k = k) ->
  owned (foldl (addValues w) h todo) (Http.wHeader w)
  /\ separated (foldl (addValues w) h todo) (Http.wHeader w) stored
  /\ same_at stored h0 (foldl (addValues w) h todo)
  /\ forall name,
      (forall s, (name, s) ∈ todo ->
         headerValue (foldl (addValues w) h todo) (Http.wHeader w) !! name
         = replayed (headerValue h (Http.wHeader w) !! name)
                    (sliceElems h0 s))
      /\ (name ∉ todo.*1 ->
          headerValue (foldl (addValues w) h todo) (Http.wHeader w) !! name
          = headerValue h (Http.wHeader w) !! name).
Proof.
  induction todo as [|[k s] todo IH];
    intros h Hown Hsep Hsame Hnodup Hin; simpl.
  - split; [done|]. split; [done|]. split; [done|].
    intros name. split; [|done]. intros s' Hs'. by apply elem_of_nil in Hs'.
  - apply NoDup_cons in Hnodup as [Hk Hnodup]. simpl in Hk.
    destruct (Hin k s) as [Hstored Hcanon]; [by left|].
    rewrite (same_at_sliceElems _ _ _ _ _ Hsame Hstored).
    set (h1 := foldl (fun h' v => Add h' (Http.wHeader w) k v) h
                     (sliceElems h0 s)).
    destruct (Add_all (Http.wHeader w) k (sliceElems h0 s) h Hown)
      as [Hown1 Hval1].
    destruct (Add_all_separated (Http.wHeader w) stored k (sliceElems h0 s)
                h Hsep) as [Hsep1 Hsame1].
    fold h1 in Hown1, Hval1, Hsep1, Hsame1.
    assert (Hsame' : same_at stored h0 h1) by by eapply same_at_trans.
    destruct (IH h1 Hown1 Hsep1 Hsame' Hnodup) as (Hown2 & Hsep2 & Hsame2 & Hval2).
    { intros k' s' Hk'. apply Hin. by right. }
    split; [done|]. split; [done|]. split; [done|].
    intros name. destruct (Hval2 name) as [Hthere Habsent]. split.
    + intros s' [[= -> ->]|Hs']%elem_of_cons.
      * rewrite Habsent by done. rewrite Hval1, Hcanon.
        unfold replayed. destruct (sliceElems h0 s); [done|].
        by rewrite lookup_insert_eq, valuesOf_headerValue.
      * rewrite (Hthere _ Hs'). f_equal. rewrite Hval1, Hcanon.
        assert (name <> k) as Hne.
        { intros ->. apply Hk. apply list_elem_of_fmap. by exists (k, s'). }
        destruct (sliceElems h0 s); [done|]. by rewrite lookup_insert_ne.
    + intros Hname. apply not_elem_of_cons in Hname as [Hne Hname].
      rewrite (Habsent Hname), Hval1, Hcanon.
      destruct (sliceElems h0 s); [done|]. by rewrite lookup_insert_ne.
Qed.

Lemma wSent_replayed h w code (body : bytes) :
  Http.wCode w = None ->
  Http.wSent (match body with
              | [] => Http.Writer_WriteHeader h w code
              | _ => Http.Writer_Write h (Http.Writer_WriteHeader h w code) body
              end)
  = headerValue h (Http.wHeader w).
Proof.
  intros Hw. destruct body; unfold Http.Writer_Write, Http.Writer_WriteHeader;
    rewrite Hw; simpl; done.
Qed.

(** X8. The headers of a hit.  The writer's header map owns its slices
    and shares nothing with the stored headers, whose keys are canonical,
    and no status has been written.  Then the headers sent to the client
    are those the writer has once the status header is set to [hit], and
    behind them, name by name, the stored values in their order; a stored
    name without a value is not sent. *)
Theorem HandleCachedResponse_replays_the_stored_headers
    (cfg : Config) (h : heap) (contents : list Storage.StorageContent)
    (w : Http.ResponseWriter) (previous : HttpCacheEntry) (name : string) :
  owned h (Http.wHeader w) ->
  separated h (Http.wHeader w) (Response.HeaderMap (Response previous)) ->
  canonicalKeys h (Response.HeaderMap (Response previous)) ->
  Http.wCode w = None ->
  Http.wSent (rWriter (HandleCachedResponse cfg h contents w previous)) !! name
  = replayed
      (headerValue (AddStatusHeaderIfConfigured cfg h w "hit")
                   (Http.wHeader w) !! name)
      (default [] (valuesOf h (Response.HeaderMap (Response previous)) name)).
Proof.
  intros Hown Hsep Hcanon Hcode.
  set (stored := Response.HeaderMap (Response previous)) in *.
  set (h1 := AddStatusHeaderIfConfigured cfg h w "hit").
  assert (Hh1 : owned h1 (Http.wHeader w)
                /\ separated h1 (Http.wHeader w) stored
                /\ same_at stored h h1).
  { unfold h1, AddStatusHeaderIfConfigured. destruct (decide _).
    - split; [by apply Set_owned|].
      exact (mutate_separated h (Http.wHeader w) stored
               (Http.MSet (StatusHeader cfg) "hit") _ Hsep eq_refl).
    - split; [done|]. split; [done|apply same_at_refl]. }
  destruct Hh1 as (Hown1 & Hsep1 & Hsame1).
  assert (Hmap : mapOf h1 stored = mapOf h stored) by apply Hsame1.
  destruct (addValues_all w stored h (map_to_list (mapOf h stored)) h1
              Hown1 Hsep1 Hsame1) as (_ & _ & _ & Hval).
  { apply NoDup_fst_map_to_list. }
  { intros k s Hk. apply elem_of_map_to_list in Hk. split; [done|].
    apply Hcanon. by eexists. }
  assert (Hsent :
    Http.wSent (rWriter (HandleCachedResponse cfg h contents w previous))
    = headerValue (foldl (addValues w) h1 (map_to_list (mapOf h stored)))
                  (Http.wHeader w)).
  { unfold HandleCachedResponse. fold h1. fold stored. rewrite Hmap.
    destruct (Response.Body (Response previous)) as [ref|]; simpl.
    - destruct (contents !! ref) as [c|]; simpl.
      + destruct (copyBody c) as [[c' body] over]. simpl.
        by apply wSent_replayed.
      + unfold Http.Writer_WriteHeader. by rewrite Hcode.
    - unfold Http.Writer_WriteHeader. by rewrite Hcode. }
  rewrite Hsent. destruct (Hval name) as [Hthere Habsent].
  unfold valuesOf, mapIndex.
  destruct (mapOf h stored !! name) as [s|] eqn:Hname; simpl.
  - rewrite (Hthere s) by by apply elem_of_map_to_list.
    by destruct s.
  - rewrite Habsent; [done|]. intros Hin.
    apply list_elem_of_fmap in Hin as ([k s] & -> & Hin).
    apply elem_of_map_to_list in Hin. simpl in Hname. congruence.
Qed.

End replay_headers.

(* ------------------------------------------------------------------ *)
(** ** The program of the recorder, as a whole *)
(* ------------------------------------------------------------------ *)

Section program_facts.
Import Recorder Trace.

Lemma sent_app es1 es2 : sent (es1 ++ es2) = sent es1 ++ sent es2.
Proof. unfold sent. by rewrite flat_map_app. Qed.

Lemma written_app es1 es2 : written (es1 ++ es2) = written es1 ++ written es2.
Proof. unfold written. by rewrite flat_map_app. Qed.

Lemma sent_afterHeaders next : sent (flat_map afterHeaders next) = bodyOf next.
Proof.
  induction next as [|c next IH]; [done|].
  simpl. rewrite sent_app, IH. destruct c; simpl; by rewrite ?app_nil_r.
Qed.

Lemma written_afterHeaders next :
  written (flat_map afterHeaders next) = bodyOf next.
Proof.
  induction next as [|c next IH]; [done|].
  simpl. rewrite written_app, IH. destruct c; simpl; by rewrite ?app_nil_r.
Qed.

Lemma bodyOf_app next1 next2 : bodyOf (next1 ++ next2) = bodyOf next1 ++ bodyOf next2.
Proof. unfold bodyOf. by rewrite flat_map_app. Qed.

Lemma statusOf_trigger pre c post :
  triggered pre = false -> isTrigger c = true ->
  statusOf (pre ++ c :: post) = codeOf c.
Proof.
  intros Hpre Hc. unfold statusOf.
  induction pre as [|c' pre IH]; simpl.
  - by rewrite Hc.
  - simpl in Hpre. apply orb_false_elim in Hpre as [-> Hpre]. by apply IH.
Qed.

Lemma not_in_afterHeaders e next :
  match e with
  | ECloseBody | ECloneHeader _ | ESendHeader | EDownWriteHeader _ => True
  | _ => False
  end ->
  e ∉ flat_map afterHeaders next.
Proof.
  intros He Hin. apply list_elem_of_In, in_flat_map in Hin as (c & _ & Hin).
  destruct c, e; simpl in *; intuition congruence.
Qed.

(** The program ends with the one close of the body channel. *)
Lemma program_ends_with_close next :
  exists body, program next = body ++ [ECloseBody] /\ ECloseBody ∉ body.
Proof.
  destruct (triggered next) eqn:Ht.
  - destruct (first_trigger next Ht) as (pre & c & post & -> & Hpre & Hc).
    rewrite program_trigger by done.
    exists (flat_map afterHeaders pre
            ++ ECloneHeader (codeOf c) :: ESendHeader
            :: EDownWriteHeader (codeOf c)
            :: afterHeaders c ++ flat_map afterHeaders post).
    split; [by rewrite <- !app_assoc; simpl; rewrite <- app_assoc|].
    change (afterHeaders c ++ flat_map afterHeaders post)
      with (flat_map afterHeaders (c :: post)).
    rewrite elem_of_app, !elem_of_cons.
    intros [Hin|[?|[?|[?|Hin]]]]; try done;
      by eapply not_in_afterHeaders in Hin.
  - rewrite program_quiet by done. eexists. split; [done|].
    by apply not_in_afterHeaders.
Qed.

(** Every header event of the program carries the status of the run. *)
Lemma program_status next code :
  ECloneHeader code ∈ program next -> code = statusOf next.
Proof.
  destruct (triggered next) eqn:Ht.
  - destruct (first_trigger next Ht) as (pre & c & post & -> & Hpre & Hc).
    rewrite program_trigger, statusOf_trigger by done.
    rewrite (app_assoc (afterHeaders c)).
    change (afterHeaders c ++ flat_map afterHeaders post)
      with (flat_map afterHeaders (c :: post)).
    rewrite elem_of_app, !elem_of_cons, elem_of_app.
    intros [Hin|[[= ->]|[?|[?|[Hin|Hin]]]]]; try done.
    + by eapply not_in_afterHeaders in Hin.
    + by eapply not_in_afterHeaders in Hin.
    + by apply list_elem_of_singleton in Hin.
  - rewrite program_quiet by done. rewrite elem_of_app.
    intros [Hin|Hin]; [by eapply not_in_afterHeaders in Hin|].
    by apply list_elem_of_singleton in Hin.
Qed.

Lemma sent_program next : sent (program next) = bodyOf next.
Proof.
  destruct (triggered next) eqn:Ht.
  - destruct (first_trigger next Ht) as (pre & c & post & -> & Hpre & Hc).
    rewrite program_trigger by done.
    rewrite (app_assoc (afterHeaders c)).
    change (afterHeaders c ++ flat_map afterHeaders post)
      with (flat_map afterHeaders (c :: post)).
    rewrite sent_app.
    change (sent (ECloneHeader (codeOf c) :: ESendHeader
                  :: EDownWriteHeader (codeOf c) :: ?es)) with (sent es).
    rewrite sent_app, !sent_afterHeaders, bodyOf_app.
    change (sent [ECloseBody]) with (@nil Byte.byte).
    by rewrite app_nil_r.
  - rewrite program_quiet, sent_app, sent_afterHeaders by done.
    simpl. by rewrite app_nil_r.
Qed.

Lemma written_program next : written (program next) = bodyOf next.
Proof.
  destruct (triggered next) eqn:Ht.
  - destruct (first_trigger next Ht) as (pre & c & post & -> & Hpre & Hc).
    rewrite program_trigger by done.
    rewrite (app_assoc (afterHeaders c)).
    change (afterHeaders c ++ flat_map afterHeaders post)
      with (flat_map afterHeaders (c :: post)).
    rewrite written_app.
    change (written (ECloneHeader (codeOf c) :: ESendHeader
                  :: EDownWriteHeader (codeOf c) :: ?es)) with (written es).
    rewrite written_app, !written_afterHeaders, bodyOf_app.
    change (written [ECloseBody]) with (@nil Byte.byte).
    by rewrite app_nil_r.
  - rewrite program_quiet, written_app, written_afterHeaders by done.
    simpl. by rewrite app_nil_r.
Qed.

(** X9. Whatever the upstream handler calls, the recorder sends on the
    body channel the bytes of its [Write] calls, in order and nothing
    else, writes the same bytes to the downstream client, and closes the
    body channel once, as the last thing it does: no send follows the
    close. *)
Theorem recorder_sends_every_write_then_closes (next : list call) :
  exists body,
    program next = body ++ [ECloseBody]
    /\ (ECloseBody ∉ body)
    /\ sent body = bodyOf next
    /\ written body = bodyOf next.
Proof.
  destruct (program_ends_with_close next) as (body & Hbody & Hnot).
  exists body. split; [done|]. split; [done|].
  pose proof (sent_program next) as Hs.
  pose proof (written_program next) as Hw.
  rewrite Hbody, sent_app in Hs. rewrite Hbody, written_app in Hw.
  simpl in Hs, Hw. rewrite app_nil_r in Hs, Hw. done.
Qed.

End program_facts.

(* ------------------------------------------------------------------ *)
(** ** Whole runs of [HandleNonCachedResponse] *)
(* ------------------------------------------------------------------ *)

Section fetch_runs.
Import Heap Recorder Fetch Trace.
Context `{GrowthPolicy} `{Freshness}.
Variable ch : CacheHandler.
Variable now : Z.
Variable r : Http.Request.

Lemma written_snoc es e :
  written (es ++ [e])
  = written es ++ match e with EDownWrite buf => buf | _ => [] end.
Proof. rewrite written_app. simpl. by rewrite app_nil_r. Qed.

Lemma sent_snoc es e :
  sent (es ++ [e])
  = sent es ++ match e with ESendBody buf => buf | _ => [] end.
Proof. rewrite sent_app. simpl. by rewrite app_nil_r. Qed.

Ltac trace_solve :=
  rewrite ?app_nil_r in *;
  repeat match goal with
  | |- _ /\ _ => split
  | |- _ -> _ => intro
  | H : _ /\ _ |- _ => destruct H
  | H : True -> _ |- _ => specialize (H I)
  end;
  simplify_eq/=; try done; try congruence; try lia; eauto.

Lemma traceInv_step body0 s g s' :
  traceInv (Next ch) body0 s -> step ch now r g s = Some s' ->
  traceInv (Next ch) body0 s'.
Proof.
  intros (Hup & Hbody & Hrec & Hcop & Hearly) Hstep.
  unfold step in Hstep. destruct (panicked s) eqn:Hpanic; [done|].
  unfold traceInv, recorded, copierOk in *.
  destruct g.
  - (* the upstream goroutine *)
    unfold stepUpstream in Hstep.
    destruct (upstream s) as [[|e rest]|] eqn:Hu; try done.
    destruct Hup as [Hprog Hnogo].
    destruct e; simpl in Hstep.
    + destruct (Http.mutate _ _ _); simplify_eq/=;
        rewrite ?Hu, ?written_snoc, ?sent_snoc, <- ?app_assoc; trace_solve.
    + simplify_eq/=.
      rewrite ?written_snoc, ?sent_snoc, <- ?app_assoc; trace_solve.
    + destruct (handler s) eqn:Hh; try done.
      destruct (event s); simplify_eq/=.
      rewrite ?written_snoc, ?sent_snoc, <- ?app_assoc. trace_solve.
    + simplify_eq/=. rewrite wBody_WriteHeader.
      rewrite ?written_snoc, ?sent_snoc, <- ?app_assoc; trace_solve.
    + destruct (copier s) eqn:Hc; simplify_eq/=.
      rewrite ?written_snoc, ?sent_snoc, <- ?app_assoc. trace_solve.
      destruct (handler s); simpl in *; try done; by specialize (Hearly I).
    + simplify_eq/=. rewrite wBody_WriteHeader.
      rewrite ?written_snoc, ?sent_snoc, <- ?app_assoc. trace_solve.
      by rewrite Hbody, app_assoc.
    + destruct (Http.wIsFlusher (w s)); simplify_eq/=;
        rewrite ?written_snoc, ?sent_snoc, <- ?app_assoc; trace_solve.
    + simplify_eq/=.
      rewrite ?written_snoc, ?sent_snoc, <- ?app_assoc; trace_solve.
  - (* the goroutine of the handler *)
    unfold stepHandler in Hstep.
    destruct (handler s) eqn:Hh.
    + simplify_eq/=. destruct (upstream s); [by destruct Hup|].
      destruct Hup as [_ Hperf]. rewrite Hperf in *. trace_solve.
    + done.
    + destruct (getCacheableStatus _ _ _ _ _ _) as [[[] exp] [err|]];
        simplify_eq/=; try solve [destruct (upstream s); trace_solve].
      destruct (Storage.NewContent _ _ _) as [c|err] eqn:Hnew;
        simplify_eq/=; try solve [destruct (upstream s); trace_solve].
      rewrite (Hearly I) in Hrec. rewrite <- Hrec.
      rewrite lookup_app_r, Nat.sub_diag, length_app by lia. simpl.
      rewrite (NewContent_empty _ _ _ _ Hnew).
      destruct (upstream s); trace_solve.
    + simplify_eq/=. destruct (upstream s); trace_solve.
    + destruct ret as [entry []|err]; simplify_eq/=;
        destruct (upstream s); trace_solve.
    + done.
    + done.
  - (* the goroutine that fills the content *)
    unfold stepCopier in Hstep.
    destruct (copier s) eqn:Hc; try done.
    + destruct (bodyClosed s); simplify_eq/=.
      destruct (upstream s); trace_solve;
        destruct (handler s); simpl in *; try done; by specialize (Hearly I).
    + destruct (contents s !! bodyWriter) as [c|] eqn:Hlook; simplify_eq/=.
      * rewrite list_lookup_insert_eq, length_insert by done. simpl.
        rewrite contentData_Write. simpl in Hrec.
        destruct (upstream s); trace_solve;
          destruct (handler s); simpl in *; try done; by specialize (Hearly I).
      * apply lookup_ge_None in Hlook. lia.
    + destruct (contents s !! bodyWriter) as [c|] eqn:Hlook; simplify_eq/=.
      * rewrite list_lookup_insert_eq, length_insert by done. simpl.
        rewrite contentData_Close. simpl in Hrec.
        destruct (upstream s); trace_solve;
          destruct (handler s); simpl in *; try done; by specialize (Hearly I).
      * apply lookup_ge_None in Hlook. lia.
    + destruct (handler s) eqn:Hh; simplify_eq/=.
      destruct (upstream s); trace_solve.
Qed.

Lemma traceInv_init h0 w0 index :
  traceInv (Next ch) (Http.wBody w0) (init h0 w0 index).
Proof. unfold traceInv. simpl. by rewrite app_nil_r. Qed.

Lemma close_is_last next done_ rest :
  done_ ++ ECloseBody :: rest = program next -> rest = [].
Proof.
  destruct (program_ends_with_close next) as (body & -> & Hnot).
  destruct rest as [|e rest _] using rev_ind; [done|].
  intros Heq.
  change (done_ ++ ECloseBody :: rest ++ [e])
    with (done_ ++ (ECloseBody :: rest) ++ [e]) in Heq.
  rewrite app_assoc in Heq. apply app_inj_tail in Heq as [<- _].
  destruct Hnot. set_solver.
Qed.

Lemma contentClosed_Close c : contentClosed (Storage.ContentClose c).
Proof. by destruct c. Qed.

Ltac ctl_solve :=
  repeat match goal with
  | |- _ /\ _ => split
  | |- forall _, _ => intro
  | H : _ /\ _ |- _ => destruct H
  | H : exists _, _ |- _ => destruct H
  | H : copying _ _ |- _ => progress (simpl in H)
  | H : True -> _ |- _ => specialize (H I)
  | H : False |- _ => destruct H
  | H : _ \/ _ |- _ => destruct H
  end;
  simplify_eq/=; try done; try congruence; eauto 10.

Lemma controlInv_step body0 index s g s' :
  traceInv (Next ch) body0 s ->
  controlInv (Next ch) (Handler.getKey r) index s ->
  step ch now r g s = Some s' ->
  controlInv (Next ch) (Handler.getKey r) index s'.
Proof.
  intros (Hup & _ & _ & Hcop & Hearly) (Hclosed & Hcopier & Hevent & Hhandler) Hstep.
  unfold step in Hstep. destruct (panicked s) eqn:Hpanic; [done|].
  unfold controlInv, copierOk in *.
  destruct g.
  - (* the upstream goroutine *)
    unfold stepUpstream in Hstep.
    destruct (upstream s) as [[|e rest]|] eqn:Hu; try done.
    destruct Hup as [Hprog Hnogo].
    assert (Hopen : bodyClosed s = false).
    { destruct (bodyClosed s); [|done]. by specialize (Hclosed eq_refl). }
    rewrite Hopen in *.
    destruct e; simpl in Hstep.
    + destruct (Http.mutate _ _ _); simplify_eq/=; rewrite ?Hopen, ?Hu;
        ctl_solve.
    + simplify_eq/=. rewrite ?Hopen. split; [done|]. split; [done|].
      split; [|done]. intros ev [= <-]. simpl.
      apply program_status. rewrite <- Hprog. set_solver.
    + destruct (handler s) eqn:Hh; try done.
      destruct (event s) as [ev|] eqn:Hev; simplify_eq/=. rewrite ?Hopen.
      split; [done|]. split; [done|]. split; [done|].
      split; [by apply Hearly|]. split; [done|]. by apply Hevent.
    + simplify_eq/=. rewrite ?Hopen. ctl_solve.
    + destruct (copier s) eqn:Hc; simplify_eq/=. rewrite ?Hopen.
      split; [done|]. split; [done|]. split; [done|].
      destruct (handler s) as [| |ev|ev|[e []|err]|code|code [err|]];
        ctl_solve.
    + simplify_eq/=. rewrite ?Hopen. ctl_solve.
    + destruct (Http.wIsFlusher (w s)); simplify_eq/=; rewrite ?Hopen;
        ctl_solve.
    + simplify_eq/=. rewrite (close_is_last _ _ _ Hprog).
      split; [done|]. split; [|done].
      destruct (copier s); ctl_solve.
  - (* the goroutine of the handler *)
    unfold stepHandler in Hstep.
    destruct (handler s) eqn:Hh.
    + simplify_eq/=. destruct (upstream s); [by destruct Hup|].
      split; [intros Hb; by specialize (Hclosed Hb)|]. done.
    + done.
    + destruct Hhandler as (Hns & Hidx & Hcode).
      destruct (getCacheableStatus _ _ _ _ _ _) as [[[] exp] [err|]];
        simplify_eq/=; try solve [rewrite Hns in *; ctl_solve].
      destruct (Storage.NewContent _ _ _) as [c|err] eqn:Hnew;
        simplify_eq/=; rewrite Hns in *; ctl_solve.
    + destruct Hhandler as (Hns & Hidx & Hcode). simplify_eq/=.
      rewrite Hns in *. ctl_solve.
    + destruct ret as [entry []|err]; simplify_eq/=.
      * destruct Hhandler as (Hidx & Hpub & Hcode & bw & Hcopy & Hbw).
        split; [done|]. split; [by destruct (copier s)|]. split; [done|].
        split; [done|]. exists entry, bw. rewrite Hidx. done.
      * destruct Hhandler as (Hns & Hidx & Hpub & Hbody & Hcode).
        rewrite Hns in *. split; [done|]. split; [done|]. split; [done|].
        split; [done|]. exists entry. rewrite Hidx. split; [done|].
        split; [done|]. left. done.
      * destruct Hhandler as (Hns & Hidx). rewrite Hns in *. ctl_solve.
    + done.
    + done.
  - (* the goroutine that fills the content *)
    unfold stepCopier in Hstep.
    destruct (copier s) eqn:Hc; try done.
    + destruct (bodyClosed s) eqn:Hb; simplify_eq/=. rewrite Hb.
      split; [done|]. split; [done|]. split; [done|].
      destruct (handler s) as [| |ev|ev|[e []|err]|code|code [err|]];
        ctl_solve.
    + destruct (contents s !! bodyWriter) as [c|] eqn:Hlook; simplify_eq/=.
      * split; [done|]. split; [done|]. split; [done|].
        destruct (handler s) as [| |ev|ev|[e []|err]|code|code [err|]];
          ctl_solve.
      * apply lookup_ge_None in Hlook. lia.
    + destruct (contents s !! bodyWriter) as [c|] eqn:Hlook; simplify_eq/=.
      * split; [done|]. split.
        { split; [done|]. exists (Storage.ContentClose c).
          rewrite list_lookup_insert_eq by done.
          split; [done|apply contentClosed_Close]. }
        split; [done|].
        destruct (handler s) as [| |ev|ev|[e []|err]|code|code [err|]];
          ctl_solve.
      * apply lookup_ge_None in Hlook. lia.
    + destruct (handler s) eqn:Hh; simplify_eq/=.
      destruct Hhandler as (Hcode & e & bw & Hidx & Hpub & Hecode & Hcopy & Hbw).
      simpl in Hcopy. subst bw.
      split; [done|]. split; [done|]. split; [done|].
      split; [done|]. exists e. split; [done|]. split; [done|].
      right. split; [done|]. by exists bodyWriter.
Qed.

Lemma controlInv_init h0 w0 index key :
  controlInv (Next ch) key index (init h0 w0 index).
Proof. by unfold controlInv. Qed.

(** The two invariants together, along any schedule. *)
Lemma run_traced h0 w0 index sched :
  traceInv (Next ch) (Http.wBody w0) (run ch now r sched (init h0 w0 index))
  /\ controlInv (Next ch) (Handler.getKey r) index
                (run ch now r sched (init h0 w0 index)).
Proof.
  apply (run_invariant ch now r
           (fun s => traceInv (Next ch) (Http.wBody w0) s
                     /\ controlInv (Next ch) (Handler.getKey r) index s)).
  - intros s g s' [Ht Hc] Hstep. split.
    + by eapply traceInv_step.
    + by eapply controlInv_step.
  - split; [apply traceInv_init|apply controlInv_init].
Qed.

Lemma copyBody_of_closed c :
  contentClosed c -> Handler.copyBody c = (c, Storage.contentData c, true).
Proof.
  destruct c as [m|m]; simpl; intros Hc.
  - unfold Storage.GetReader. rewrite Hc. simpl. by destruct m.
  - by rewrite Hc.
Qed.

(** X10. A response that is stored.  Once the goroutine that fills the
    content has finished, whatever the interleaving was: the handler has
    returned the status of the upstream response and no error; the client
    of this request has been sent the bytes of the calls of [Write] of
    the upstream handler, in order; the content is closed; and one entry
    was added to the entries of the key, public, with that status and
    that content.  (Which bytes the content holds depends on what the
    upstream handler does with its buffers after [Write], see X20 and
    X21.) *)
Theorem finished_fetch_is_delivered_and_indexed
    (h0 : heap) (w0 : Http.ResponseWriter)
    (index : gmap string (list HttpCacheEntry)) (sched : list goroutine)
    (bw : nat) :
  copier (run ch now r sched (init h0 w0 index)) = Finished bw ->
  handler (run ch now r sched (init h0 w0 index))
  = Done (statusOf (Next ch)) None
  /\ Http.wBody (w (run ch now r sched (init h0 w0 index)))
     = Http.wBody w0 ++ bodyOf (Next ch)
  /\ upstream (run ch now r sched (init h0 w0 index)) = Some []
  /\ (exists c,
        contents (run ch now r sched (init h0 w0 index)) !! bw = Some c
        /\ contentClosed c)
  /\ exists e,
      entries (run ch now r sched (init h0 w0 index))
      = Cache.store (Handler.getKey r) (Some e) index
      /\ isPublic e = true
      /\ Response.Body (Response e) = Some bw
      /\ Response.Code (Response e) = statusOf (Next ch).
Proof.
  intros Hfin.
  destruct (run_traced h0 w0 index sched) as [Ht Hc].
  set (s := run ch now r sched (init h0 w0 index)) in *.
  destruct Ht as (Hup & Hbody & Hrec & Hcop & Hearly).
  destruct Hc as (Hclosed & Hcopier & Hevent & Hhandler).
  rewrite Hfin in Hcopier. destruct Hcopier as (Hbc & c & Hlook & Hcc).
  pose proof (Hclosed Hbc) as Hover.
  rewrite Hover in Hup. destruct Hup as [Hprog _].
  rewrite app_nil_r in Hprog.
  rewrite Hprog, written_program in Hbody.
  assert (Hdone : handler s = Done (statusOf (Next ch)) None
                  /\ exists e,
                      entries s = Cache.store (Handler.getKey r) (Some e) index
                      /\ isPublic e = true
                      /\ Response.Body (Response e) = Some bw
                      /\ Response.Code (Response e) = statusOf (Next ch)).
  { destruct (handler s) as [| |ev|ev|[e []|err]|code|code [err|]];
      simpl in Hearly; rewrite ?Hfin in *;
      try (by specialize (Hearly I)); ctl_solve. }
  destruct Hdone as [Hdone Hentry].
  split; [done|]. split; [done|]. split; [done|]. split; [|done].
  by exists c.
Qed.

(** X11. A response that is not stored.  As long as the goroutine that
    fills a content has not been started, in any interleaving, nothing has
    been received from the body channel and the client has not got one
    byte of the body; the goroutine is started on the cacheable path
    only.  When the handler has then returned without an error, it has
    returned the status of the upstream response and added a private
    entry without a body to the entries of the key. *)
Theorem response_without_copier_delivers_no_body
    (h0 : heap) (w0 : Http.ResponseWriter)
    (index : gmap string (list HttpCacheEntry)) (sched : list goroutine) :
  copier (run ch now r sched (init h0 w0 index)) = NotStarted ->
  Http.wBody (w (run ch now r sched (init h0 w0 index))) = Http.wBody w0
  /\ sent (performed (run ch now r sched (init h0 w0 index))) = []
  /\ forall code,
      handler (run ch now r sched (init h0 w0 index)) = Done code None ->
      code = statusOf (Next ch)
      /\ exists e,
          entries (run ch now r sched (init h0 w0 index))
          = Cache.store (Handler.getKey r) (Some e) index
          /\ isPublic e = false
          /\ Response.Body (Response e) = None
          /\ Response.Code (Response e) = code.
Proof.
  intros Hns.
  destruct (run_traced h0 w0 index sched) as [Ht Hc].
  pose proof (run_invariant ch now r (bodyInv (Http.wBody w0))
                (bodyInv_step ch now r (Http.wBody w0)) sched _
                (bodyInv_init h0 w0 index))
    as (delivered & Hbody & Hrec & _ & _ & _ & Hquiet & _).
  set (s := run ch now r sched (init h0 w0 index)) in *.
  destruct Ht as (_ & _ & Hsent & _).
  destruct Hc as (_ & _ & _ & Hhandler).
  unfold recorded in Hrec, Hsent. rewrite Hns in Hrec, Hsent.
  destruct (Hquiet Hns) as [Hin _]. rewrite Hin, app_nil_r in Hrec.
  subst delivered. rewrite app_nil_r in Hbody.
  split; [done|]. split; [done|].
  intros code Hdone. rewrite Hdone, Hns in Hhandler.
  destruct Hhandler as (Hcode & e & Hidx & Hecode & [(_ & Hpub & Hb)|(_ & bw & Hbw & _)]);
    [|done].
  split; [done|]. by exists e.
Qed.

(** X12. A fetch that fails.  When the handler has returned an error
    (that of [getCacheableStatus] or that of [NewContent]), in any
    interleaving: the status it returns is 500, the index is as it was,
    no goroutine fills a content and the client has not got one byte of
    the body. *)
Theorem failed_fetch_stores_nothing
    (h0 : heap) (w0 : Http.ResponseWriter)
    (index : gmap string (list HttpCacheEntry)) (sched : list goroutine)
    (code : Z) (err : error) :
  handler (run ch now r sched (init h0 w0 index)) = Done code (Some err) ->
  code = 500%Z
  /\ entries (run ch now r sched (init h0 w0 index)) = index
  /\ copier (run ch now r sched (init h0 w0 index)) = NotStarted
  /\ Http.wBody (w (run ch now r sched (init h0 w0 index))) = Http.wBody w0.
Proof.
  intros Hdone.
  destruct (run_traced h0 w0 index sched) as [Ht Hc].
  pose proof (run_invariant ch now r (bodyInv (Http.wBody w0))
                (bodyInv_step ch now r (Http.wBody w0)) sched _
                (bodyInv_init h0 w0 index))
    as (delivered & Hbody & Hrec & _ & _ & _ & Hquiet & _).
  set (s := run ch now r sched (init h0 w0 index)) in *.
  destruct Hc as (_ & _ & _ & Hhandler). rewrite Hdone in Hhandler.
  destruct Hhandler as (Hcode & Hns & Hidx).
  split; [done|]. split; [done|]. split; [done|].
  unfold recorded in Hrec. rewrite Hns in Hrec.
  destruct (Hquiet Hns) as [Hin _]. rewrite Hin, app_nil_r in Hrec.
  subst delivered. by rewrite app_nil_r in Hbody.
Qed.

Lemma waiting_step body0 s g s' :
  triggered (Next ch) = false ->
  traceInv (Next ch) body0 s ->
  handler s = AtGo \/ handler s = AtHeaders ->
  step ch now r g s = Some s' ->
  handler s' = AtGo \/ handler s' = AtHeaders.
Proof.
  intros Hquiet (Hup & _ & _ & _ & Hearly) Hw Hstep.
  unfold step in Hstep. destruct (panicked s); [done|].
  destruct g.
  - unfold stepUpstream in Hstep.
    destruct (upstream s) as [[|e rest]|] eqn:Hu; try done.
    destruct Hup as [Hprog _].
    assert (Hnot : e <> ESendHeader).
    { intros ->. rewrite program_quiet in Hprog by done.
      assert (Hin : ESendHeader
                    ∈ flat_map afterHeaders (Next ch) ++ [ECloseBody]).
      { rewrite <- Hprog. apply elem_of_app. right. by left. }
      apply elem_of_app in Hin as [Hin|Hin].
      - by eapply not_in_afterHeaders in Hin.
      - by apply list_elem_of_singleton in Hin. }
    destruct e; simpl in Hstep; try done.
    + destruct (Http.mutate _ _ _); by simplify_eq/=.
    + by simplify_eq/=.
    + by simplify_eq/=.
    + destruct (copier s); by simplify_eq/=.
    + by simplify_eq/=.
    + destruct (Http.wIsFlusher (w s)); by simplify_eq/=.
    + by simplify_eq/=.
  - unfold stepHandler in Hstep.
    destruct Hw as [Hw|Hw]; rewrite Hw in Hstep; [|done].
    injection Hstep as <-. by right.
  - unfold stepCopier in Hstep.
    assert (Hns : copier s = NotStarted).
    { apply Hearly. by destruct Hw as [-> | ->]. }
    by rewrite Hns in Hstep.
Qed.

(** The upstream goroutine runs a program without sends to its end while
    the handler waits for the headers. *)
Lemma quiet_run rest : forall s,
  handler s = AtHeaders -> copier s = NotStarted ->
  upstream s = Some rest ->
  Forall (fun e => match e with
                   | EHeader _ | EDownFlush | ECloseBody => True
                   | _ => False
                   end) rest ->
  stuck ch now r (run ch now r (replicate (length rest) Upstream) s) = true.
Proof.
  assert (Hpanic : forall n s, panicked s = true ->
            stuck ch now r (run ch now r (replicate n Upstream) s) = true).
  { induction n as [|n IH]; intros s Hp; simpl.
    - unfold stuck, step. by rewrite Hp.
    - assert (step ch now r Upstream s = None) as ->
        by (unfold step; by rewrite Hp).
      simpl. by apply IH. }
  induction rest as [|e rest IH]; intros s Hh Hc Hu Hq; simpl.
  - unfold stuck, step, stepUpstream, stepHandler, stepCopier.
    rewrite Hu, Hh, Hc. by destruct (panicked s).
  - destruct (panicked s) eqn:Hp.
    { assert (step ch now r Upstream s = None) as ->
        by (unfold step; by rewrite Hp).
      simpl. by apply Hpanic. }
    inversion Hq as [|? ? He Hq']; subst.
    unfold step. rewrite Hp. unfold stepUpstream. rewrite Hu.
    destruct e; try done; simpl.
    + destruct (Http.mutate _ _ _); simpl; [by apply IH|by apply Hpanic].
    + destruct (Http.wIsFlusher (w s)); by apply IH.
    + by apply IH.
Qed.

Lemma quiet_program next :
  triggered next = false ->
  Forall (fun e => match e with
                   | EHeader _ | EDownFlush | ECloseBody => True
                   | _ => False
                   end) (program next).
Proof.
  intros Hq. rewrite program_quiet by done.
  apply Forall_app. split; [|by repeat constructor].
  induction next as [|c next IH]; [done|].
  simpl in Hq. apply orb_false_elim in Hq as [Hc Hq].
  simpl. apply Forall_app. split; [|by apply IH].
  destruct c; try done; by repeat constructor.
Qed.

(** X13. An upstream handler that returns without a call of
    [WriteHeader] or [Write] sends no header event, and nothing else ends
    the wait of [HandleNonCachedResponse] on the header channel: in every
    interleaving the handler has not got past that receive and the index
    is as it was, and once the upstream goroutine has run to its end no
    goroutine can move.  The request never returns. *)
Theorem upstream_without_a_response_blocks_the_handler
    (h0 : heap) (w0 : Http.ResponseWriter)
    (index : gmap string (list HttpCacheEntry)) (sched : list goroutine) :
  triggered (Next ch) = false ->
  (handler (run ch now r sched (init h0 w0 index)) = AtGo
   \/ handler (run ch now r sched (init h0 w0 index)) = AtHeaders)
  /\ entries (run ch now r sched (init h0 w0 index)) = index
  /\ stuck ch now r
       (run ch now r
            (TheHandler :: replicate (length (program (Next ch))) Upstream)
            (init h0 w0 index)) = true.
Proof.
  intros Hquiet.
  assert (Hwait :
    traceInv (Next ch) (Http.wBody w0) (run ch now r sched (init h0 w0 index))
    /\ (handler (run ch now r sched (init h0 w0 index)) = AtGo
        \/ handler (run ch now r sched (init h0 w0 index)) = AtHeaders)).
  { apply (run_invariant ch now r
             (fun s => traceInv (Next ch) (Http.wBody w0) s
                       /\ (handler s = AtGo \/ handler s = AtHeaders))).
    - intros s g s' [Ht Hw] Hstep. split.
      + by eapply traceInv_step.
      + by eapply waiting_step.
    - split; [apply traceInv_init|by left]. }
  destruct Hwait as [_ Hwait]. split; [done|]. split.
  - destruct (run_traced h0 w0 index sched) as [_ (_ & _ & _ & Hhandler)].
    by destruct Hwait as [Hw|Hw]; rewrite Hw in Hhandler.
  - simpl. apply quiet_run; try done. by apply quiet_program.
Qed.

(* The handler returns when the upstream handler answers. *)












End fetch_runs.

(* ------------------------------------------------------------------ *)
(** ** [getKey] *)
(* ------------------------------------------------------------------ *)

Section keys.
Import Keys.

Lemma append_nil (t : string) : ("" +:+ t)%string = t.
Proof. reflexivity. Qed.

Lemma append_cons c (s t : string) :
  (String c s +:+ t)%string = String c (s +:+ t)%string.
Proof. reflexivity. Qed.

Lemma append_split delims s s' t t' :
  lacks delims s = true -> lacks delims s' = true ->
  startsWith delims t = true -> startsWith delims t' = true ->
  (s +:+ t = s' +:+ t')%string -> s = s' /\ t = t'.
Proof.
  revert s'. induction s as [|c s IH]; intros [|c' s'] Hs Hs' Ht Ht' Heq;
    rewrite ?append_nil, ?append_cons in Heq; simpl in Hs, Hs'.
  - done.
  - subst t. simpl in Ht. apply andb_true_iff in Hs' as [Hc' _].
    by rewrite Ht in Hc'.
  - subst t'. simpl in Ht'. apply andb_true_iff in Hs as [Hc _].
    by rewrite Ht' in Hc.
  - injection Heq as -> Heq.
    apply andb_true_iff in Hs as [_ Hs]. apply andb_true_iff in Hs' as [_ Hs'].
    destruct (IH s' Hs Hs' Ht Ht' Heq) as [-> ->]. done.
Qed.

Lemma startsWith_path p q :
  startsWith ["/"%char] p = true -> startsWith ["?"%char] q = true ->
  startsWith ["/"%char; "?"%char] (p +:+ q) = true.
Proof.
  destruct p as [|c p]; rewrite ?append_nil, ?append_cons; simpl.
  - intros _. destruct q as [|c q]; simpl; [done|].
    rewrite !bool_decide_eq_true, !elem_of_cons. tauto.
  - intros Hc _. revert Hc.
    rewrite !bool_decide_eq_true, !elem_of_cons. tauto.
Qed.

Lemma append_assoc (a b c : string) :
  ((a +:+ b) +:+ c = a +:+ (b +:+ c))%string.
Proof.
  induction a as [|x a IH]; [done|]. by rewrite !append_cons, IH.
Qed.

Lemma append_nil_r (a : string) : (a +:+ "" = a)%string.
Proof. induction a as [|x a IH]; [done|]. by rewrite append_cons, IH. Qed.

(** The query part of a key: nothing, or the question mark and the
    encoded query. *)
Lemma getKey_parts r :
  Handler.getKey r
  = (Http.Method r +:+ " " +:+ Http.Host r +:+ Http.URLPath r
     +:+ match Http.URLQuery r with
         | EmptyString => EmptyString
         | q => "?" +:+ q
         end)%string.
Proof.
  unfold Handler.getKey.
  destruct (Http.URLQuery r) as [|c q]; case_decide as Hlen;
    simpl in Hlen; try lia.
  - by rewrite append_nil_r.
  - by rewrite !append_assoc.
Qed.

(** X15. [getKey] tells apart requests that differ in method, host,
    path or encoded query, as long as the method has no space, the host
    no slash and no question mark, and the path starts with a slash (or
    is empty) and has no question mark in it. *)
Theorem getKey_tells_plain_requests_apart (r r' : Http.Request) :
  plain r = true -> plain r' = true ->
  Handler.getKey r = Handler.getKey r' ->
  Http.Method r = Http.Method r'
  /\ Http.Host r = Http.Host r'
  /\ Http.URLPath r = Http.URLPath r'
  /\ Http.URLQuery r = Http.URLQuery r'.
Proof.
  unfold plain.
  rewrite !andb_true_iff.
  intros (((Hm & Hh) & Hp1) & Hp2) (((Hm' & Hh') & Hp1') & Hp2').
  rewrite !getKey_parts.
  set (q := match Http.URLQuery r with
            | EmptyString => EmptyString | q => ("?" +:+ q)%string end).
  set (q' := match Http.URLQuery r' with
             | EmptyString => EmptyString | q => ("?" +:+ q)%string end).
  assert (Hq : startsWith ["?"%char] q = true)
    by (unfold q; by destruct (Http.URLQuery r)).
  assert (Hq' : startsWith ["?"%char] q' = true)
    by (unfold q'; by destruct (Http.URLQuery r')).
  intros Heq.
  apply (append_split [" "%char]) in Heq as [Hmethod Heq]; try done.
  rewrite !append_cons, !append_nil in Heq. injection Heq as Heq.
  apply (append_split ["/"%char; "?"%char]) in Heq as [Hhost Heq];
    try done; try by apply startsWith_path.
  apply (append_split ["?"%char]) in Heq as [Hpath Heq]; try done.
  split; [done|]. split; [done|]. split; [done|].
  unfold q, q' in Heq.
  destruct (Http.URLQuery r), (Http.URLQuery r');
    rewrite ?append_cons, ?append_nil in Heq; congruence.
Qed.

End keys.

(* ------------------------------------------------------------------ *)
(** ** Readers of a buffer that is still written *)
(* ------------------------------------------------------------------ *)

Section streaming.
Import Storage Streaming.
Variable buflen : nat.

Lemma stream_run_invariant (P : world -> Prop) :
  (forall s g s', P s -> Streaming.step buflen g s = Some s' -> P s') ->
  forall sched s, P s -> P (Streaming.run buflen sched s).
Proof.
  intros Hstep. induction sched as [|g sched IH]; intros s Hs; [done|].
  simpl. apply IH.
  destruct (Streaming.step buflen g s) as [s'|] eqn:Hg; [|done].
  by eapply Hstep.
Qed.

Lemma take_copy (l : bytes) o n :
  take (o + length (take n (drop o l))) l = take o l ++ take n (drop o l).
Proof.
  rewrite <- take_take_drop. f_equal.
  rewrite length_take, <- take_take. by rewrite (take_ge (drop o l)).
Qed.

Lemma readerInv_grown b sub rd p :
  readerInv b sub rd -> readerInv (appendData b p) sub rd.
Proof.
  intros (Hgot & Hoff & Hrec & Hcl). repeat split; try done; simpl.
  - rewrite take_app_le by done. done.
  - rewrite length_app. lia.
Qed.

Lemma streamInv_step total s g s' :
  streamInv total s -> Streaming.step buflen g s = Some s' ->
  streamInv total s'.
Proof.
  intros (Hdata & Hlen & Hrd & Hsnap) Hstep.
  unfold Streaming.step in Hstep. destruct (Streaming.panicked s); [done|].
  unfold streamInv. destruct g as [| |i|i|i].
  - (* the writer *)
    unfold stepWriter in Hstep. destruct (signalsDue s).
    + injection Hstep as <-. simpl. rewrite length_map.
      split; [done|]. split; [done|]. split; [|done].
      intros j sub rd Hs Hr. rewrite list_lookup_fmap in Hs.
      destruct (subscribers (buff s) !! j) as [sub0|] eqn:Hs0; [|done].
      injection Hs as <-.
      destruct (Hrd _ _ _ Hs0 Hr) as (Hgot & Hoff & Hrec & Hcl).
      repeat split; simpl; try done; try lia.
    + destruct (script s) as [|[p|] rest] eqn:Hscript; [done| |];
        injection Hstep as <-; simpl.
      * split; [by rewrite <- app_assoc|]. split; [done|]. split; [|done].
        intros j sub rd Hs Hr. apply readerInv_grown. by eapply Hrd.
      * rewrite length_map. split; [done|]. split; [done|]. split; [|done].
        intros j sub rd Hs Hr. rewrite list_lookup_fmap in Hs.
        destruct (subscribers (buff s) !! j) as [sub0|] eqn:Hs0; [|done].
        injection Hs as <-.
        destruct (Hrd _ _ _ Hs0 Hr) as (Hgot & Hoff & Hrec & Hcl).
        repeat split; simpl; try done; try lia.
  - (* a new reader *)
    unfold stepNewReader, GetReader in Hstep.
    destruct (isClosed (buff s)); injection Hstep as <-; simpl.
    + split; [done|]. split; [done|]. split; [done|].
      intros r [Hr|Hr]%elem_of_app; [by apply Hsnap|].
      apply list_elem_of_singleton in Hr as ->. simpl.
      split; [done|]. rewrite <- Hdata. by apply prefix_app_r.
    + rewrite !length_app, Hlen. split; [done|]. split; [done|].
      split; [|done]. intros j sub rd Hs Hr.
      destruct (decide (j < length (subscribers (buff s)))) as [Hlt|Hge].
      * rewrite lookup_app_l in Hs by done.
        rewrite lookup_app_l in Hr by lia.
        destruct (Hrd _ _ _ Hs Hr) as (Hgot & Hoff & Hrec & Hcl).
        by repeat split.
      * rewrite lookup_app_r in Hs by lia.
        rewrite lookup_app_r in Hr by lia. rewrite Hlen in Hr.
        destruct (j - length (subscribers (buff s))) as [|k]; [|done].
        simpl in Hs, Hr. injection Hs as <-. injection Hr as <-.
        repeat split; simpl; try done; lia.
  - (* a reader *)
    unfold stepReader in Hstep.
    destruct (readers s !! i) as [rd0|] eqn:Hr0; [|done].
    destruct (at_ rd0) eqn:Hat.
    + unfold copyOut in Hstep.
      destruct (subscribers (buff s) !! i) as [sub0|] eqn:Hs0.
      2:{ apply lookup_ge_None in Hs0. apply lookup_lt_Some in Hr0. lia. }
      destruct (Hrd _ _ _ Hs0 Hr0) as (Hgot & Hoff & Hrec & Hcl).
      set (p := take buflen (drop (offset sub0) (data (buff s)))) in *.
      assert (Hp : length p <= length (data (buff s)) - offset sub0).
      { unfold p. rewrite length_take, length_drop. lia. }
      assert (Hnew : forall at' got',
                got' = got rd0 ++ p ->
                forall j sub rd,
                  <[i := {| offset := offset sub0 + length p;
                            signalling := signalling sub0;
                            closing := closing sub0 |}]>
                    (subscribers (buff s)) !! j = Some sub ->
                  <[i := mkReader at' got' (received rd0) (closes rd0)]>
                    (readers s) !! j = Some rd ->
                  readerInv
                    {| data := data (buff s);
                       subscribers :=
                         <[i := {| offset := offset sub0 + length p;
                                   signalling := signalling sub0;
                                   closing := closing sub0 |}]>
                           (subscribers (buff s));
                       isClosed := isClosed (buff s) |} sub rd).
      { intros at' got' -> j sub rd Hs Hr.
        destruct (decide (j = i)) as [->|Hne].
        - rewrite list_lookup_insert_eq in Hs
            by (by apply lookup_lt_Some in Hs0).
          rewrite list_lookup_insert_eq in Hr
            by (by apply lookup_lt_Some in Hr0).
          injection Hs as <-. injection Hr as <-.
          repeat split; simpl; try done; [|lia].
          unfold p. by rewrite take_copy, Hgot.
        - rewrite list_lookup_insert_ne in Hs by done.
          rewrite list_lookup_insert_ne in Hr by done.
          destruct (Hrd _ _ _ Hs Hr) as (Hgot' & Hoff' & Hrec' & Hcl').
          by repeat split. }
      destruct p as [|x p'] eqn:Hpe; injection Hstep as <-; simpl;
        rewrite !length_insert.
      * split; [done|]. split; [done|]. split; [|done].
        apply Hnew. by rewrite app_nil_r.
      * split; [done|]. split; [done|]. split; [|done]. by apply Hnew.
    + destruct (decide _); [|done]. injection Hstep as <-. simpl.
      rewrite length_insert. split; [done|]. split; [done|]. split; [|done].
      intros j sub rd Hs Hr. destruct (decide (j = i)) as [->|Hne].
      * rewrite list_lookup_insert_eq in Hr
          by (by apply lookup_lt_Some in Hr0).
        injection Hr as <-.
        destruct (Hrd _ _ _ Hs Hr0) as (Hgot' & Hoff' & Hrec' & Hcl').
        by repeat split.
      * rewrite list_lookup_insert_ne in Hr by done. by eapply Hrd.
    + done.
  - (* a signal *)
    unfold stepSignal in Hstep.
    destruct (readers s !! i) as [rd0|] eqn:Hr0; [|done].
    destruct (subscribers (buff s) !! i) as [sub0|] eqn:Hs0; [|done].
    destruct (decide _) as [Hpending|]; [|done].
    destruct (decide _); [by injection Hstep as <-|].
    destruct (at_ rd0); try done. injection Hstep as <-. simpl.
    rewrite length_insert. split; [done|]. split; [done|]. split; [|done].
    intros j sub rd Hs Hr. destruct (decide (j = i)) as [->|Hne].
    + rewrite list_lookup_insert_eq in Hr by (by apply lookup_lt_Some in Hr0).
      injection Hr as <-. assert (sub = sub0) as -> by congruence.
      destruct (Hrd _ _ _ Hs0 Hr0) as (Hgot' & Hoff' & Hrec' & Hcl').
      repeat split; simpl; try done; try lia.
    + rewrite list_lookup_insert_ne in Hr by done. by eapply Hrd.
  - (* a closer *)
    unfold stepCloser in Hstep.
    destruct (readers s !! i) as [rd0|] eqn:Hr0; [|done].
    destruct (subscribers (buff s) !! i) as [sub0|] eqn:Hs0; [|done].
    destruct (decide _) as [Hpending|]; [|done].
    destruct (decide _); [by injection Hstep as <-|].
    injection Hstep as <-. simpl.
    rewrite length_insert. split; [done|]. split; [done|]. split; [|done].
    intros j sub rd Hs Hr. destruct (decide (j = i)) as [->|Hne].
    + rewrite list_lookup_insert_eq in Hr by (by apply lookup_lt_Some in Hr0).
      injection Hr as <-. assert (sub = sub0) as -> by congruence.
      destruct (Hrd _ _ _ Hs0 Hr0) as (Hgot' & Hoff' & Hrec' & Hcl').
      repeat split; simpl; try done; try lia.
    + rewrite list_lookup_insert_ne in Hr by done. by eapply Hrd.
Qed.

Lemma streamInv_init cs : streamInv (writesOf cs) (Streaming.init cs).
Proof.
  unfold streamInv. simpl. split; [done|]. split; [done|].
  split; [done|]. intros r Hr. by apply elem_of_nil in Hr.
Qed.

Lemma orderly_closes cs : forallb isWClose cs = true -> orderly cs = true.
Proof.
  induction cs as [|[p|] cs IH]; simpl; [done|done|].
  intros H. done.
Qed.

Lemma writesOf_closes cs : forallb isWClose cs = true -> writesOf cs = [].
Proof.
  induction cs as [|[p|] cs IH]; simpl; [done|done|]. exact IH.
Qed.

Lemma orderInv_step total s g s' :
  0 < buflen -> streamInv total s -> orderInv s ->
  Streaming.step buflen g s = Some s' -> orderInv s'.
Proof.
  intros Hbuf (Hdata & Hlen & Hrd & _) (Hord & Hclosed & Hsub) Hstep.
  unfold Streaming.step in Hstep. destruct (Streaming.panicked s); [done|].
  unfold orderInv. destruct g as [| |i|i|i].
  - (* the writer *)
    unfold stepWriter in Hstep. destruct (signalsDue s) eqn:Hdue.
    + injection Hstep as <-. simpl. split; [done|].
      split; [intros Hc; by destruct (Hclosed Hc)|].
      intros j sub rd Hs Hr. rewrite list_lookup_fmap in Hs.
      destruct (subscribers (buff s) !! j) as [sub0|] eqn:Hs0; [|done].
      injection Hs as <-.
      destruct (Hrd _ _ _ Hs0 Hr) as (Hgot & Hoff & Hrec & Hcl).
      destruct (Hsub _ _ _ Hs0 Hr) as (Ha & Hc & Hd). simpl.
      split; [done|]. split; [intros; lia|].
      intros Hat. split; [by apply Hd|]. intros; lia.
    + destruct (script s) as [|[p|] rest] eqn:Hscript; [done| |];
        injection Hstep as <-; simpl.
      * split; [done|].
        split; [intros Hc; by destruct (Hclosed Hc)|].
        intros j sub rd Hs Hr.
        destruct (Hrd _ _ _ Hs Hr) as (Hgot & Hoff & Hrec & Hcl).
        destruct (Hsub _ _ _ Hs Hr) as (Ha & Hc & Hd).
        split; [done|]. split; [done|].
        intros Hat. destruct (Hd Hat) as [Hcl0 _].
        assert (isClosed (buff s) = true) as Hc0 by (apply Ha; lia).
        by destruct (Hclosed Hc0).
      * simpl in Hord. split; [by apply orderly_closes|].
        split; [done|].
        intros j sub rd Hs Hr. rewrite list_lookup_fmap in Hs.
        destruct (subscribers (buff s) !! j) as [sub0|] eqn:Hs0; [|done].
        injection Hs as <-.
        destruct (Hsub _ _ _ Hs0 Hr) as (Ha & Hc & Hd). simpl.
        split; [done|]. split; [intros; by apply Hc|]. done.
  - (* a new reader *)
    unfold stepNewReader, GetReader in Hstep.
    destruct (isClosed (buff s)) eqn:Hcl; injection Hstep as <-; simpl.
    + rewrite Hcl. split; [done|]. split; [done|]. done.
    + split; [done|]. split; [done|].
      intros j sub rd Hs Hr.
      destruct (decide (j < length (subscribers (buff s)))) as [Hlt|Hge].
      * rewrite lookup_app_l in Hs by done.
        rewrite lookup_app_l in Hr by lia.
        destruct (Hsub _ _ _ Hs Hr) as (Ha & Hc & Hd).
        split; [done|]. done.
      * rewrite lookup_app_r in Hs by lia.
        rewrite lookup_app_r in Hr by lia. rewrite Hlen in Hr.
        destruct (j - length (subscribers (buff s))) as [|k]; [|done].
        simpl in Hs, Hr. injection Hs as <-. injection Hr as <-. simpl.
        split; [lia|]. done.
  - (* a reader *)
    unfold stepReader in Hstep.
    destruct (readers s !! i) as [rd0|] eqn:Hr0; [|done].
    destruct (at_ rd0) eqn:Hat.
    + unfold copyOut in Hstep.
      destruct (subscribers (buff s) !! i) as [sub0|] eqn:Hs0.
      2:{ apply lookup_ge_None in Hs0. apply lookup_lt_Some in Hr0. lia. }
      destruct (Hrd _ _ _ Hs0 Hr0) as (Hgot & Hoff & Hrec & Hcl).
      destruct (take buflen (drop (offset sub0) (data (buff s))))
        as [|x p'] eqn:Hp; injection Hstep as <-; simpl.
      * split; [done|]. split; [done|]. intros j sub rd Hs Hr.
        destruct (decide (j = i)) as [->|Hne].
        -- rewrite list_lookup_insert_eq in Hs
             by (by apply lookup_lt_Some in Hs0).
           rewrite list_lookup_insert_eq in Hr
             by (by apply lookup_lt_Some in Hr0).
           injection Hs as <-. injection Hr as <-. simpl.
           destruct (Hsub _ _ _ Hs0 Hr0) as (Ha & Hc & Hd).
           split; [done|]. split; [|done]. intros _ _ _.
           apply (f_equal length) in Hp.
           rewrite length_take, length_drop in Hp. simpl in Hp. lia.
        -- rewrite list_lookup_insert_ne in Hs by done.
           rewrite list_lookup_insert_ne in Hr by done.
           by apply (Hsub j).
      * split; [done|]. split; [done|]. intros j sub rd Hs Hr.
        destruct (decide (j = i)) as [->|Hne].
        -- rewrite list_lookup_insert_eq in Hs
             by (by apply lookup_lt_Some in Hs0).
           rewrite list_lookup_insert_eq in Hr
             by (by apply lookup_lt_Some in Hr0).
           injection Hs as <-. injection Hr as <-. simpl.
           destruct (Hsub _ _ _ Hs0 Hr0) as (Ha & Hc & Hd).
           split; [done|]. done.
        -- rewrite list_lookup_insert_ne in Hs by done.
           rewrite list_lookup_insert_ne in Hr by done.
           by apply (Hsub j).
    + destruct (decide _) as [Hcl0|]; [|done]. injection Hstep as <-. simpl.
      split; [done|]. split; [done|]. intros j sub rd Hs Hr.
      destruct (decide (j = i)) as [->|Hne].
      * rewrite list_lookup_insert_eq in Hr
          by (by apply lookup_lt_Some in Hr0).
        injection Hr as <-. simpl.
        destruct (Hrd _ _ _ Hs Hr0) as (Hgot & Hoff & Hrec & Hcl).
        destruct (Hsub _ _ _ Hs Hr0) as (Ha & Hc & Hd).
        split; [done|]. split; [done|]. intros _. split; [done|].
        intros Heq. apply Hc; [done|done|].
        assert (isClosed (buff s) = true) as Hc0 by (apply Ha; lia).
        by destruct (Hclosed Hc0).
      * rewrite list_lookup_insert_ne in Hr by done. by apply (Hsub j).
    + done.
  - (* a signal *)
    unfold stepSignal in Hstep.
    destruct (readers s !! i) as [rd0|] eqn:Hr0; [|done].
    destruct (subscribers (buff s) !! i) as [sub0|] eqn:Hs0; [|done].
    destruct (decide _) as [Hpending|]; [|done].
    destruct (decide _); [by injection Hstep as <-|].
    destruct (at_ rd0); try done. injection Hstep as <-. simpl.
    split; [done|]. split; [done|]. intros j sub rd Hs Hr.
    destruct (decide (j = i)) as [->|Hne].
    + rewrite list_lookup_insert_eq in Hr by (by apply lookup_lt_Some in Hr0).
      injection Hr as <-. simpl.
      destruct (Hsub _ _ _ Hs Hr0) as (Ha & Hc & Hd). done.
    + rewrite list_lookup_insert_ne in Hr by done. by apply (Hsub j).
  - (* a closer *)
    unfold stepCloser in Hstep.
    destruct (readers s !! i) as [rd0|] eqn:Hr0; [|done].
    destruct (subscribers (buff s) !! i) as [sub0|] eqn:Hs0; [|done].
    destruct (decide _) as [Hpending|]; [|done].
    destruct (decide _); [by injection Hstep as <-|].
    injection Hstep as <-. simpl.
    split; [done|]. split; [done|]. intros j sub rd Hs Hr.
    destruct (decide (j = i)) as [->|Hne].
    + rewrite list_lookup_insert_eq in Hr by (by apply lookup_lt_Some in Hr0).
      injection Hr as <-. simpl.
      destruct (Hsub _ _ _ Hs Hr0) as (Ha & Hc & Hd).
      split; [done|]. split; [done|]. intros Hat.
      destruct (Hd Hat) as [_ Hall]. split; [lia|done].
    + rewrite list_lookup_insert_ne in Hr by done. by apply (Hsub j).
Qed.

Lemma orderInv_init cs : orderly cs = true -> orderInv (Streaming.init cs).
Proof. intros Hord. unfold orderInv. simpl. by repeat split. Qed.

(** X16. Whoever reads a buffer, and however the goroutines take
    turns, has read a prefix of what the writer writes: the bytes [Read]
    has returned to a subscriber so far are the first bytes of the
    buffer, which holds the first bytes of the writes, and a reader handed
    out after the close starts at the first byte of them. *)
Theorem readers_read_a_prefix_of_the_writes
    (cs : list wcall) (sched : list goroutine) :
  (forall i rd,
      readers (Streaming.run buflen sched (Streaming.init cs)) !! i = Some rd ->
      got rd `prefix_of` writesOf cs)
  /\ (forall r,
        r ∈ snapshots (Streaming.run buflen sched (Streaming.init cs)) ->
        BytesReader.i r = 0 /\ BytesReader.s r `prefix_of` writesOf cs).
Proof.
  pose proof (stream_run_invariant (streamInv (writesOf cs))
                (streamInv_step (writesOf cs)) sched _ (streamInv_init cs))
    as (Hdata & Hlen & Hrd & Hsnap).
  split; [|done]. intros i rd Hr.
  destruct (subscribers (buff (Streaming.run buflen sched (Streaming.init cs)))
              !! i) as [sub|] eqn:Hs.
  2:{ apply lookup_ge_None in Hs. apply lookup_lt_Some in Hr. lia. }
  destruct (Hrd _ _ _ Hs Hr) as (Hgot & _). rewrite Hgot, <- Hdata.
  etrans; [apply prefix_take|]. by apply prefix_app_r.
Qed.

(** X17. With a writer that does not write after it has closed, and
    readers whose buffers are not empty: a reader whose [Read] has
    returned [io.EOF] has been given every byte the writer wrote, unless
    a goroutine of [Write] is still to send on its channel, which is
    closed: that goroutine panics when it runs. *)
Theorem reader_at_EOF_has_read_every_write
    (cs : list wcall) (sched : list goroutine) (i : nat) (rd : reader) :
  0 < buflen -> orderly cs = true ->
  readers (Streaming.run buflen sched (Streaming.init cs)) !! i = Some rd ->
  at_ rd = AtEOF ->
  got rd = writesOf cs
  \/ Streaming.panicked
       (Streaming.run buflen [Signal i]
          (Streaming.run buflen sched (Streaming.init cs))) = true.
Proof.
  intros Hbuf Hord Hr Hat.
  assert (streamInv (writesOf cs)
            (Streaming.run buflen sched (Streaming.init cs))
          /\ orderInv (Streaming.run buflen sched (Streaming.init cs)))
    as [(Hdata & Hlen & Hrd & _) (_ & Hclosed & Hsub)].
  { apply (stream_run_invariant
             (fun s => streamInv (writesOf cs) s /\ orderInv s)).
    - intros s g s' [Hs Ho] Hstep. split.
      + by eapply streamInv_step.
      + by eapply orderInv_step.
    - split; [apply streamInv_init|by apply orderInv_init]. }
  set (s := Streaming.run buflen sched (Streaming.init cs)) in *.
  destruct (subscribers (buff s) !! i) as [sub|] eqn:Hs.
  2:{ apply lookup_ge_None in Hs. apply lookup_lt_Some in Hr. lia. }
  destruct (Hrd _ _ _ Hs Hr) as (Hgot & Hoff & Hrec & Hcl).
  destruct (Hsub _ _ _ Hs Hr) as (Ha & _ & Hd).
  destruct (Hd Hat) as [Hcl0 Hall].
  destruct (decide (received rd = signalling sub)) as [Heq|Hne].
  - left. rewrite Hgot, (Hall Heq), take_ge by done.
    assert (isClosed (buff s) = true) as Hc by (apply Ha; lia).
    destruct (Hclosed Hc) as [Hrest _].
    rewrite <- Hdata, (writesOf_closes _ Hrest). by rewrite app_nil_r.
  - right. simpl. unfold Streaming.step.
    destruct (Streaming.panicked s) eqn:Hp; [done|].
    unfold stepSignal. rewrite Hr, Hs.
    rewrite decide_True by lia. by rewrite decide_True by done.
Qed.

Lemma stream_run_app sched sched' (s : world) :
  Streaming.run buflen (sched ++ sched') s
  = Streaming.run buflen sched' (Streaming.run buflen sched s).
Proof.
  revert s. induction sched as [|g sched IH]; intros s; [done|].
  simpl. apply IH.
Qed.

Lemma signalling_iter n r :
  signalling (Nat.iter n signal r) = signalling r + n
  /\ closing (Nat.iter n signal r) = closing r
  /\ offset (Nat.iter n signal r) = offset r.
Proof.
  induction n as [|n (IH1 & IH2 & IH3)]; simpl; [by rewrite Nat.add_0_r|].
  rewrite IH1, IH2, IH3. repeat split; lia.
Qed.

Lemma step_append (s : world) p rest :
  Streaming.panicked s = false -> signalsDue s = false ->
  script s = WWrite p :: rest ->
  Streaming.step buflen Writer s
  = Some (setScript rest true (setBuff (appendData (buff s) p) s)).
Proof.
  intros Hp Hdue Hscript. unfold Streaming.step, stepWriter.
  by rewrite Hp, Hdue, Hscript.
Qed.

Lemma step_signals (s : world) :
  Streaming.panicked s = false -> signalsDue s = true ->
  Streaming.step buflen Writer s
  = Some (setScript (script s) false (setBuff (signalAll (buff s)) s)).
Proof.
  intros Hp Hdue. unfold Streaming.step, stepWriter. by rewrite Hp, Hdue.
Qed.

Lemma writes_run (ws : list bytes) (rest : list wcall) (s : world) :
  Streaming.panicked s = false -> signalsDue s = false ->
  script s = map WWrite ws ++ rest ->
  exists b,
    Streaming.run buflen (replicate (length ws + length ws) Writer) s
    = mkWorld b (readers s) (snapshots s) rest false false
    /\ isClosed b = isClosed (buff s)
    /\ subscribers b
       = map (Nat.iter (length ws) signal) (subscribers (buff s)).
Proof.
  revert s. induction ws as [|p ws IH]; intros s Hp Hdue Hscript.
  - exists (buff s). simpl in *. rewrite map_id.
    destruct s; simpl in *. by subst.
  - simpl length. replace (S (length ws) + S (length ws))
      with (S (S (length ws + length ws))) by lia.
    simpl replicate. simpl Streaming.run.
    rewrite (step_append s p (map WWrite ws ++ rest)) by done.
    simpl default. rewrite step_signals by done. simpl default.
    match goal with
    | |- context [Streaming.run _ _ ?s1] =>
        destruct (IH s1) as (b & Hrun & Hc & Hsubs); [done|done|done|]
    end.
    exists b. split; [exact Hrun|]. split; [exact Hc|].
    rewrite Hsubs. simpl. rewrite map_map. apply map_ext. intros r.
    by rewrite Nat.iter_succ_r.
Qed.

(** X18. A subscriber that does not receive the signal of a write before
    the buffer is closed brings the process down: with a reader handed
    out before the first of one or more writes, once the writer has
    closed and the goroutine of [Close] has closed the channel of the
    reader, a goroutine of [Write] sends on the closed channel. *)
Theorem write_then_close_can_panic (ws : list bytes) :
  ws <> [] ->
  Streaming.panicked
    (Streaming.run buflen
       ([NewReader] ++ replicate (2 * length ws) Writer
        ++ [Writer; Closer 0; Signal 0])
       (Streaming.init (map WWrite ws ++ [WClose]))) = true.
Proof.
  intros Hne. rewrite stream_run_app, stream_run_app.
  replace (2 * length ws) with (length ws + length ws) by lia.
  destruct (writes_run ws [WClose]
              (Streaming.run buflen [NewReader]
                 (Streaming.init (map WWrite ws ++ [WClose]))))
    as (b & -> & Hc & Hsubs); [done|done|done|].
  simpl in Hc, Hsubs. destruct (signalling_iter (length ws)
                        {| offset := 0; signalling := 0; closing := 0 |})
    as (Hsig & Hclo & _).
  simpl in Hsig, Hclo.
  assert (0 < length ws) by (destruct ws; [done|simpl; lia]).
  destruct b as [d subs c]. simpl in Hc, Hsubs. subst subs.
  simpl. unfold Streaming.step. simpl. unfold stepSignal. simpl.
  rewrite Hsig. by rewrite decide_True by lia.
Qed.

End streaming.

(* ------------------------------------------------------------------ *)
(** ** The slices on the body channel *)
(* ------------------------------------------------------------------ *)

Section slices.
Import Storage Buffers.

Lemma buffers_run_invariant (P : Buffers.state -> Prop) :
  (forall s g s', P s -> Buffers.step g s = Some s' -> P s') ->
  forall sched s, P s -> P (Buffers.run sched s).
Proof.
  intros Hstep. induction sched as [|g sched IH]; intros s Hs; [done|].
  simpl. apply IH.
  destruct (Buffers.step g s) as [s'|] eqn:Hg; [|done].
  by eapply Hstep.
Qed.

Lemma view_fill bufs b p c :
  buffer c <> b -> view (fill bufs b p) c = view bufs c.
Proof.
  intros Hne. unfold view, fill, bufferAt.
  by rewrite list_lookup_insert_ne.
Qed.

Lemma untouched_Fill b b' p rest :
  untouched b (Fill b' p :: rest) = true ->
  b <> b' /\ untouched b rest = true.
Proof.
  unfold untouched. simpl. intros [Hb Hrest]%andb_true_iff.
  split; [|done]. apply negb_true_iff, Nat.eqb_neq in Hb. done.
Qed.

Lemma untouched_Write b b' n rest :
  untouched b (Write b' n :: rest) = true -> untouched b rest = true.
Proof. unfold untouched. simpl. done. Qed.

Ltac slice_split :=
  split; [|split; [|split; [|split; [|split; [|split]]]]].

Lemma sliceInv_step c0 total s g s' :
  sliceInv c0 total s -> Buffers.step g s = Some s' -> sliceInv c0 total s'.
Proof.
  intros (Hrec & Hdown & Hdisc & Hcop & Hset & Hclosed & Hret) Hstep.
  unfold Buffers.step in Hstep. destruct (Buffers.panicked s); [done|].
  unfold sliceInv, recorded, inflight in *. destruct g.
  - unfold Buffers.stepUpstream in Hstep.
    destruct (Buffers.upstream s) as [|c|] eqn:Hup; [| |done].
    + assert (Hopen : Buffers.bodyClosed s <> true).
      { intros Hb. by specialize (Hclosed Hb). }
      assert (Hrun : match Buffers.copier s with
                     | AtClose | Finished => False
                     | _ => True
                     end).
      { destruct (Buffers.copier s); try done. by destruct Hcop. }
      destruct (todo s) as [|[b p|b n] rest] eqn:Htodo.
      * injection Hstep as <-. simpl.
        slice_split; try done. by destruct (Buffers.copier s).
      * injection Hstep as <-. simpl. simpl in Hrec, Hdown, Hdisc.
        slice_split; try done.
        -- destruct (Buffers.copier s) as [|c| |]; try done.
           apply untouched_Fill in Hcop as [Hne _]. by rewrite view_fill.
        -- destruct (Buffers.copier s) as [|c| |]; try done.
           by apply untouched_Fill in Hcop as [_ Hrest].
      * simpl in Hrec, Hdown, Hdisc.
        apply andb_true_iff in Hdisc as [Hb Hdisc].
        destruct (decide _) as [Hlong|Hfits].
        -- injection Hstep as <-. simpl.
           rewrite Hb, Hdisc. slice_split; done.
        -- destruct (Buffers.copier s) eqn:Hc; try done.
           injection Hstep as <-. simpl.
           rewrite app_nil_r in Hrec. rewrite <- app_assoc.
           slice_split; done.
    + injection Hstep as <-. simpl. simpl in Hset.
      slice_split; try done.
      * by rewrite <- app_assoc.
      * destruct (Buffers.copier s); try done; by destruct Hcop.
      * intros Hb. by specialize (Hclosed Hb).
  - unfold Buffers.stepCopier in Hstep.
    destruct (Buffers.copier s) as [|c| |] eqn:Hc; [| | |done].
    + destruct (Buffers.bodyClosed s) eqn:Hb; [|done].
      injection Hstep as <-. simpl.
      slice_split; try done; try (by apply Hclosed);
        by destruct (Buffers.upstream s).
    + injection Hstep as <-. simpl.
      rewrite contentData_Write, app_nil_r.
      slice_split; try done; by destruct (Buffers.upstream s).
    + injection Hstep as <-. simpl. rewrite contentData_Close.
      slice_split; try done;
        try (split; [done|apply contentClosed_Close]);
        by destruct (Buffers.upstream s).
Qed.

Lemma sliceInv_init bufs actions c0 :
  disciplined actions = true ->
  sliceInv c0 (written bufs actions) (Buffers.init bufs actions c0).
Proof.
  intros Hd. unfold sliceInv, recorded, inflight. simpl.
  rewrite app_nil_r. by repeat split.
Qed.

(** X20. An upstream handler that never stores into a buffer it has
    passed to [Write]: however the two goroutines take turns, the content
    holds the first of the bytes the handler writes and the client has
    been sent the first of them; once the content is closed it holds
    exactly the bytes of the calls of [Write], in order, behind what it
    held, and these are the bytes sent to the client. *)
Theorem untouched_buffers_are_stored_as_written
    (bufs : list bytes) (actions : list action) (c0 : StorageContent)
    (sched : list Buffers.goroutine) :
  disciplined actions = true ->
  contentData (content (Buffers.run sched (Buffers.init bufs actions c0)))
    `prefix_of` contentData c0 ++ written bufs actions
  /\ downstream (Buffers.run sched (Buffers.init bufs actions c0))
       `prefix_of` written bufs actions
  /\ (Buffers.copier (Buffers.run sched (Buffers.init bufs actions c0))
      = Finished ->
      contentData (content (Buffers.run sched (Buffers.init bufs actions c0)))
      = contentData c0 ++ written bufs actions
      /\ downstream (Buffers.run sched (Buffers.init bufs actions c0))
         = written bufs actions
      /\ Trace.contentClosed
           (content (Buffers.run sched (Buffers.init bufs actions c0)))).
Proof.
  intros Hd.
  pose proof (buffers_run_invariant _
                (sliceInv_step c0 (written bufs actions)) sched _
                (sliceInv_init bufs actions c0 Hd))
    as (Hrec & Hdown & _ & Hcop & _ & _ & Hret).
  set (s := Buffers.run sched (Buffers.init bufs actions c0)) in *.
  unfold recorded, inflight in *.
  split; [|split].
  - rewrite <- Hrec, <- app_assoc. by apply prefix_app_r.
  - rewrite <- Hdown. by apply prefix_app_r.
  - intros Hfin. rewrite Hfin in *. destruct Hcop as [Hup Hcc].
    rewrite (Hret Hup), Hup in *. simpl in *.
    rewrite !app_nil_r in *. done.
Qed.

Lemma copyInto_same_length (p q : bytes) :
  length q = length p -> copyInto p q = q.
Proof.
  intros Hlen. unfold copyInto.
  rewrite (drop_ge p) by lia. rewrite app_nil_r. by rewrite take_ge by lia.
Qed.

Lemma buffers_run_cons g sched s s' :
  Buffers.step g s = Some s' ->
  Buffers.run (g :: sched) s = Buffers.run sched s'.
Proof. intros Hstep. simpl. by rewrite Hstep. Qed.

Lemma view_whole (p : bytes) n :
  length p <= n -> view [p] (mkChunk 0 n) = p.
Proof. intros Hn. unfold view, bufferAt. simpl. by rewrite take_ge. Qed.

(** The schedule [lateCopier], step by step. *)
Lemma lateCopier_run (p q : bytes) (c0 : StorageContent) :
  length q = length p ->
  Buffers.run lateCopier (Buffers.init [p] (reusing p q) c0)
  = Buffers.mkState
      [q] [] Returned Finished
      (ContentClose (ContentWrite (ContentWrite c0 q) q))
      (p ++ q) true false.
Proof.
  intros Hlen. unfold lateCopier, reusing, Buffers.init.
  (* the first call of [Write]: the send, and the write downstream *)
  rewrite (buffers_run_cons _ _ _
             (Buffers.mkState [p] [Fill 0 q; Write 0 (length p)]
                (AtDownWrite (mkChunk 0 (length p)))
                (AtWrite (mkChunk 0 (length p))) c0 [] false false)).
  2:{ unfold Buffers.step, Buffers.stepUpstream. simpl.
      by rewrite decide_False by (unfold bufferAt; simpl; lia). }
  rewrite (buffers_run_cons _ _ _
             (Buffers.mkState [p] [Fill 0 q; Write 0 (length p)]
                InHandler (AtWrite (mkChunk 0 (length p))) c0 p
                false false)).
  2:{ unfold Buffers.step, Buffers.stepUpstream. simpl.
      by rewrite view_whole. }
  (* the buffer is filled again *)
  rewrite (buffers_run_cons _ _ _
             (Buffers.mkState [q] [Write 0 (length p)]
                InHandler (AtWrite (mkChunk 0 (length p))) c0 p
                false false)).
  2:{ unfold Buffers.step, Buffers.stepUpstream, fill, bufferAt. simpl.
      by rewrite copyInto_same_length. }
  (* the copier writes what the slice denotes now *)
  rewrite (buffers_run_cons _ _ _
             (Buffers.mkState [q] [Write 0 (length p)]
                InHandler AtRange (ContentWrite c0 q) p false false)).
  2:{ unfold Buffers.step, Buffers.stepCopier. simpl.
      by rewrite view_whole by lia. }
  (* the second call of [Write] *)
  rewrite (buffers_run_cons _ _ _
             (Buffers.mkState [q] []
                (AtDownWrite (mkChunk 0 (length p)))
                (AtWrite (mkChunk 0 (length p))) (ContentWrite c0 q) p
                false false)).
  2:{ unfold Buffers.step, Buffers.stepUpstream. simpl.
      by rewrite decide_False by (unfold bufferAt; simpl; lia). }
  rewrite (buffers_run_cons _ _ _
             (Buffers.mkState [q] [] InHandler
                (AtWrite (mkChunk 0 (length p))) (ContentWrite c0 q)
                (p ++ q) false false)).
  2:{ unfold Buffers.step, Buffers.stepUpstream. simpl.
      by rewrite view_whole by lia. }
  rewrite (buffers_run_cons _ _ _
             (Buffers.mkState [q] [] InHandler AtRange
                (ContentWrite (ContentWrite c0 q) q) (p ++ q)
                false false)).
  2:{ unfold Buffers.step, Buffers.stepCopier. simpl.
      by rewrite view_whole by lia. }
  (* the body channel is closed, and the content after it *)
  reflexivity.
Qed.

(** X21. An upstream handler that writes from a buffer, fills the buffer
    again and writes from it a second time, as a copy loop does.  When
    the goroutine that fills the content comes to its [Write] after the
    buffer was filled again, the client has been sent the bytes of the
    two calls and the content, closed, holds the bytes of the second call
    twice. *)
Theorem reused_buffer_is_stored_as_it_is_later
    (p q : bytes) (c0 : StorageContent) :
  length q = length p ->
  Buffers.copier (Buffers.run lateCopier (Buffers.init [p] (reusing p q) c0))
  = Finished
  /\ Buffers.panicked
       (Buffers.run lateCopier (Buffers.init [p] (reusing p q) c0)) = false
  /\ written [p] (reusing p q) = p ++ q
  /\ downstream (Buffers.run lateCopier (Buffers.init [p] (reusing p q) c0))
     = p ++ q
  /\ contentData
       (content (Buffers.run lateCopier (Buffers.init [p] (reusing p q) c0)))
     = contentData c0 ++ q ++ q.
Proof.
  intros Hlen. rewrite lateCopier_run by done. simpl.
  split; [done|]. split; [done|]. split; [|split; [done|]].
  - change (fill [p] 0 q) with [copyInto p q].
    rewrite copyInto_same_length by done.
    rewrite !view_whole by lia. by rewrite app_nil_r.
  - by rewrite contentData_Close, !contentData_Write, <- app_assoc.
Qed.

End slices.

(* ------------------------------------------------------------------ *)
(** ** The names of the files of the file storage *)
(* ------------------------------------------------------------------ *)

Section file_names.
Import Rand.
Variable src : nat -> nat.

Lemma fill_S count drawn :
  fill src (S count) drawn
  = match letters !! (src drawn mod length letters) with
    | None => None
    | Some c =>
        match fill src count (S drawn) with
        | None => None
        | Some (b, drawn') => Some (c :: b, drawn')
        end
    end.
Proof. reflexivity. Qed.

Lemma fill_letters count drawn :
  exists b,
    fill src count drawn = Some (b, drawn + count)
    /\ length b = count
    /\ Forall (fun c => c ∈ letters) b.
Proof.
  revert drawn. induction count as [|count IH]; intros drawn.
  - exists []. simpl. rewrite Nat.add_0_r. by repeat split.
  - rewrite fill_S.
    destruct (letters !! (src drawn mod length letters)) as [c|] eqn:Hc.
    2:{ apply lookup_ge_None in Hc.
        pose proof (Nat.mod_upper_bound (src drawn) (length letters)) as Hlt.
        assert (length letters <> 0) as Hlen by (by vm_compute).
        specialize (Hlt Hlen). lia. }
    destruct (IH (S drawn)) as (b & -> & Hlen & Hall).
    exists (c :: b). split; [do 2 f_equal; lia|].
    split; [simpl; by rewrite Hlen|].
    constructor; [|done]. by eapply list_elem_of_lookup_2.
Qed.

(** X19. Whatever numbers the generator yields, [randSeq(n)] for a
    length that is not negative returns a string of [n] characters, every
    one of them an ASCII letter or digit of [letters]; none is the [/]
    that separates the elements of a path, and [n] numbers have been
    drawn. *)
Theorem randSeq_is_n_letters_or_digits (drawn : nat) (n : Z) :
  (0 <= n)%Z ->
  exists s,
    randSeq src drawn n = Some (s, drawn + Z.to_nat n)
    /\ String.length s = Z.to_nat n
    /\ Forall (fun c => c ∈ letters) (list_ascii_of_string s)
    /\ "/"%char ∉ list_ascii_of_string s.
Proof.
  intros Hn. unfold randSeq.
  destruct (Z.ltb_spec n 0) as [Hneg|_]; [lia|].
  destruct (fill_letters (Z.to_nat n) drawn) as (b & -> & Hlen & Hall).
  exists (string_of_list_ascii b). split; [done|].
  rewrite list_ascii_of_string_of_list_ascii.
  split; [|split; [done|]].
  - rewrite <- Hlen. clear. induction b as [|c b IH]; simpl; [done|].
    by rewrite IH.
  - intros Hin. rewrite Forall_forall in Hall. apply Hall in Hin.
    revert Hin. clear. unfold letters. simpl.
    rewrite !elem_of_cons. rewrite elem_of_nil. intros Hin.
    repeat (destruct Hin as [Hin|Hin]; [discriminate Hin|]). done.
Qed.

End file_names.

(* ------------------------------------------------------------------ *)
(** ** The statements with premises, at the inputs of the tests *)
(* ------------------------------------------------------------------ *)

Lemma heap0_wfHeader : Heap.wfHeader heap0 (Http.wHeader writer0).
Proof.
  split; [simpl; lia|]. intros a (k & n & Hk). by vm_compute in Hk.
Qed.

(** Set on the writer of the tests, the status header is the one value. *)
Lemma AddStatusHeaderIfConfigured_sets_one_value_witness :
  Heap.wfHeader heap0 (Http.wHeader writer0)
  /\ headerValue
       (Handler.AddStatusHeaderIfConfigured config0 heap0 writer0 "hit")
       (Http.wHeader writer0)
     = <["Cache-Status" := Some ["hit"]]> (headerValue heap0 (Http.wHeader writer0)).
Proof.
  split; [exact heap0_wfHeader|].
  exact (proj1 (AddStatusHeaderIfConfigured_sets_one_value
                  config0 heap0 writer0 "hit" heap0_wfHeader)).
Defined.

(** With the status header of [TestStatusCacheSkip], what the handler
    sets is not what the removal deletes. *)
Lemma RemoveStatusHeaderIfConfigured_deletes_the_name_as_written_witness :
  Heap.wfHeader heap0 (Http.wHeader writer0)
  /\ headerValue
       (fst (Handler.RemoveStatusHeaderIfConfigured
               (mkConfig "cache-status" 10 [])
               (Handler.AddStatusHeaderIfConfigured
                  (mkConfig "cache-status" 10 []) heap0 writer0 "hit")
               (Http.wHeader writer0)))
       (Http.wHeader writer0)
     = <["Cache-Status" := Some ["hit"]]>
         (delete "cache-status" (headerValue heap0 (Http.wHeader writer0))).
Proof.
  split; [exact heap0_wfHeader|].
  exact (RemoveStatusHeaderIfConfigured_deletes_the_name_as_written
           (mkConfig "cache-status" 10 []) heap0 writer0 "hit"
           heap0_wfHeader).
Defined.

Lemma varyHeap_canonical l :
  l = 0 \/ l = 1 -> Headers.canonicalKeys Samples.varyHeap l.
Proof.
  intros [-> | ->] k [s Hk].
  - change (Heap.mapOf Samples.varyHeap 0)
      with ({["Accept-Encoding" := Heap.Slice 0 1]} : gmap string Heap.slice)
      in Hk.
    apply lookup_singleton_Some in Hk as [<- _]. reflexivity.
  - change (Heap.mapOf Samples.varyHeap 1)
      with ({["Accept-Encoding" := Heap.Slice 1 1]} : gmap string Heap.slice)
      in Hk.
    apply lookup_singleton_Some in Hk as [<- _]. reflexivity.
Qed.

(** A request for deflate matches the entry of a request for gzip when
    the response varies on [accept-encoding], in lower case. *)
Lemma matchesRequest_ignores_names_that_are_not_canonical_witness :
  Headers.canonicalKeys Samples.varyHeap
    (Request.HeaderMap (Request Samples.varyEntry))
  /\ Headers.canonicalKeys Samples.varyHeap (Http.Header Samples.varyRequest)
  /\ Heap.mapOf Samples.varyHeap
       (Response.HeaderMap (Response Samples.varyEntry)) !! "Vary"
     = Some (Heap.Slice 2 1)
  /\ Heap.sliceElems Samples.varyHeap (Heap.Slice 2 1) = ["accept-encoding"]
  /\ exists b,
      Handler.matchesRequest Samples.varyHeap Samples.varyRequest
                             Samples.varyEntry = Some b
      /\ (b = true <->
          forall name, name ∈ Handler.varyNames "accept-encoding" ->
            GoStrings.CanonicalMIMEHeaderKey name = name ->
            Handler.valuesOf Samples.varyHeap
              (Request.HeaderMap (Request Samples.varyEntry)) name
            = Handler.valuesOf Samples.varyHeap
                (Http.Header Samples.varyRequest) name).
Proof.
  split; [apply varyHeap_canonical; by left|].
  split; [apply varyHeap_canonical; by right|].
  split; [reflexivity|]. split; [reflexivity|].
  exact (matchesRequest_ignores_names_that_are_not_canonical
           Samples.varyHeap Samples.varyRequest Samples.varyEntry
           (Heap.Slice 2 1) "accept-encoding" []
           (varyHeap_canonical 0 (or_introl eq_refl))
           (varyHeap_canonical 1 (or_intror eq_refl))
           eq_refl eq_refl).
Defined.

(** A hit on the closed content of [Hello :)]. *)
Lemma HandleCachedResponse_replays_a_closed_content_witness :
  Response.Body (Response Samples.storedEntry) = Some 0
  /\ Storage.NewContent Storage.MemoryStorage None "GET somehost.com/"
     = inl (Storage.InMemory Storage.NewMemoryData)
  /\ Samples.closedContents !! 0
     = Some (Storage.ContentClose
               (foldl Storage.ContentWrite
                      (Storage.InMemory Storage.NewMemoryData) Samples.chunks))
  /\ Http.wBody
       (Handler.rWriter
          (Handler.HandleCachedResponse config0 Samples.storedHeap
             Samples.closedContents writer0 Samples.storedEntry))
     = Http.wBody writer0 ++ concat Samples.chunks.
Proof.
  split; [reflexivity|]. split; [reflexivity|]. split; [reflexivity|].
  exact (proj1 (proj2
    (HandleCachedResponse_replays_a_closed_content
       config0 Samples.storedHeap Samples.closedContents writer0
       Samples.storedEntry 0 Storage.MemoryStorage "GET somehost.com/"
       (Storage.InMemory Storage.NewMemoryData) Samples.chunks
       eq_refl eq_refl eq_refl))).
Defined.

(** A hit on the file of [Hello :)] before it is closed. *)
Lemma HandleCachedResponse_on_an_open_content_witness :
  Response.Body (Response Samples.storedEntry) = Some 0
  /\ Storage.NewContent (Storage.MMapStorage "/tmp/caddy-cache-tests") None
                        "GET somehost.com/"
     = inl (Storage.OnDisk {| Storage.file := []; Storage.mapping := [] |})
  /\ Samples.openFileContents !! 0
     = Some (foldl Storage.ContentWrite
               (Storage.OnDisk {| Storage.file := []; Storage.mapping := [] |})
               Samples.chunks)
  /\ Http.wBody
       (Handler.rWriter
          (Handler.HandleCachedResponse config0 Samples.storedHeap
             Samples.openFileContents writer0 Samples.storedEntry))
     = Http.wBody writer0.
Proof.
  split; [reflexivity|]. split; [reflexivity|]. split; [reflexivity|].
  exact (proj1
    (HandleCachedResponse_on_an_open_content
       config0 Samples.storedHeap Samples.openFileContents writer0
       Samples.storedEntry 0 (Storage.MMapStorage "/tmp/caddy-cache-tests")
       "GET somehost.com/"
       (Storage.OnDisk {| Storage.file := []; Storage.mapping := [] |})
       Samples.chunks eq_refl eq_refl eq_refl)).
Defined.

Lemma storedHeap_owned :
  Headers.owned Samples.storedHeap (Http.wHeader writer0).
Proof.
  split; [simpl; lia|]. split.
  - intros k a n Hk. by vm_compute in Hk.
  - intros k1 k2 a n1 n2 Hk. by vm_compute in Hk.
Qed.

Lemma storedHeap_refs a :
  Heap.refs (Heap.mapOf Samples.storedHeap 2) a -> a = 0 \/ a = 1.
Proof.
  intros (k & n & Hk).
  change (Heap.mapOf Samples.storedHeap 2)
    with (<["Content-Type" := Heap.Slice 0 1]>
            (<["X-Custom" := Heap.Slice 1 3]>
               (∅ : gmap string Heap.slice))) in Hk.
  apply lookup_insert_Some in Hk as [[_ [= <- _]]|[_ Hk]]; [by left|].
  apply lookup_insert_Some in Hk as [[_ [= <- _]]|[_ Hk]]; [by right|].
  by rewrite lookup_empty in Hk.
Qed.

Lemma storedHeap_separated :
  Heap.separated Samples.storedHeap (Http.wHeader writer0)
                 (Response.HeaderMap (Response Samples.storedEntry)).
Proof.
  split; [done|]. intros a Ha. split.
  - apply storedHeap_refs in Ha as [-> | ->]; simpl; lia.
  - intros (k & n & Hk). by vm_compute in Hk.
Qed.

Lemma storedHeap_canonical :
  Headers.canonicalKeys Samples.storedHeap
    (Response.HeaderMap (Response Samples.storedEntry)).
Proof.
  intros k [s Hk].
  change (Heap.mapOf Samples.storedHeap
            (Response.HeaderMap (Response Samples.storedEntry)))
    with (<["Content-Type" := Heap.Slice 0 1]>
            (<["X-Custom" := Heap.Slice 1 3]>
               (∅ : gmap string Heap.slice))) in Hk.
  apply lookup_insert_Some in Hk as [[<- _]|[_ Hk]]; [reflexivity|].
  apply lookup_insert_Some in Hk as [[<- _]|[_ Hk]]; [reflexivity|].
  by rewrite lookup_empty in Hk.
Qed.

Lemma storedHeap_wfHeader :
  Heap.wfHeader Samples.storedHeap
    (Response.HeaderMap (Response Samples.storedEntry)).
Proof.
  split; [simpl; lia|]. intros a Ha.
  apply storedHeap_refs in Ha as [-> | ->]; simpl; lia.
Qed.

(** The clone of the response headers of [TestAddAllHeaders]: a content
    type and the three values of [X-Custom]. *)
Lemma cloneHeader_copies_every_value_witness :
  Heap.wfHeader Samples.storedHeap
    (Response.HeaderMap (Response Samples.storedEntry))
  /\ Heap.headerValue Samples.storedHeap
       (Response.HeaderMap (Response Samples.storedEntry)) !! "X-Custom"
     = Some (Some ["foo"; "bar"; "baz"])
  /\ snd (cloneHeader Samples.storedHeap
            (Response.HeaderMap (Response Samples.storedEntry))) = 3
  /\ Heap.headerValue
       (fst (cloneHeader Samples.storedHeap
               (Response.HeaderMap (Response Samples.storedEntry))))
       (snd (cloneHeader Samples.storedHeap
               (Response.HeaderMap (Response Samples.storedEntry))))
     = (fun v => Some (default [] v))
         <$> Heap.headerValue Samples.storedHeap
               (Response.HeaderMap (Response Samples.storedEntry))
  /\ Heap.headerValue
       (fst (cloneHeader Samples.storedHeap
               (Response.HeaderMap (Response Samples.storedEntry))))
       (Response.HeaderMap (Response Samples.storedEntry))
     = Heap.headerValue Samples.storedHeap
         (Response.HeaderMap (Response Samples.storedEntry)).
Proof.
  split; [exact storedHeap_wfHeader|]. split; [reflexivity|].
  exact (cloneHeader_copies_every_value
           Samples.storedHeap
           (Response.HeaderMap (Response Samples.storedEntry))
           storedHeap_wfHeader).
Defined.

(** The headers of a hit on the entry of [TestAddAllHeaders]. *)
Lemma HandleCachedResponse_replays_the_stored_headers_witness :
  Headers.owned Samples.storedHeap (Http.wHeader writer0)
  /\ Heap.separated Samples.storedHeap (Http.wHeader writer0)
                    (Response.HeaderMap (Response Samples.storedEntry))
  /\ Headers.canonicalKeys Samples.storedHeap
       (Response.HeaderMap (Response Samples.storedEntry))
  /\ Http.wCode writer0 = None
  /\ Http.wSent
       (Handler.rWriter
          (Handler.HandleCachedResponse config0 Samples.storedHeap
             Samples.closedContents writer0 Samples.storedEntry))
     !! "X-Custom"
     = Headers.replayed
         (headerValue
            (Handler.AddStatusHeaderIfConfigured
               config0 Samples.storedHeap writer0 "hit")
            (Http.wHeader writer0) !! "X-Custom")
         (default []
            (Handler.valuesOf Samples.storedHeap
               (Response.HeaderMap (Response Samples.storedEntry))
               "X-Custom")).
Proof.
  split; [exact storedHeap_owned|]. split; [exact storedHeap_separated|].
  split; [exact storedHeap_canonical|]. split; [reflexivity|].
  exact (HandleCachedResponse_replays_the_stored_headers
           config0 Samples.storedHeap Samples.closedContents writer0
           Samples.storedEntry "X-Custom"
           storedHeap_owned storedHeap_separated storedHeap_canonical
           eq_refl).
Defined.

Example hit_on_TestAddAllHeaders :
  Http.wSent
    (Handler.rWriter
       (Handler.HandleCachedResponse config0 Samples.storedHeap
          Samples.closedContents writer0 Samples.storedEntry))
  = {[ "Cache-Status" := Some ["hit"];
       "Content-Type" := Some ["text/plain; charset=utf-8"];
       "X-Custom" := Some ["foo"; "bar"; "baz"] ]}.
Proof. by vm_compute. Qed.

(** The cacheable response of the tests, the goroutines in turn. *)
Lemma finished_fetch_is_delivered_and_indexed_witness :
  copier (run taggingHandler now0 request0 roundRobin start0) = Finished 0
  /\ handler (run taggingHandler now0 request0 roundRobin start0)
     = Done (Trace.statusOf (Next taggingHandler)) None
  /\ Http.wBody (w (run taggingHandler now0 request0 roundRobin start0))
     = Http.wBody writer0 ++ Trace.bodyOf (Next taggingHandler).
Proof.
  assert (Hfin : copier (run taggingHandler now0 request0 roundRobin start0)
                 = Finished 0) by (by vm_compute).
  split; [exact Hfin|].
  pose proof (finished_fetch_is_delivered_and_indexed
                taggingHandler now0 request0 heap0 writer0 ∅ roundRobin 0
                Hfin) as (Hdone & Hbody & _).
  split; [exact Hdone|exact Hbody].
Defined.

(** The private response of the tests, the goroutines in turn. *)
Lemma response_without_copier_delivers_no_body_witness :
  copier (run privateHandler now0 request0 roundRobin start0) = NotStarted
  /\ Http.wBody (w (run privateHandler now0 request0 roundRobin start0))
     = Http.wBody writer0.
Proof.
  assert (Hns : copier (run privateHandler now0 request0 roundRobin start0)
                = NotStarted) by (by vm_compute).
  split; [exact Hns|].
  exact (proj1 (response_without_copier_delivers_no_body
                  privateHandler now0 request0 heap0 writer0 ∅ roundRobin
                  Hns)).
Defined.

(** The response whose file cannot be created, the goroutines in turn. *)
Lemma failed_fetch_stores_nothing_witness :
  handler (run unwritableHandler now0 request0 roundRobin start0)
  = Done 500 (Some "open /tmp/caddy-cache-tests: permission denied")
  /\ entries (run unwritableHandler now0 request0 roundRobin start0) = ∅.
Proof.
  assert (Hdone : handler (run unwritableHandler now0 request0 roundRobin start0)
                  = Done 500
                      (Some "open /tmp/caddy-cache-tests: permission denied"))
    by (by vm_compute).
  split; [exact Hdone|].
  exact (proj1 (proj2 (failed_fetch_stores_nothing
                         unwritableHandler now0 request0 heap0 writer0 ∅
                         roundRobin 500 _ Hdone))).
Defined.

(** An upstream handler that sets a header and flushes. *)
Lemma upstream_without_a_response_blocks_the_handler_witness :
  triggered (Next Samples.silentHandler) = false
  /\ (handler (run Samples.silentHandler now0 request0 roundRobin start0)
      = AtGo
      \/ handler (run Samples.silentHandler now0 request0 roundRobin start0)
         = AtHeaders).
Proof.
  split; [reflexivity|].
  exact (proj1 (upstream_without_a_response_blocks_the_handler
                  Samples.silentHandler now0 request0 heap0 writer0 ∅
                  roundRobin eq_refl)).
Defined.


(** Two requests of the tests with the same key. *)
Lemma getKey_tells_plain_requests_apart_witness :
  Keys.plain request0 = true
  /\ Keys.plain Samples.request1 = true
  /\ Handler.getKey request0 = Handler.getKey Samples.request1
  /\ Http.Method request0 = Http.Method Samples.request1
  /\ Http.Host request0 = Http.Host Samples.request1
  /\ Http.URLPath request0 = Http.URLPath Samples.request1
  /\ Http.URLQuery request0 = Http.URLQuery Samples.request1.
Proof.
  split; [reflexivity|]. split; [reflexivity|]. split; [reflexivity|].
  exact (getKey_tells_plain_requests_apart request0 Samples.request1
           eq_refl eq_refl eq_refl).
Defined.

Lemma reader_at_EOF_has_read_every_write_witness :
  0 < 4
  /\ Streaming.orderly Samples.helloScript = true
  /\ Streaming.readers
       (Streaming.run 4 Samples.readToTheEnd
          (Streaming.init Samples.helloScript)) !! 0
     = Some (Streaming.mkReader Streaming.AtEOF hello 1 1)
  /\ (hello = Streaming.writesOf Samples.helloScript
      \/ Streaming.panicked
           (Streaming.run 4 [Streaming.Signal 0]
              (Streaming.run 4 Samples.readToTheEnd
                 (Streaming.init Samples.helloScript))) = true).
Proof.
  split; [lia|]. split; [reflexivity|]. split; [reflexivity|].
  exact (reader_at_EOF_has_read_every_write
           4 Samples.helloScript Samples.readToTheEnd 0
           (Streaming.mkReader Streaming.AtEOF hello 1 1)
           ltac:(lia) eq_refl eq_refl eq_refl).
Defined.

Lemma write_then_close_can_panic_witness :
  Samples.chunks <> []
  /\ Streaming.panicked
       (Streaming.run 4
          ([Streaming.NewReader]
           ++ replicate (2 * length Samples.chunks) Streaming.Writer
           ++ [Streaming.Writer; Streaming.Closer 0; Streaming.Signal 0])
          (Streaming.init
             (map Streaming.WWrite Samples.chunks ++ [Streaming.WClose])))
     = true.
Proof.
  split; [discriminate|].
  exact (write_then_close_can_panic 4 Samples.chunks ltac:(discriminate)).
Defined.

Lemma randSeq_is_n_letters_or_digits_witness :
  (0 <= 10)%Z
  /\ exists s,
      Rand.randSeq (fun k => 7 * k + 3) 0 10 = Some (s, 0 + Z.to_nat 10)
      /\ String.length s = Z.to_nat 10
      /\ Forall (fun c => c ∈ Rand.letters) (list_ascii_of_string s)
      /\ "/"%char ∉ list_ascii_of_string s.
Proof.
  split; [lia|].
  exact (randSeq_is_n_letters_or_digits (fun k => 7 * k + 3) 0 10
           ltac:(lia)).
Defined.

(** Two writes from two buffers, the goroutines in turn: the content
    holds [Hello :)]. *)
Lemma untouched_buffers_are_stored_as_written_witness :
  Buffers.disciplined Samples.twoWrites = true
  /\ Buffers.copier
       (Buffers.run Samples.inTurn
          (Buffers.init Samples.twoBuffers Samples.twoWrites
             (Storage.InMemory Storage.NewMemoryData))) = Buffers.Finished
  /\ Buffers.written Samples.twoBuffers Samples.twoWrites = hello
  /\ Storage.contentData
       (Buffers.content
          (Buffers.run Samples.inTurn
             (Buffers.init Samples.twoBuffers Samples.twoWrites
                (Storage.InMemory Storage.NewMemoryData))))
     = Storage.contentData (Storage.InMemory Storage.NewMemoryData)
       ++ Buffers.written Samples.twoBuffers Samples.twoWrites.
Proof.
  split; [reflexivity|]. split; [reflexivity|]. split; [reflexivity|].
  exact (proj1 (proj2 (proj2 (untouched_buffers_are_stored_as_written
                                Samples.twoBuffers Samples.twoWrites
                                (Storage.InMemory Storage.NewMemoryData)
                                Samples.inTurn eq_refl)) eq_refl)).
Defined.

(** [Hello] written and the buffer filled with [World] before the copier
    runs: the client has [HelloWorld], the content [WorldWorld]. *)
Lemma reused_buffer_is_stored_as_it_is_later_witness :
  length (String.list_byte_of_string "World")
  = length (String.list_byte_of_string "Hello")
  /\ Buffers.downstream
       (Buffers.run Buffers.lateCopier
          (Buffers.init [String.list_byte_of_string "Hello"]
             (Buffers.reusing (String.list_byte_of_string "Hello")
                              (String.list_byte_of_string "World"))
             (Storage.InMemory Storage.NewMemoryData)))
     = String.list_byte_of_string "Hello"
       ++ String.list_byte_of_string "World"
  /\ Storage.contentData
       (Buffers.content
          (Buffers.run Buffers.lateCopier
             (Buffers.init [String.list_byte_of_string "Hello"]
                (Buffers.reusing (String.list_byte_of_string "Hello")
                                 (String.list_byte_of_string "World"))
                (Storage.InMemory Storage.NewMemoryData))))
     = Storage.contentData (Storage.InMemory Storage.NewMemoryData)
       ++ String.list_byte_of_string "World"
       ++ String.list_byte_of_string "World".
Proof.
  split; [reflexivity|].
  pose proof (reused_buffer_is_stored_as_it_is_later
                (String.list_byte_of_string "Hello")
                (String.list_byte_of_string "World")
                (Storage.InMemory Storage.NewMemoryData) eq_refl)
    as (_ & _ & _ & Hdown & Hdata).
  split; [exact Hdown|exact Hdata].
Defined.
